(** * quantum-simulation: a dense state-vector simulator and three query
    algorithms (Deutsch-Jozsa, Grover, Bernstein-Vazirani).

    Shallow embedding of [quantum_simulation/utils.py], [qubit.py],
    [quantum_register.py] and [algorithms.py], of [encode] from
    [scripts/bernstein_vazirani_algorithm.py] and of the table that
    [scripts/grover_algorithm.py] builds for an index.

    Numbers.  Python [float]/numpy [float64] values are modelled by the real
    numbers [R] and [complex]/[complex128] by pairs of reals: arithmetic is
    exact, rounding is abstracted away.  Comparisons that the source makes
    with a tolerance ([np.allclose]) keep their tolerance.  Python [int]s are
    [Z]; lengths and indices are [nat].  What is proved over [R] are results
    that rounding does not change (bit strings, lengths, exceptions, traces);
    the values of the entries of [hadamard] are studied on a second
    embedding of that function over binary64 numbers (module [Float64]).

    Arrays.  A 1-D ndarray is a [list], a 2-D ndarray a list of rows.

    Effects.  Failing assertions and library errors are an exception result
    ([result]); [print] is a writer of trace lines ([io]); the register that
    the source mutates in place is passed explicitly. *)

From Stdlib Require Import String Ascii DecimalString.
From Stdlib Require Import Reals Lra Lia ZArith Bool Psatz List.
From Stdlib Require Import Machin.
From Stdlib Require Import Permutation.
From Stdlib Require PrimFloat FloatOps SpecFloat.
From Equations Require Import Equations.
Import ListNotations.

Set Implicit Arguments.

(* ===================================================================== *)
(** * Exceptions *)
(* ===================================================================== *)

Inductive exn : Type :=
| AssertionError   (* a failed [assert] *)
| ValueError       (* [math.log2] of a non-positive number, [int] of a bad literal,
                      [argmax] of an empty array, [@] on mismatched shapes, an
                      array asked of a nested list whose rows differ in length *)
| IndexError       (* a list or array index out of range *)
| TypeError.       (* [float] of a [complex] number *)

Inductive result (A : Type) : Type :=
| Ok (a : A)
| Raise (e : exn).

Arguments Ok {A} a.
Arguments Raise {A} e.

Definition rbind {A B} (m : result A) (k : A -> result B) : result B :=
  match m with
  | Ok a => k a
  | Raise e => Raise e
  end.

Definition assert (b : bool) : result unit :=
  if b then Ok tt else Raise AssertionError.

(** Keeps the equation of a scrutinee in scope of its branches. *)
Definition inspect {A} (a : A) : {b : A | a = b} := exist _ a eq_refl.

Declare Scope result_scope.
Delimit Scope result_scope with result.
Notation "x <- m ;; k" := (rbind m (fun x => k))
  (at level 61, m at next level, right associativity) : result_scope.
Notation "m ;; k" := (rbind m (fun _ => k))
  (at level 61, right associativity) : result_scope.

(* ===================================================================== *)
(** * Complex numbers (Python [complex], numpy [complex128]) *)
(* ===================================================================== *)

Definition C : Type := (R * R)%type.

Definition RtoC (x : R) : C := (x, 0%R).

Definition C0 : C := RtoC 0.

Definition C1 : C := RtoC 1.

Definition Ci : C := (0%R, 1%R).

Definition Re (c : C) : R := fst c.

Definition Im (c : C) : R := snd c.

Definition Cplus (a b : C) : C := (fst a + fst b, snd a + snd b)%R.

Definition Cmult (a b : C) : C :=
  (fst a * fst b - snd a * snd b, fst a * snd b + snd a * fst b)%R.
(** [abs] of a complex number. *)
Definition Cabs (a : C) : R := sqrt (fst a * fst a + snd a * snd a).

(* ===================================================================== *)
(** * Array operations of numpy used by the source *)
(* ===================================================================== *)

Definition vector (A : Type) := list A.

Definition matrix (A : Type) := list (list A).

Section Arrays.
Local Open Scope R_scope.

(** [gate.shape == (r, c)] for a 2-D array. *)
Definition has_shape {A} (g : matrix A) (r c : nat) : bool :=
  Nat.eqb (length g) r && forallb (fun row => Nat.eqb (length row) c) g.

(** Whether the rows of a nested sequence all have one length, as the rows
    of an array do. *)
Definition rectangular {A} (g : list (list A)) : bool :=
  match g with
  | [] => true
  | row :: rows => forallb (fun r => Nat.eqb (length r) (length row)) rows
  end.

(** [np.kron] of two 1-D complex arrays. *)
Definition kronv (a b : vector C) : vector C :=
  flat_map (fun x => map (Cmult x) b) a.

(** [np.kron] of two 2-D float arrays: block [(i, j)] is [A[i][j] * B]. *)
Definition kron (A B : matrix R) : matrix R :=
  flat_map (fun ra => map (fun rb => flat_map (fun a => map (Rmult a) rb) ra) B) A.

(** One entry of [gate @ state]: a float row against a complex vector;
    numpy promotes the float to complex before multiplying. *)
Fixpoint cdot (row : vector R) (v : vector C) : C :=
  match row, v with
  | g :: row', s :: v' => Cplus (Cmult (RtoC g) s) (cdot row' v')
  | _, _ => C0
  end.

(** The product of a 2-D float array with a 1-D complex array. *)
Definition matvec (g : matrix R) (v : vector C) : vector C :=
  map (fun row => cdot row v) g.

(** [gate @ state]: numpy raises [ValueError] unless every row of the gate
    is as long as the state. *)
Definition matmul_vec (g : matrix R) (v : vector C) : result (vector C) :=
  if forallb (fun row => Nat.eqb (length row) (length v)) g
  then Ok (matvec g v)
  else Raise ValueError.

(** [np.asarray(gate, float)] on a complex array: the cast discards the
    imaginary parts (numpy only warns). *)
Definition asarray_float (g : matrix C) : matrix R := map (map Re) g.

(** [np.eye(p)], [np.ones((p, p))] and [np.zeros(p, complex)]. *)
Definition eye (p : nat) : matrix R :=
  map (fun i => map (fun j => if Nat.eqb i j then 1 else 0) (seq 0 p)) (seq 0 p).

Definition ones (p : nat) : matrix R := repeat (repeat 1 p) p.

Definition czeros (p : nat) : vector C := repeat C0 p.

(** [a[i] = x] on a 1-D array. *)
Fixpoint setitem {A} (a : list A) (i : nat) (x : A) : result (list A) :=
  match a, i with
  | [], _ => Raise IndexError
  | _ :: t, O => Ok (x :: t)
  | y :: t, S i' =>
      match setitem t i' x with
      | Ok t' => Ok (y :: t')
      | Raise e => Raise e
      end
  end.

(** [np.allclose(a, b)] for two finite scalars, default tolerances
    [rtol = 1e-05], [atol = 1e-08]: [|a - b| <= atol + rtol * |b|]. *)
Definition rtol : R := 1 / 100000.

Definition atol : R := 1 / 100000000.

Definition allclose (a b : R) : bool :=
  if Rle_dec (Rabs (a - b)) (atol + rtol * Rabs b) then true else false.

(** [a.argmax()]: the first index of a maximal entry. *)
Fixpoint argmax_from (best_i : nat) (best : R) (i : nat) (a : vector R) : nat :=
  match a with
  | [] => best_i
  | x :: t =>
      if Rlt_dec best x then argmax_from i x (S i) t
      else argmax_from best_i best (S i) t
  end.

Definition argmax (a : vector R) : result nat :=
  match a with
  | [] => Raise ValueError
  | x :: t => Ok (argmax_from 0 x 1 t)
  end.

(** [np.square]. *)
Definition square (a : vector R) : vector R := map (fun x => x * x) a.
End Arrays.

(* ===================================================================== *)
(** * utils.py *)
(* ===================================================================== *)

Module Utils.
Local Open Scope R_scope.

(** [SQRT1_2 = 1 / math.sqrt(2)] *)
Definition SQRT1_2 : R := 1 / sqrt 2.

(** [log2(p)]: [n = int(math.log2(p)); assert 2 ** n == p; return n], on
    the arguments of type [int], the only ones that the package passes
    (a length or a power [2 ** n]); the annotation also admits a [float],
    which this definition does not cover.
    [math.log2] raises [ValueError] outside its domain.  On a power of two
    it is exact, so that [n] is [Z.log2 p]; on any other positive integer
    the assertion fails whatever integer the truncation gives, as it does
    here with [Z.log2 p]. *)
Definition log2 (p : Z) : result Z :=
  if (p <=? 0)%Z then Raise ValueError
  else
    let n := Z.log2 p in
    (assert (2 ^ n =? p)%Z ;; Ok n)%result.

(** [hadamard(p, dtype)] at the default [dtype = float]: the recursion is
    on [p], through [hadamard(2)] and [hadamard(p // 2)]. *)
Equations? hadamard (p : Z) : result (matrix R) by wf (Z.to_nat p) lt :=
  hadamard p with inspect (log2 p) := {
    | exist _ (Raise e) _ => Raise e
    | exist _ (Ok n) Hn with inspect (1 <? n)%Z => {
        | exist _ true Hgt with hadamard 2 => {
            | Raise e => Raise e
            | Ok h2 with hadamard (p / 2) => {
                | Raise e => Raise e
                | Ok hp => Ok (kron h2 hp) } }
        | exist _ false _ =>
            if (n =? 1)%Z
            then Ok (map (map (Rmult SQRT1_2)) [[1; 1]; [1; -1]])
            else Ok [[1]] } }.
Proof.
  all: unfold log2 in Hn; destruct (p <=? 0)%Z eqn:Hp; [discriminate|];
    apply Z.leb_gt in Hp;
    destruct (2 ^ Z.log2 p =? p)%Z eqn:Hpow; simpl in Hn; [|discriminate];
    injection Hn as <-; apply Z.ltb_lt in Hgt;
    apply Z.eqb_eq in Hpow;
    assert (Hp4 : (2 ^ 2 <= p)%Z)
      by (rewrite <- Hpow; apply Z.pow_le_mono_r; lia).
  - change (2 ^ 2)%Z with 4%Z in Hp4. lia.
  - change (2 ^ 2)%Z with 4%Z in Hp4.
    assert (p / 2 < p)%Z by (apply Z.div_lt; lia).
    assert (0 <= p / 2)%Z by (apply Z.div_pos; lia).
    lia.
Qed.

(** [phase_oracle(f, dtype)] at the default [dtype = float].  The only
    check on [f] is that every value is 0 or 1. *)
Definition phase_oracle (f : list Z) : result (matrix R) :=
  (assert (forallb (fun v => (v =? 0)%Z || (v =? 1)%Z) f) ;;
   let p := length f in
   let diagonal := map (fun v => (- 1) ^ (Z.to_nat v)) f in
   Ok (map (fun i =>
              map (fun j => if Nat.eqb i j then nth i diagonal 0 else 0) (seq 0 p))
           (seq 0 p)))%result.
End Utils.

(* ===================================================================== *)
(** * utils.py: [hadamard] over binary64 numbers *)
(* ===================================================================== *)

(** [SQRT1_2], [np.kron] and [hadamard] once more, with Python's [float]
    read as the binary64 numbers it is: every operation rounds to
    nearest. *)
Module Float64.

(** [SQRT1_2 = 1 / math.sqrt(2)]: the square root and the quotient are each
    rounded to the nearest binary64 number. *)
Definition SQRT1_2 : PrimFloat.float := PrimFloat.div PrimFloat.one (PrimFloat.sqrt PrimFloat.two).

(** [np.kron] of two 2-D float arrays: every entry is one rounded
    product. *)
Definition kron (A B : matrix PrimFloat.float) : matrix PrimFloat.float :=
  flat_map (fun ra => map (fun rb => flat_map (fun a => map (PrimFloat.mul a) rb) ra) B) A.

(** [hadamard(p, dtype)] at the default [dtype = float]. *)
Equations? hadamard (p : Z) : result (matrix PrimFloat.float) by wf (Z.to_nat p) lt :=
  hadamard p with inspect (Utils.log2 p) := {
    | exist _ (Raise e) _ => Raise e
    | exist _ (Ok n) Hn with inspect (1 <? n)%Z => {
        | exist _ true Hgt with hadamard 2 => {
            | Raise e => Raise e
            | Ok h2 with hadamard (p / 2) => {
                | Raise e => Raise e
                | Ok hp => Ok (kron h2 hp) } }
        | exist _ false _ =>
            if (n =? 1)%Z
            then Ok (map (map (PrimFloat.mul SQRT1_2))
                         [[PrimFloat.one; PrimFloat.one];
                          [PrimFloat.one; PrimFloat.opp PrimFloat.one]])
            else Ok [[PrimFloat.one]] } }.
Proof.
  all: unfold Utils.log2 in Hn; destruct (p <=? 0)%Z eqn:Hp; [discriminate|];
    apply Z.leb_gt in Hp;
    destruct (2 ^ Z.log2 p =? p)%Z eqn:Hpow; simpl in Hn; [|discriminate];
    injection Hn as <-; apply Z.ltb_lt in Hgt;
    apply Z.eqb_eq in Hpow;
    assert (Hp4 : (2 ^ 2 <= p)%Z)
      by (rewrite <- Hpow; apply Z.pow_le_mono_r; lia).
  - change (2 ^ 2)%Z with 4%Z in Hp4. lia.
  - change (2 ^ 2)%Z with 4%Z in Hp4.
    assert (p / 2 < p)%Z by (apply Z.div_lt; lia).
    assert (0 <= p / 2)%Z by (apply Z.div_pos; lia).
    lia.
Qed.
End Float64.

(* ===================================================================== *)
(** * Python built-ins on integers and strings used by the source *)
(* ===================================================================== *)

Section Builtins.
Local Open Scope string_scope.

(** [str(z)] for an [int]. *)
Definition str (z : Z) : string := DecimalString.NilZero.string_of_int (Z.to_int z).

(** [sep.join(l)] with the empty separator. *)
Definition join (l : list string) : string := String.concat EmptyString l.

(** [int(s, 2)] on a string of binary digits; anything else is rejected
    (the source only calls it on strings it has checked to be made of
    ["0"] and ["1"]). *)
Fixpoint int2_from (acc : Z) (s : string) : result Z :=
  match s with
  | EmptyString => Ok acc
  | String c s' =>
      if Ascii.eqb c "0" then int2_from (2 * acc) s'
      else if Ascii.eqb c "1" then int2_from (2 * acc + 1) s'
      else Raise ValueError
  end.

Definition int2 (s : string) : result Z :=
  match s with
  | EmptyString => Raise ValueError
  | _ => int2_from 0 s
  end.

(** [format(v, "b")] for [v >= 0]: binary digits, most significant first. *)
Fixpoint bin_pos (p : positive) (acc : string) : string :=
  match p with
  | xH => String "1" acc
  | xO q => bin_pos q (String "0" acc)
  | xI q => bin_pos q (String "1" acc)
  end.

Definition format_b (v : N) : string :=
  match v with
  | N0 => "0"
  | Npos p => bin_pos p EmptyString
  end.

Fixpoint zeros_string (k : nat) : string :=
  match k with
  | O => EmptyString
  | S k' => String "0" (zeros_string k')
  end.

(** [format(v, f"0{n}b")]: [format_b v] padded with zeros on the left to a
    width of at least [n]. *)
Definition format_0nb (n : Z) (v : N) : string :=
  let s := format_b v in
  zeros_string (Z.to_nat n - String.length s) ++ s.

(** [bin(v)] for [v >= 0]. *)
Definition bin (v : N) : string := "0b" ++ format_b v.

(** [s.count("1")] *)
Fixpoint count1 (s : string) : Z :=
  match s with
  | EmptyString => 0
  | String c s' => if Ascii.eqb c "1" then 1 + count1 s' else count1 s'
  end.

(** [int(c)] for a one-character string. *)
Definition int_of_char (c : ascii) : result Z :=
  let k := nat_of_ascii c in
  if (48 <=? k)%nat && (k <=? 57)%nat then Ok (Z.of_nat (k - 48)) else Raise ValueError.

(** [list(map(int, s))] *)
Fixpoint map_int (s : string) : result (list Z) :=
  match s with
  | EmptyString => Ok []
  | String c s' =>
      (d <- int_of_char c ;; ds <- map_int s' ;; Ok (d :: ds))%result
  end.
End Builtins.

(* ===================================================================== *)
(** * qubit.py *)
(* ===================================================================== *)

Module Qubit.
Local Open Scope R_scope.

Record t : Type := { _alpha : C; _beta : C }.

Definition alpha (self : t) : C := _alpha self.

Definition beta (self : t) : C := _beta self.

(** [Qubit.__init__(alpha, beta)], over exact reals: the underflow, the
    overflow and the rounding of the squared magnitude in binary64 are not
    modelled.  The properties below use it on the amplitudes 0 and 1 only,
    where binary64 computes the same values. *)
Definition init (alpha beta : C) : t :=
  let squared_magnitude := Cabs alpha ^ 2 + Cabs beta ^ 2 in
  if Rlt_dec 0 squared_magnitude then
    let factor := 1 / sqrt squared_magnitude in
    {| _alpha := Cmult (RtoC factor) alpha;
       _beta := Cmult (RtoC factor) beta |}
  else
    {| _alpha := RtoC Utils.SQRT1_2; _beta := RtoC Utils.SQRT1_2 |}.

(** [Qubit.__array__] *)
Definition array (self : t) : vector C := [alpha self; beta self].

Definition zero : t := init C1 C0.

Definition one : t := init C0 C1.
End Qubit.

(* ===================================================================== *)
(** * quantum_register.py *)
(* ===================================================================== *)

(** An element of the sequence given to the constructor:
    [Union[str, int, Qubit]]. *)
Inductive qubit_like : Type :=
| QQubit (q : Qubit.t)
| QInt (z : Z)
| QStr (s : string).

(** An array-like gate, as [np.asarray(gate, float)] tells them apart: a
    float array or a nested list of real numbers; a complex array; a
    nested list with [complex] numbers in it. *)
Inductive gate_like : Type :=
| FloatGate (g : matrix R)
| ComplexGate (g : matrix C)
| ComplexList (g : list (list C)).

(** [np.asarray(gate, float)].  A nested list whose rows differ in length
    has no array: numpy raises [ValueError] when it finds the shape, before
    it converts any element.  A float array or a list of real numbers is
    taken as it is.  A complex array is cast, which discards the imaginary
    parts (numpy only warns).  A [complex] element of a list is not cast but
    converted by [float], which raises [TypeError]; a list without elements
    has nothing to convert. *)
Definition gate_asarray_float (gate : gate_like) : result (matrix R) :=
  match gate with
  | FloatGate g => if rectangular g then Ok g else Raise ValueError
  | ComplexGate g => if rectangular g then Ok (asarray_float g) else Raise ValueError
  | ComplexList g =>
      if rectangular g then
        if forallb (fun row => Nat.eqb (length row) 0) g then Ok (asarray_float g)
        else Raise TypeError
      else Raise ValueError
  end.

Module QuantumRegister.
Local Open Scope R_scope.

Record t : Type := { _n : nat; _state : vector C }.

Definition n (self : t) : nat := _n self.

Definition p (self : t) : nat := 2 ^ _n self.

Definition state (self : t) : vector C := _state self.

Definition real (self : t) : vector R := map Re (state self).

Definition imag (self : t) : vector R := map Im (state self).

Definition is_Qubit (q : qubit_like) : bool :=
  match q with QQubit _ => true | _ => false end.

Definition is_int (q : qubit_like) : bool :=
  match q with QInt _ => true | _ => false end.

Definition is_str (q : qubit_like) : bool :=
  match q with QStr _ => true | _ => false end.

Definition the_Qubits (qs : list qubit_like) : list Qubit.t :=
  flat_map (fun q => match q with QQubit x => [x] | _ => [] end) qs.

Definition the_ints (qs : list qubit_like) : list Z :=
  flat_map (fun q => match q with QInt z => [z] | _ => [] end) qs.

Definition the_strs (qs : list qubit_like) : list string :=
  flat_map (fun q => match q with QStr s => [s] | _ => [] end) qs.

(** [QuantumRegister.__init__(qubits)] *)
Definition init (qubits : list qubit_like) : result t :=
  (assert (0 <? length qubits)%nat ;;
   let n := length qubits in
   state <-
     (if forallb is_Qubit qubits then
        Ok (fold_left (fun st q => kronv (Qubit.array q) st)
                      (rev (the_Qubits qubits)) [C1])
      else
        qubits' <-
          (if forallb is_int qubits then
             assert (forallb (fun z => (z =? 0)%Z || (z =? 1)%Z) (the_ints qubits)) ;;
             Ok (map (fun z => QStr (str z)) (the_ints qubits))
           else Ok qubits) ;;
        assert (forallb is_str qubits') ;;
        assert (forallb (fun s => String.eqb s "0" || String.eqb s "1")
                        (the_strs qubits')) ;;
        idx <- int2 (join (the_strs qubits')) ;;
        setitem (czeros (2 ^ n)) (Z.to_nat idx) C1) ;;
   assert (length state =? 2 ^ n)%nat ;;
   Ok {| _n := n; _state := state |})%result.

(** [apply(gate)]: the register is updated in place and returned. *)
Definition apply (self : t) (gate : gate_like) : result t :=
  (gate_array <- gate_asarray_float gate ;;
   assert (has_shape gate_array (p self) (p self)) ;;
   state <- matmul_vec gate_array (_state self) ;;
   Ok {| _n := _n self; _state := state |})%result.

(** [h()] *)
Definition h (self : t) : result t :=
  (g <- Utils.hadamard (Z.of_nat (p self)) ;; apply self (FloatGate g))%result.

(** The gate built by [r()]:
    [2 / p * np.ones((p, p), float) - np.eye(p, dtype=float)]. *)
Definition r_gate (p : nat) : matrix R :=
  map (fun rows => map (fun xy => fst xy - snd xy) (combine (fst rows) (snd rows)))
      (combine (map (map (Rmult (2 / INR p))) (ones p)) (eye p)).

(** [r()] *)
Definition r (self : t) : result t := apply self (FloatGate (r_gate (p self))).

(** [o_f(f)] *)
Definition o_f (self : t) (f : list Z) : result t :=
  (g <- Utils.phase_oracle f ;; apply self (FloatGate g))%result.
End QuantumRegister.

(* ===================================================================== *)
(** * Diagnostic output *)
(* ===================================================================== *)

(** Which [print] of a driver shows the register. *)
Inductive register_label : Type :=
| InitialRegister
| AfterHadamard
| AfterPhaseOracle
| AfterSecondHadamard
| AfterGroverOperator (i : Z).

(** One call of [print], with the values its f-string interpolates. *)
Inductive trace_line : Type :=
| PrintFunction (f : list Z)
| PrintIterations (k : Z)
| PrintQubits (qubits : list Qubit.t)
| PrintRegister (label : register_label) (qregister : QuantumRegister.t)
| PrintFoundType (found_type : string)
| PrintFoundIndex (found_index : list Z)
| PrintFoundKey (found_key : list Z).

(** A computation that prints and may raise: the lines printed so far are
    kept when an exception is raised. *)
Definition io (A : Type) : Type := (list trace_line * result A)%type.

Definition ret {A} (a : A) : io A := ([], Ok a).

Definition bind {A B} (m : io A) (k : A -> io B) : io B :=
  match m with
  | (out, Ok a) => let (out', b) := k a in (out ++ out', b)
  | (out, Raise e) => (out, Raise e)
  end.

Definition lift {A} (m : result A) : io A := ([], m).

Definition print (l : trace_line) : io unit := ([l], Ok tt).

Definition when (b : bool) (m : io unit) : io unit := if b then m else ret tt.

Declare Scope io_scope.
Delimit Scope io_scope with io.
Notation "x <- m ;; k" := (bind m (fun x => k))
  (at level 61, m at next level, right associativity) : io_scope.
Notation "m ;; k" := (bind m (fun _ => k))
  (at level 61, right associativity) : io_scope.

Definition output {A} (m : io A) : list trace_line := fst m.

Definition returned {A} (m : io A) : result A := snd m.

(* ===================================================================== *)
(** * algorithms.py *)
(* ===================================================================== *)

Module Algorithms.
Import QuantumRegister.
Local Open Scope io_scope.
Local Open Scope Z_scope.

(** [a[0]] *)
Definition first {A} (a : list A) : result A :=
  match a with
  | [] => Raise IndexError
  | x :: _ => Ok x
  end.

(** [for i in range(k): qregister.apply(o_f).r(); ...], over the list of
    the values of [i] still to come. *)
Fixpoint grover_loop (verbose : Z) (o_f : matrix R) (range : list nat)
    (qregister : QuantumRegister.t) : io QuantumRegister.t :=
  match range with
  | [] => ret qregister
  | i :: range' =>
      qregister <- lift (q <- apply qregister (FloatGate o_f) ;; r q)%result ;;
      when (1 <? verbose)
           (print (PrintRegister (AfterGroverOperator (Z.of_nat i + 1)) qregister)) ;;
      grover_loop verbose o_f range' qregister
  end.

(** [k = math.floor(np.pi * math.sqrt(2 ** n) / 4)] *)
Definition grover_iterations (n : Z) : Z :=
  Int_part (PI * sqrt (IZR (2 ^ n)) / 4).

Definition deutsch_jozsa_algorithm (f : list Z) (verbose : Z) : io string :=
  when (0 <? verbose) (print (PrintFunction f)) ;;
  let p := Z.of_nat (length f) in
  n <- lift (Utils.log2 p) ;;
  o_f <- lift (Utils.phase_oracle f) ;;
  let qubits := repeat Qubit.zero (Z.to_nat n) in
  when (1 <? verbose) (print (PrintQubits qubits)) ;;
  qregister <- lift (init (map QQubit qubits)) ;;
  when (1 <? verbose) (print (PrintRegister InitialRegister qregister)) ;;
  qregister <- lift (h qregister) ;;
  when (1 <? verbose) (print (PrintRegister AfterHadamard qregister)) ;;
  qregister <- lift (apply qregister (FloatGate o_f)) ;;
  when (1 <? verbose) (print (PrintRegister AfterPhaseOracle qregister)) ;;
  qregister <- lift (h qregister) ;;
  when (1 <? verbose) (print (PrintRegister AfterSecondHadamard qregister)) ;;
  flag <- lift (first (real qregister)) ;;
  let found_type :=
    if allclose flag 1 then "constant 0"%string
    else if allclose flag (-1) then "constant 1"%string
    else if allclose flag 0 then "balanced"%string
    else "other"%string in
  when (0 <? verbose) (print (PrintFoundType found_type)) ;;
  ret found_type.

Definition grover_algorithm (f : list Z) (verbose : Z) : io (list Z) :=
  when (0 <? verbose) (print (PrintFunction f)) ;;
  let p := Z.of_nat (length f) in
  n <- lift (Utils.log2 p) ;;
  o_f <- lift (Utils.phase_oracle f) ;;
  let k := grover_iterations n in
  when (1 <? verbose) (print (PrintIterations k)) ;;
  let qubits := repeat Qubit.zero (Z.to_nat n) in
  when (1 <? verbose) (print (PrintQubits qubits)) ;;
  qregister <- lift (init (map QQubit qubits)) ;;
  when (1 <? verbose) (print (PrintRegister InitialRegister qregister)) ;;
  qregister <- lift (h qregister) ;;
  when (1 <? verbose) (print (PrintRegister AfterHadamard qregister)) ;;
  qregister <- grover_loop verbose o_f (seq 0 (Z.to_nat k)) qregister ;;
  found_index <-
    lift (i <- argmax (square (real qregister)) ;;
          map_int (format_0nb n (N.of_nat i)))%result ;;
  when (0 <? verbose) (print (PrintFoundIndex found_index)) ;;
  ret found_index.

Definition bernstein_vazirani_algorithm (f : list Z) (verbose : Z) : io (list Z) :=
  when (0 <? verbose) (print (PrintFunction f)) ;;
  let p := Z.of_nat (length f) in
  n <- lift (Utils.log2 p) ;;
  o_f <- lift (Utils.phase_oracle f) ;;
  let qubits := repeat Qubit.zero (Z.to_nat n) in
  when (1 <? verbose) (print (PrintQubits qubits)) ;;
  qregister <- lift (init (map QQubit qubits)) ;;
  when (1 <? verbose) (print (PrintRegister InitialRegister qregister)) ;;
  qregister <- lift (h qregister) ;;
  when (1 <? verbose) (print (PrintRegister AfterHadamard qregister)) ;;
  qregister <- lift (apply qregister (FloatGate o_f)) ;;
  when (1 <? verbose) (print (PrintRegister AfterPhaseOracle qregister)) ;;
  qregister <- lift (h qregister) ;;
  when (1 <? verbose) (print (PrintRegister AfterSecondHadamard qregister)) ;;
  found_key <-
    lift (i <- argmax (real qregister) ;;
          map_int (format_0nb n (N.of_nat i)))%result ;;
  when (0 <? verbose) (print (PrintFoundKey found_key)) ;;
  ret found_key.
End Algorithms.

(* ===================================================================== *)
(** * scripts/bernstein_vazirani_algorithm.py: [encode] *)
(* ===================================================================== *)

(** [encode(key)]: the truth table of [x |-> popcount(key & x) mod 2]. *)
Definition encode (key : list Z) : result (list Z) :=
  (let n := length key in
   value <- int2 (join (map str key)) ;;
   Ok (map (fun x => count1 (bin (Z.to_N (Z.land value (Z.of_nat x)))) mod 2)%Z
           (seq 0 (2 ^ n))))%result.

(* ===================================================================== *)
(** * scripts/grover_algorithm.py: the table of an index *)
(* ===================================================================== *)

(** The table that [main] builds for the index to find:
    [f = np.zeros(2 ** n, int)], then [f[i] = 1] where [i] is [int(_, 2)] of
    the digits [map(str, index)] joined with the empty separator, and [n] is
    the length of [index]. *)
Definition marked_table (index : list Z) : result (list Z) :=
  (let n := length index in
   i <- int2 (join (map str index)) ;;
   setitem (repeat 0%Z (2 ^ n)) (Z.to_nat i) 1%Z)%result.

(* ===================================================================== *)
(** * Notions used to state and prove the properties *)
(* ===================================================================== *)

Section VectorNotions.
Local Open Scope R_scope.

(** The dot product of two real vectors and the product of a real matrix
    with a real vector: what [cdot] and [matvec] compute on real states. *)
Fixpoint rdot (row v : vector R) : R :=
  match row, v with
  | g :: row', s :: v' => g * s + rdot row' v'
  | _, _ => 0
  end.

Definition rmatvec (g : matrix R) (v : vector R) : vector R :=
  map (fun row => rdot row v) g.

(** [A @ B] for two 2-D float arrays, [B] with [c] columns. *)
Definition column (j : nat) (B : matrix R) : vector R := map (fun row => nth j row 0) B.

Definition matmul (A B : matrix R) (c : nat) : matrix R :=
  map (fun row => map (fun j => rdot row (column j B)) (seq 0 c)) A.

(** Shape of a 2-D array, as a proposition. *)
Definition shaped {A} (g : matrix A) (r c : nat) : Prop :=
  length g = r /\ Forall (fun row => length row = c) g.

(** A state without imaginary parts. *)
Definition is_real (v : vector C) : Prop := Forall (fun c => Im c = 0) v.

(** The basis vector of length [p] with a one at index [i]. *)
Definition onehot (p i : nat) : vector R :=
  map (fun j => if Nat.eqb i j then 1 else 0) (seq 0 p).

(** The vector of length [p] with [x] at index [m] and [y] elsewhere. *)
Definition peak (p m : nat) (x y : R) : vector R :=
  map (fun j => if Nat.eqb m j then x else y) (seq 0 p).

(** The 2x2 Hadamard matrix as the source builds it, and the value of
    [hadamard (2 ^ n)]. *)
Definition H2 : matrix R := map (map (Rmult Utils.SQRT1_2)) [[1; 1]; [1; -1]].

Fixpoint had (n : nat) : matrix R :=
  match n with
  | O => [[1]]
  | S O => H2
  | S m => kron H2 (had m)
  end.

(** The truth-table sign [(-1) ^ v] that the phase oracle puts on the
    diagonal. *)
Definition sign (v : Z) : R := (- 1) ^ Z.to_nat v.

(** The matrix that [phase_oracle] returns on a binary table. *)
Definition oracle_matrix (f : list Z) : matrix R :=
  map (fun i => map (fun j => if Nat.eqb i j then sign (nth i f 0%Z) else 0)
                    (seq 0 (length f)))
      (seq 0 (length f)).

(** The state after Hadamard, phase oracle, Hadamard. *)
Definition hoh_state (n : nat) (f : list Z) : vector R :=
  rmatvec (had n) (rmatvec (oracle_matrix f) (rmatvec (had n) (onehot (2 ^ n) 0))).

(** The sum of the signs of a truth table. *)
Definition signsum (f : list Z) : R := fold_right Rplus 0 (map sign f).

(** One Grover operator (oracle, then diffusion) on the amplitude [a] of the
    marked index and the amplitude [b] of every other index. *)
Definition grover_step (p : nat) (ab : R * R) : R * R :=
  let mu := (2 / INR p * (- fst ab + (INR p - 1) * snd ab))%R in
  ((mu + fst ab)%R, (mu - snd ab)%R).
End VectorNotions.

(** The standard product of a complex matrix with a complex vector. *)
Fixpoint cdotC (row v : vector C) : C :=
  match row, v with
  | g :: row', s :: v' => Cplus (Cmult g s) (cdotC row' v')
  | _, _ => C0
  end.

Definition cmatvec (g : matrix C) (v : vector C) : vector C :=
  map (fun row => cdotC row v) g.

(** The gate as it is supplied, with its complex entries. *)
Definition gate_entries (gate : gate_like) : matrix C :=
  match gate with
  | FloatGate g => map (map RtoC) g
  | ComplexGate g => g
  | ComplexList g => g
  end.

(* ===================================================================== *)
(** * Truth tables and binary numerals *)
(* ===================================================================== *)

(** A sequence of zeros and ones. *)
Definition binary (bits : list Z) : Prop := Forall (fun b => b = 0%Z \/ b = 1%Z) bits.

(** Reading a sequence of bits as a binary integer, most significant first. *)
Definition bits_value (bits : list Z) : Z :=
  fold_left (fun acc b => 2 * acc + b)%Z bits 0%Z.

(** The number of entries of a truth table equal to [v]. *)
Definition count_of (v : Z) (f : list Z) : nat := count_occ Z.eq_dec f v.

(** A truth table with a single one, at index [m]. *)
Definition marks (f : list Z) (m : nat) : Prop :=
  (m < length f)%nat /\
  forall j, (j < length f)%nat -> nth j f 0%Z = if Nat.eqb j m then 1%Z else 0%Z.

(** The binary digits of a positive number, most significant first. *)
Fixpoint pos_bits (p : positive) : list Z :=
  match p with
  | xH => [1%Z]
  | xO q => pos_bits q ++ [0%Z]
  | xI q => pos_bits q ++ [1%Z]
  end.

Definition nbits (v : N) : list Z :=
  match v with
  | N0 => [0%Z]
  | Npos p => pos_bits p
  end.

(** The digits of [v], padded with zeros on the left to [n] digits. *)
Definition padded (n : nat) (v : N) : list Z :=
  repeat 0%Z (n - length (nbits v)) ++ nbits v.

(** [bin(z).count("1")] *)
Definition popcount (z : Z) : Z := count1 (bin (Z.to_N z)).

(** The number of ones among the binary digits of a positive number. *)
Fixpoint pos_ones (p : positive) : Z :=
  match p with
  | xH => 1
  | xO q => pos_ones q
  | xI q => 1 + pos_ones q
  end.

(** The truth table of [x |-> key . x mod 2], built from the most significant
    bit of the key down. *)
Fixpoint dot_table (key : list Z) : list Z :=
  match key with
  | [] => [0%Z]
  | b :: key' => dot_table key' ++ map (fun t => (t + b) mod 2)%Z (dot_table key')
  end.

(** The same step on numerators, the common denominator being multiplied
    by [p] at each step. *)
Definition grover_step_Z (p : Z) (xy : Z * Z) : Z * Z :=
  (((p - 2) * fst xy + 2 * (p - 1) * snd xy)%Z,
   (- 2 * fst xy + (p - 2) * snd xy)%Z).

Fixpoint grover_iter_Z (p : Z) (k : nat) : Z * Z :=
  match k with
  | O => (1%Z, 1%Z)
  | S k' => grover_step_Z p (grover_iter_Z p k')
  end.

(* ===================================================================== *)
(** * Basis symbols, real registers and traces *)
(* ===================================================================== *)

(** The bit that a basis symbol stands for. *)
Definition symbol_bit (q : qubit_like) : Z :=
  match q with
  | QInt z => z
  | QStr s => if String.eqb s "1" then 1%Z else 0%Z
  | QQubit _ => 0%Z
  end.

(** Sequences of integer symbols and of string symbols. *)
Definition int_symbols (qs : list qubit_like) : Prop :=
  Forall (fun q => q = QInt 0 \/ q = QInt 1) qs.

Definition str_symbols (qs : list qubit_like) : Prop :=
  Forall (fun q => q = QStr "0" \/ q = QStr "1") qs.

(** A symbol that is neither 0 nor 1. *)
Definition other_symbol (q : qubit_like) : Prop :=
  match q with
  | QInt z => z <> 0%Z /\ z <> 1%Z
  | QStr s => s <> "0"%string /\ s <> "1"%string
  | QQubit _ => False
  end.

(** A register whose state has no imaginary part. *)
Definition real_register (reg : QuantumRegister.t) : Prop :=
  is_real (QuantumRegister.state reg).

(** A trace line that shows only real registers. *)
Definition real_line (l : trace_line) : Prop :=
  match l with
  | PrintRegister _ reg => real_register reg
  | _ => True
  end.

(** A computation that prints only real registers and whose value, if it
    returns one, satisfies [P]. *)
Definition io_real {A} (P : A -> Prop) (m : io A) : Prop :=
  Forall real_line (output m) /\ forall a, returned m = Ok a -> P a.

(** The labels of the registers that a run prints, in order. *)
Definition register_labels (out : list trace_line) : list register_label :=
  flat_map (fun l => match l with PrintRegister label _ => [label] | _ => [] end) out.

(* ===================================================================== *)
(** * The circuit and the readout of each driver *)
(* ===================================================================== *)

Section Circuits.
Import QuantumRegister Algorithms.
Local Open Scope io_scope.
Local Open Scope Z_scope.

(** The statements of [deutsch_jozsa_algorithm] and of
    [bernstein_vazirani_algorithm] before the result is read (they are the
    same): the register is built and taken through Hadamard, phase oracle,
    Hadamard.  The value is [n] and the register. *)
Definition hadamard_oracle_hadamard (f : list Z) (verbose : Z)
  : io (Z * QuantumRegister.t) :=
  when (0 <? verbose) (print (PrintFunction f)) ;;
  let p := Z.of_nat (length f) in
  n <- lift (Utils.log2 p) ;;
  o_f <- lift (Utils.phase_oracle f) ;;
  let qubits := repeat Qubit.zero (Z.to_nat n) in
  when (1 <? verbose) (print (PrintQubits qubits)) ;;
  qregister <- lift (init (map QQubit qubits)) ;;
  when (1 <? verbose) (print (PrintRegister InitialRegister qregister)) ;;
  qregister <- lift (h qregister) ;;
  when (1 <? verbose) (print (PrintRegister AfterHadamard qregister)) ;;
  qregister <- lift (apply qregister (FloatGate o_f)) ;;
  when (1 <? verbose) (print (PrintRegister AfterPhaseOracle qregister)) ;;
  qregister <- lift (h qregister) ;;
  when (1 <? verbose) (print (PrintRegister AfterSecondHadamard qregister)) ;;
  ret (n, qregister).

(** The statements of [grover_algorithm] before the result is read. *)
Definition grover_circuit (f : list Z) (verbose : Z)
  : io (Z * QuantumRegister.t) :=
  when (0 <? verbose) (print (PrintFunction f)) ;;
  let p := Z.of_nat (length f) in
  n <- lift (Utils.log2 p) ;;
  o_f <- lift (Utils.phase_oracle f) ;;
  let k := grover_iterations n in
  when (1 <? verbose) (print (PrintIterations k)) ;;
  let qubits := repeat Qubit.zero (Z.to_nat n) in
  when (1 <? verbose) (print (PrintQubits qubits)) ;;
  qregister <- lift (init (map QQubit qubits)) ;;
  when (1 <? verbose) (print (PrintRegister InitialRegister qregister)) ;;
  qregister <- lift (h qregister) ;;
  when (1 <? verbose) (print (PrintRegister AfterHadamard qregister)) ;;
  qregister <- grover_loop verbose o_f (seq 0 (Z.to_nat k)) qregister ;;
  ret (n, qregister).

(** What each driver does with [n] and the register once the circuit has
    run. *)
Definition deutsch_jozsa_readout (verbose : Z) (nq : Z * QuantumRegister.t) : io string :=
  let qregister := snd nq in
  flag <- lift (first (real qregister)) ;;
  let found_type :=
    if allclose flag 1 then "constant 0"%string
    else if allclose flag (-1) then "constant 1"%string
    else if allclose flag 0 then "balanced"%string
    else "other"%string in
  when (0 <? verbose) (print (PrintFoundType found_type)) ;;
  ret found_type.

Definition grover_readout (verbose : Z) (nq : Z * QuantumRegister.t) : io (list Z) :=
  let n := fst nq in
  let qregister := snd nq in
  found_index <-
    lift (i <- argmax (square (real qregister)) ;;
          map_int (format_0nb n (N.of_nat i)))%result ;;
  when (0 <? verbose) (print (PrintFoundIndex found_index)) ;;
  ret found_index.

Definition bernstein_vazirani_readout (verbose : Z) (nq : Z * QuantumRegister.t)
  : io (list Z) :=
  let n := fst nq in
  let qregister := snd nq in
  found_key <-
    lift (i <- argmax (real qregister) ;;
          map_int (format_0nb n (N.of_nat i)))%result ;;
  when (0 <? verbose) (print (PrintFoundKey found_key)) ;;
  ret found_key.
End Circuits.

(* ===================================================================== *)
(** * Well-formed registers and accepted tables *)
(* ===================================================================== *)

(** A register whose state has as many entries as it has basis states. *)
Definition well_formed (reg : QuantumRegister.t) : Prop :=
  length (QuantumRegister.state reg) = QuantumRegister.p reg.

(** A truth table that the drivers accept: zeros and ones, [2 ^ n] of them
    for some [n >= 1]. *)
Definition valid_table (f : list Z) : Prop :=
  binary f /\ exists n, (1 <= n)%nat /\ length f = (2 ^ n)%nat.

(** The qubit of a basis symbol: [zero] for 0, [one] otherwise. *)
Definition basis_qubit (b : Z) : Qubit.t :=
  if (b =? 0)%Z then Qubit.zero else Qubit.one.

(** [s1 * x1 + s2 * x2 + ... + sn * xn] *)
Fixpoint bits_dot (key xs : list Z) : Z :=
  match key, xs with
  | s :: key', x :: xs' => (s * x + bits_dot key' xs')%Z
  | _, _ => 0%Z
  end.

(** One Grover operator on a real state: the phase oracle of [f], then the
    diffusion gate. *)
Definition grover_operator (f : list Z) (v : vector R) : vector R :=
  rmatvec (QuantumRegister.r_gate (length f)) (rmatvec (oracle_matrix f) v).

(* ===================================================================== *)
(** * Binary64 numbers and the Hadamard matrices over them *)
(* ===================================================================== *)

(** The real number that a binary64 value stands for; an infinity or a NaN
    stands for none, and [finite] excludes them. *)
Definition finite (x : PrimFloat.float) : Prop :=
  match FloatOps.Prim2SF x with
  | SpecFloat.S754_finite _ _ _ | SpecFloat.S754_zero _ => True
  | _ => False
  end.

Definition F2R (x : PrimFloat.float) : R :=
  match FloatOps.Prim2SF x with
  | SpecFloat.S754_finite s m e => ((if s then -1 else 1) * IZR (Zpos m) * powerRZ 2 e)%R
  | _ => 0%R
  end.

(** The recursion of the specification over binary64 numbers:
    [H(1) = [[1]]], [H(2) = SQRT1_2 * [[1, 1], [1, -1]]] and
    [H(2 p) = kron(H(2), H(p))], every product rounded. *)
Definition H2_b64 : matrix PrimFloat.float :=
  map (map (PrimFloat.mul Float64.SQRT1_2))
      [[PrimFloat.one; PrimFloat.one]; [PrimFloat.one; PrimFloat.opp PrimFloat.one]].

Fixpoint had_b64 (n : nat) : matrix PrimFloat.float :=
  match n with
  | O => [[PrimFloat.one]]
  | S O => H2_b64
  | S m => Float64.kron H2_b64 (had_b64 m)
  end.

(** The magnitude of the entries of [hadamard (2 ^ n)] in binary64. *)
Fixpoint entry_b64 (n : nat) : PrimFloat.float :=
  match n with
  | O => PrimFloat.one
  | S O => PrimFloat.mul Float64.SQRT1_2 PrimFloat.one
  | S m => PrimFloat.mul (PrimFloat.mul Float64.SQRT1_2 PrimFloat.one) (entry_b64 m)
  end.

(** The signs of the entries of the Hadamard matrix: [true] for minus. *)
Definition kron_signs (A B : matrix bool) : matrix bool :=
  flat_map (fun ra => map (fun rb => flat_map (fun a => map (xorb a) rb) ra) B) A.

Fixpoint signs (n : nat) : matrix bool :=
  match n with
  | O => [[false]]
  | S O => [[false; false]; [false; true]]
  | S m => kron_signs [[false; false]; [false; true]] (signs m)
  end.

Definition signed_b64 (c : PrimFloat.float) (b : bool) : PrimFloat.float :=
  if b then PrimFloat.opp c else c.

Definition signed (c : R) (b : bool) : R := if b then (- c)%R else c.

(** The tolerance to which the binary64 Hadamard matrices are
    self-inverse. *)
Definition hadamard_tol : R := (1 / 10 ^ 13)%R.

(** What is checked by computation on the entry of [hadamard (2 ^ n)]:
    the rounded products of signed entries are signed entries, the entry is
    a positive finite number [m * 2 ^ e], and [(m * 2 ^ e) ^ 2 * 2 ^ n] is
    within [1 / 10 ^ 13] of 1. *)
Definition tol_check (m : positive) (e : Z) (n : nat) : bool :=
  let E := (- (2 * e + Z.of_nat n))%Z in
  (0 <=? E)%Z && (Z.abs (Zpos m * Zpos m - 2 ^ E) * 10 ^ 13 <=? 2 ^ E)%Z.

Definition entry_facts (n : nat) : Prop :=
  (forall a b : bool,
     PrimFloat.mul (signed_b64 (entry_b64 1) a) (signed_b64 (entry_b64 n) b) =
     signed_b64 (PrimFloat.mul (entry_b64 1) (entry_b64 n)) (xorb a b)) /\
  exists m e,
    FloatOps.Prim2SF (entry_b64 n) = SpecFloat.S754_finite false m e /\
    FloatOps.Prim2SF (PrimFloat.opp (entry_b64 n)) = SpecFloat.S754_finite true m e /\
    tol_check m e n = true.

(* ===================================================================== *)
(** * Properties *)
(* ===================================================================== *)

Create Rewrite HintDb io.

(* ===================================================================== *)
(** * Real-valued linear algebra used in the proofs *)
(* ===================================================================== *)

Section RealVectors.
Local Open Scope R_scope.

Lemma C_eq (a b : C) : fst a = fst b -> snd a = snd b -> a = b.
Proof. destruct a, b; simpl; intros; subst; reflexivity. Qed.

Lemma cdot_real row v : cdot row (map RtoC v) = RtoC (rdot row v).
Proof.
  revert v; induction row as [|g row IH]; intros [|s v]; simpl; try reflexivity.
  rewrite IH. apply C_eq; simpl; ring.
Qed.

Lemma matvec_real g v : matvec g (map RtoC v) = map RtoC (rmatvec g v).
Proof.
  unfold matvec, rmatvec. rewrite map_map.
  apply map_ext; intros row; apply cdot_real.
Qed.

Lemma is_real_RtoC v : is_real (map RtoC v).
Proof. induction v; constructor; auto. Qed.

Lemma is_real_inv v : is_real v -> v = map RtoC (map Re v).
Proof.
  induction 1 as [|[x y] v Hx _ IH]; simpl; [reflexivity|].
  simpl in Hx; subst y. f_equal; exact IH.
Qed.

Lemma map_Re_RtoC v : map Re (map RtoC v) = v.
Proof. rewrite map_map; simpl. apply map_id. Qed.

Lemma rmatvec_length (g : matrix R) (v : vector R) : length (rmatvec g v) = length g.
Proof. apply length_map. Qed.

Lemma rdot_nil_r row : rdot row [] = 0.
Proof. destruct row; reflexivity. Qed.

Lemma rdot_app a b v w :
  length a = length v -> rdot (a ++ b) (v ++ w) = rdot a v + rdot b w.
Proof.
  revert v; induction a as [|x a IH]; intros [|y v] H; simpl in *; try discriminate.
  - ring.
  - rewrite IH by lia. ring.
Qed.

Lemma rdot_scale_l c a v : rdot (map (Rmult c) a) v = c * rdot a v.
Proof.
  revert v; induction a as [|x a IH]; intros [|y v]; simpl; try ring.
  rewrite IH; ring.
Qed.

Lemma rdot_scale_r c a v : rdot a (map (Rmult c) v) = c * rdot a v.
Proof.
  revert v; induction a as [|x a IH]; intros [|y v]; simpl; try ring.
  rewrite IH; ring.
Qed.

Lemma rdot_repeat_0_r a k : rdot a (repeat 0 k) = 0.
Proof.
  revert k; induction a as [|x a IH]; intros [|k]; simpl; try reflexivity.
  rewrite IH; ring.
Qed.

Lemma rdot_repeat_0_l v k : rdot (repeat 0 k) v = 0.
Proof.
  revert k; induction v as [|x v IH]; intros [|k]; simpl; try reflexivity.
  rewrite IH; ring.
Qed.
End RealVectors.

(* ===================================================================== *)
(** * Facts about [utils.py] *)
(* ===================================================================== *)

Section UtilsFacts.
Import Utils.
Local Open Scope R_scope.

Lemma log2_pow2 (n : nat) : log2 (2 ^ Z.of_nat n) = Ok (Z.of_nat n).
Proof.
  unfold log2.
  assert (0 < 2 ^ Z.of_nat n)%Z by (apply Z.pow_pos_nonneg; lia).
  destruct (Z.leb_spec (2 ^ Z.of_nat n) 0); [lia|].
  rewrite Z.log2_pow2 by lia.
  rewrite Z.eqb_refl. reflexivity.
Qed.

Lemma log2_Ok p n : log2 p = Ok n -> (0 <= n)%Z /\ p = (2 ^ n)%Z.
Proof.
  unfold log2. destruct (Z.leb_spec p 0); [discriminate|].
  destruct (Z.eqb_spec (2 ^ Z.log2 p) p) as [E|]; simpl; [|discriminate].
  intros [= <-]. split; [apply Z.log2_nonneg | congruence].
Qed.

Lemma hadamard_unfold_plain (p : Z) :
  hadamard p =
  match log2 p with
  | Raise e => Raise e
  | Ok n =>
      if (1 <? n)%Z then
        (h2 <- hadamard 2 ;; hp <- hadamard (p / 2) ;; Ok (kron h2 hp))%result
      else if (n =? 1)%Z then Ok H2 else Ok [[1]]
  end.
Proof.
  rewrite hadamard_equation_1. unfold inspect.
  assert (G : forall (r : result Z) (E : log2 p = r),
    hadamard_unfold_clause_1 p (exist _ r E) =
    match r with
    | Raise e => Raise e
    | Ok n =>
        if (1 <? n)%Z then
          (h2 <- hadamard 2 ;; hp <- hadamard (p / 2) ;; Ok (kron h2 hp))%result
        else if (n =? 1)%Z then Ok H2 else Ok [[1]]
    end).
  { intros [n|e] E;
      [rewrite hadamard_clause_1_equation_1
      |rewrite hadamard_clause_1_equation_2; reflexivity].
    unfold inspect.
    assert (G : forall (b : bool) (Eb : (1 <? n)%Z = b),
      hadamard_unfold_clause_1_clause_2 p (exist _ b Eb) E =
      if b then
        (h2 <- hadamard 2 ;; hp <- hadamard (p / 2) ;; Ok (kron h2 hp))%result
      else if (n =? 1)%Z then Ok H2 else Ok [[1]]).
    { remember (hadamard 2) as r2 eqn:E2.
      remember (hadamard (p / 2)) as rp eqn:Ep.
      intros [|] Eb; [|rewrite hadamard_clause_1_clause_2_equation_2; reflexivity].
      rewrite hadamard_clause_1_clause_2_equation_1.
      rewrite <- E2.
      destruct r2 as [h2|e];
        [rewrite hadamard_clause_1_clause_2_clause_1_equation_1
        |rewrite hadamard_clause_1_clause_2_clause_1_equation_2; reflexivity].
      rewrite <- Ep.
      destruct rp as [hp|e];
        [rewrite hadamard_clause_1_clause_2_clause_1_clause_2_equation_1
        |rewrite hadamard_clause_1_clause_2_clause_1_clause_2_equation_2];
        reflexivity. }
    apply G. }
  apply G.
Qed.

Lemma hadamard_2 : hadamard 2 = Ok H2.
Proof. rewrite hadamard_unfold_plain. reflexivity. Qed.

Lemma hadamard_pow2 (n : nat) : hadamard (2 ^ Z.of_nat n) = Ok (had n).
Proof.
  induction n as [|n IH].
  - rewrite hadamard_unfold_plain. reflexivity.
  - destruct n as [|n]; [exact hadamard_2|].
    rewrite hadamard_unfold_plain, log2_pow2.
    destruct (Z.ltb_spec 1 (Z.of_nat (S (S n)))); [|lia].
    rewrite hadamard_2.
    replace (2 ^ Z.of_nat (S (S n)) / 2)%Z with (2 ^ Z.of_nat (S n))%Z.
    + rewrite IH. reflexivity.
    + rewrite (Nat2Z.inj_succ (S n)), Z.pow_succ_r by lia.
      rewrite Z.mul_comm, Z.div_mul by lia. reflexivity.
Qed.

(** [hadamard] fails on every [p] that is not a power of two. *)
Lemma hadamard_Ok p g : hadamard p = Ok g -> exists n, p = (2 ^ Z.of_nat n)%Z.
Proof.
  rewrite hadamard_unfold_plain. destruct (log2 p) as [n|e] eqn:E; [|discriminate].
  intros _. apply log2_Ok in E as [Hn ->]. exists (Z.to_nat n).
  rewrite Z2Nat.id by lia. reflexivity.
Qed.

Lemma SQRT1_2_pos : 0 < SQRT1_2.
Proof.
  unfold SQRT1_2. apply Rdiv_lt_0_compat; [lra|]. apply sqrt_lt_R0; lra.
Qed.

Lemma SQRT1_2_sqr : SQRT1_2 * SQRT1_2 = 1 / 2.
Proof.
  unfold SQRT1_2.
  assert (H : sqrt 2 * sqrt 2 = 2) by (apply sqrt_sqrt; lra).
  assert (0 < sqrt 2) by (apply sqrt_lt_R0; lra).
  replace (1 / sqrt 2 * (1 / sqrt 2)) with (1 / (sqrt 2 * sqrt 2)) by (field; lra).
  rewrite H. reflexivity.
Qed.

Lemma kron_H2 (B : matrix R) :
  kron H2 B =
  map (fun rb => map (Rmult SQRT1_2) rb ++ map (Rmult SQRT1_2) rb) B ++
  map (fun rb => map (Rmult SQRT1_2) rb ++ map (Rmult (- SQRT1_2)) rb) B.
Proof.
  unfold kron, H2; simpl. rewrite app_nil_r. f_equal.
  - apply map_ext; intros rb. rewrite app_nil_r.
    f_equal; apply map_ext; intros x; ring.
  - apply map_ext; intros rb. rewrite app_nil_r.
    f_equal; apply map_ext; intros x; ring.
Qed.

Lemma had_S (n : nat) : had (S n) = kron H2 (had n).
Proof.
  destruct n as [|n]; [|reflexivity].
  rewrite kron_H2. simpl. unfold H2. simpl.
  repeat (f_equal; try ring).
Qed.

Lemma has_shape_iff (g : matrix R) r c : has_shape g r c = true <-> shaped g r c.
Proof.
  unfold has_shape, shaped. rewrite andb_true_iff, Nat.eqb_eq, forallb_forall, Forall_forall.
  split; intros [H1 H2]; split; auto; intros x Hx; apply Nat.eqb_eq; auto.
Qed.

Lemma shaped_rectangular {A} (g : matrix A) r c : shaped g r c -> rectangular g = true.
Proof.
  intros [_ H]. destruct g as [|row rows]; [reflexivity|]. cbn [rectangular].
  inversion H as [|? ? Hrow Hrows]; subst.
  apply forallb_forall. intros x Hx. apply Nat.eqb_eq.
  rewrite Forall_forall in Hrows. exact (Hrows x Hx).
Qed.

(** A float array of some shape is its own coercion. *)
Lemma asarray_float_shaped (g : matrix R) r c :
  shaped g r c -> gate_asarray_float (FloatGate g) = Ok g.
Proof. intros H. cbn [gate_asarray_float]. rewrite (shaped_rectangular H). reflexivity. Qed.

Lemma had_shape (n : nat) : shaped (had n) (2 ^ n) (2 ^ n).
Proof.
  induction n as [|n [IH1 IH2]].
  - split; [reflexivity|]. repeat constructor.
  - rewrite had_S, kron_H2. split.
    + rewrite length_app, !length_map, IH1. simpl; lia.
    + apply Forall_app; split; apply Forall_forall; intros row Hrow;
        apply in_map_iff in Hrow as [rb [<- Hrb]];
        rewrite Forall_forall in IH2; specialize (IH2 _ Hrb);
        rewrite length_app, !length_map, IH2; simpl; lia.
Qed.

Lemma rmatvec_kron_H2 (B : matrix R) (v0 v1 : vector R) :
  Forall (fun row => length row = length v0) B ->
  rmatvec (kron H2 B) (v0 ++ v1) =
  map (fun rb => SQRT1_2 * rdot rb v0 + SQRT1_2 * rdot rb v1) B ++
  map (fun rb => SQRT1_2 * rdot rb v0 - SQRT1_2 * rdot rb v1) B.
Proof.
  intros HB. rewrite kron_H2. unfold rmatvec. rewrite map_app, !map_map.
  f_equal; apply map_ext_in; intros rb Hrb;
    rewrite Forall_forall in HB; specialize (HB _ Hrb);
    rewrite rdot_app by (rewrite length_map; exact HB);
    rewrite !rdot_scale_l; ring.
Qed.

(** Every entry of [had n] is [SQRT1_2 ^ n] up to sign. *)
Lemma had_entries (n : nat) :
  Forall (Forall (fun x => Rabs x = SQRT1_2 ^ n)) (had n).
Proof.
  induction n as [|n IH].
  - repeat constructor. simpl. apply Rabs_R1.
  - rewrite had_S, kron_H2.
    assert (Hs := SQRT1_2_pos).
    assert (E1 : forall x, Rabs x = SQRT1_2 ^ n -> Rabs (SQRT1_2 * x) = SQRT1_2 ^ S n).
    { intros x Hx. rewrite Rabs_mult, Hx, Rabs_pos_eq by lra. reflexivity. }
    assert (E2 : forall x, Rabs x = SQRT1_2 ^ n -> Rabs (- SQRT1_2 * x) = SQRT1_2 ^ S n).
    { intros x Hx. rewrite Rabs_mult, Rabs_Ropp, Hx, Rabs_pos_eq by lra. reflexivity. }
    rewrite Forall_forall in IH.
    apply Forall_app; split; apply Forall_forall; intros row Hrow;
      apply in_map_iff in Hrow as [rb [<- Hrb]];
      specialize (IH _ Hrb); rewrite Forall_forall in IH;
      apply Forall_app; split; apply Forall_forall; intros x Hx;
      apply in_map_iff in Hx as [y [<- Hy]]; auto.
Qed.

Lemma sqrt_pow_nat (x : R) (n : nat) : 0 <= x -> sqrt (x ^ n) = sqrt x ^ n.
Proof.
  intros Hx. induction n as [|n IH]; simpl.
  - apply sqrt_1.
  - rewrite sqrt_mult, IH; auto. apply pow_le; exact Hx.
Qed.

Lemma SQRT1_2_pow (n : nat) : SQRT1_2 ^ n = 1 / sqrt (2 ^ n).
Proof.
  unfold SQRT1_2. rewrite sqrt_pow_nat by lra.
  unfold Rdiv. rewrite !Rmult_1_l. apply pow_inv.
Qed.

Lemma SQRT1_2_pow_sqr (n : nat) : SQRT1_2 ^ n * SQRT1_2 ^ n = / 2 ^ n.
Proof.
  rewrite <- Rpow_mult_distr, SQRT1_2_sqr.
  unfold Rdiv. rewrite Rmult_1_l. apply pow_inv.
Qed.
End UtilsFacts.

(* ===================================================================== *)
(** * Tabulated vectors *)
(* ===================================================================== *)

Section Tabulate.
Local Open Scope R_scope.

Lemma map_seq_ext {A} (F G : nat -> A) a k :
  (forall i, (a <= i < a + k)%nat -> F i = G i) -> map F (seq a k) = map G (seq a k).
Proof.
  intros H. apply map_ext_in. intros i Hi. apply in_seq in Hi. apply H; lia.
Qed.

Lemma map_seq_shift {A} (F : nat -> A) a k :
  map F (seq (S a) k) = map (fun i => F (S i)) (seq a k).
Proof. rewrite <- seq_shift, map_map. reflexivity. Qed.

Lemma map_seq_offset {A} (F : nat -> A) a k :
  map F (seq a k) = map (fun i => F (a + i)%nat) (seq 0 k).
Proof.
  revert a; induction k as [|k IH]; intros a; [reflexivity|].
  cbn [seq map]. rewrite Nat.add_0_r. f_equal.
  rewrite IH, map_seq_shift. apply map_ext. intros i. f_equal. lia.
Qed.

Lemma tabulate_nth {A} (l : list A) d :
  l = map (fun i => nth i l d) (seq 0 (length l)).
Proof.
  induction l as [|x l IH]; simpl; [reflexivity|].
  f_equal. rewrite map_seq_shift. exact IH.
Qed.

Lemma map_seq_repeat {A} (x : A) a k : map (fun _ => x) (seq a k) = repeat x k.
Proof. revert a; induction k; intros a; simpl; f_equal; auto. Qed.

Lemma combine_repeat_seq {A B} (x : A) (G : nat -> B) a k :
  combine (repeat x k) (map G (seq a k)) = map (fun i => (x, G i)) (seq a k).
Proof. revert a; induction k; intros a; simpl; f_equal; auto. Qed.

Lemma combine_map_seq {A B} (F : nat -> A) (G : nat -> B) a k :
  combine (map F (seq a k)) (map G (seq a k)) = map (fun i => (F i, G i)) (seq a k).
Proof. revert a; induction k; intros a; simpl; f_equal; auto. Qed.

(** The sum of the entries of a vector. *)
Lemma rdot_const_l (c : R) (v : vector R) a :
  rdot (map (fun _ => c) (seq a (length v))) v = c * fold_right Rplus 0 v.
Proof.
  revert a; induction v as [|x v IH]; intros a; simpl; [ring|].
  rewrite IH. ring.
Qed.

(** A row with a single non-zero entry picks one entry of the vector. *)
Lemma rdot_single (d : R) (i : nat) (v : vector R) a k :
  rdot (map (fun j => if Nat.eqb i j then d else 0) (seq a k)) v =
  if (a <=? i)%nat && (i <? a + k)%nat then d * nth (i - a) v 0 else 0.
Proof.
  revert a v; induction k as [|k IH]; intros a v; simpl.
  - destruct (Nat.leb_spec a i), (Nat.ltb_spec i (a + 0)); simpl; try reflexivity; lia.
  - destruct v as [|x v].
    + destruct (_ && _); [destruct (i - a)%nat; simpl|]; ring.
    + rewrite IH.
      destruct (Nat.eqb_spec i a) as [->|Hne].
      * rewrite Nat.sub_diag.
        destruct (Nat.leb_spec (S a) a); [lia|]. simpl.
        destruct (Nat.leb_spec a a), (Nat.ltb_spec a (a + S k)); simpl; try lia. ring.
      * destruct (Nat.leb_spec (S a) i), (Nat.leb_spec a i),
          (Nat.ltb_spec i (S a + k)), (Nat.ltb_spec i (a + S k)); simpl; try lia; try ring.
        replace (i - a)%nat with (S (i - S a)) by lia. simpl. ring.
Qed.

Lemma rdot_minus_rows (F G : nat -> R) (v : vector R) a k :
  rdot (map (fun j => F j - G j) (seq a k)) v =
  rdot (map F (seq a k)) v - rdot (map G (seq a k)) v.
Proof.
  revert a v; induction k as [|k IH]; intros a [|x v]; simpl; try ring.
  rewrite IH. ring.
Qed.

Lemma nth_map_seq {A} (F : nat -> A) k i d : (i < k)%nat -> nth i (map F (seq 0 k)) d = F i.
Proof.
  intros Hi. rewrite nth_indep with (d' := F 0%nat) by (rewrite length_map, length_seq; exact Hi).
  rewrite map_nth, seq_nth by exact Hi. reflexivity.
Qed.
End Tabulate.

(* ===================================================================== *)
(** * Facts about the gates *)
(* ===================================================================== *)

Section GateFacts.
Import Utils.
Local Open Scope R_scope.

Lemma binary_forallb (f : list Z) :
  forallb (fun v => (v =? 0)%Z || (v =? 1)%Z) f = true <-> binary f.
Proof.
  unfold binary. rewrite forallb_forall, Forall_forall.
  split; intros H x Hx; specialize (H x Hx).
  - apply orb_true_iff in H as [H|H]; apply Z.eqb_eq in H; auto.
  - destruct H as [-> | ->]; reflexivity.
Qed.

Lemma phase_oracle_binary (f : list Z) :
  binary f -> phase_oracle f = Ok (oracle_matrix f).
Proof.
  intros Hf. unfold phase_oracle.
  apply binary_forallb in Hf. rewrite Hf. simpl. apply f_equal.
  unfold oracle_matrix. apply map_seq_ext. intros i Hi.
  apply map_seq_ext. intros j Hj.
  destruct (Nat.eqb_spec i j); [|reflexivity].
  rewrite nth_indep with (d' := (- 1) ^ Z.to_nat 0) by (rewrite length_map; lia).
  rewrite (map_nth (fun v => (- 1) ^ Z.to_nat v)). reflexivity.
Qed.

Lemma phase_oracle_not_binary (f : list Z) :
  ~ binary f -> phase_oracle f = Raise AssertionError.
Proof.
  intros Hf. unfold phase_oracle.
  destruct (forallb _ f) eqn:E; [|reflexivity].
  apply binary_forallb in E. contradiction.
Qed.

Lemma oracle_matrix_shape (f : list Z) :
  shaped (oracle_matrix f) (length f) (length f).
Proof.
  unfold oracle_matrix; split.
  - rewrite length_map, length_seq. reflexivity.
  - apply Forall_forall. intros row Hrow. apply in_map_iff in Hrow as [i [<- _]].
    rewrite length_map, length_seq. reflexivity.
Qed.

(** The phase oracle multiplies entry [i] of the state by [sign f[i]]. *)
Lemma rmatvec_oracle (f : list Z) (v : vector R) :
  length v = length f ->
  rmatvec (oracle_matrix f) v =
  map (fun i => sign (nth i f 0%Z) * nth i v 0) (seq 0 (length f)).
Proof.
  intros Hlen. unfold rmatvec, oracle_matrix. rewrite map_map.
  apply map_seq_ext. intros i Hi.
  rewrite rdot_single. simpl.
  destruct (Nat.ltb_spec i (length f)); [|lia].
  rewrite Nat.sub_0_r. reflexivity.
Qed.

(** The diffusion gate, entry by entry. *)
Lemma r_gate_entries (p : nat) :
  QuantumRegister.r_gate p =
  map (fun i => map (fun j => 2 / INR p - (if Nat.eqb i j then 1 else 0)) (seq 0 p))
      (seq 0 p).
Proof.
  unfold QuantumRegister.r_gate, ones, eye.
  rewrite <- map_seq_repeat with (a := 0%nat), map_map.
  rewrite combine_map_seq, map_map. apply map_ext. intros i. simpl.
  rewrite <- map_seq_repeat with (a := 0%nat), map_map.
  rewrite combine_map_seq, map_map. apply map_ext. intros j. simpl. ring.
Qed.

Lemma r_gate_shape (p : nat) : shaped (QuantumRegister.r_gate p) p p.
Proof.
  rewrite r_gate_entries. split.
  - rewrite length_map, length_seq. reflexivity.
  - apply Forall_forall. intros row Hrow. apply in_map_iff in Hrow as [i [<- _]].
    rewrite length_map, length_seq. reflexivity.
Qed.

(** Diffusion is inversion about the mean. *)
Lemma rmatvec_r_gate (p : nat) (v : vector R) :
  length v = p ->
  rmatvec (QuantumRegister.r_gate p) v =
  map (fun i => 2 / INR p * fold_right Rplus 0 v - nth i v 0) (seq 0 p).
Proof.
  intros Hlen. rewrite r_gate_entries. unfold rmatvec. rewrite map_map.
  apply map_seq_ext. intros i Hi.
  rewrite rdot_minus_rows, rdot_single. simpl.
  destruct (Nat.ltb_spec i p); [|lia].
  rewrite Nat.sub_0_r. subst p. rewrite rdot_const_l. ring.
Qed.
End GateFacts.

(* ===================================================================== *)
(** * Facts about qubits and registers *)
(* ===================================================================== *)

Section RegisterFacts.
Import QuantumRegister.
Local Open Scope R_scope.

Lemma zero_array : Qubit.array Qubit.zero = [C1; C0].
Proof.
  unfold Qubit.array, Qubit.zero, Qubit.init, Qubit.alpha, Qubit.beta.
  assert (E1 : Cabs C1 = 1).
  { unfold Cabs, C1, RtoC; simpl. replace (1 * 1 + 0 * 0) with 1 by ring. apply sqrt_1. }
  assert (E0 : Cabs C0 = 0).
  { unfold Cabs, C0, RtoC; simpl. replace (0 * 0 + 0 * 0) with 0 by ring. apply sqrt_0. }
  rewrite E1, E0.
  replace (1 ^ 2 + 0 ^ 2) with 1 by ring.
  destruct (Rlt_dec 0 1) as [_|H]; [|lra].
  rewrite sqrt_1. simpl.
  f_equal; [|f_equal]; apply C_eq; simpl; field.
Qed.

Lemma onehot_0_double (p : nat) :
  (0 < p)%nat -> onehot (p + p) 0 = onehot p 0 ++ repeat 0 p.
Proof.
  intros Hp. unfold onehot. rewrite seq_app, map_app. f_equal.
  simpl. rewrite <- map_seq_repeat with (a := p).
  apply map_seq_ext. intros i Hi. destruct i; [lia|reflexivity].
Qed.

Lemma kronv_zero_real (v : vector R) :
  kronv (Qubit.array Qubit.zero) (map RtoC v) =
  map RtoC (v ++ repeat 0 (length v)).
Proof.
  rewrite zero_array. unfold kronv. simpl. rewrite app_nil_r, map_app.
  apply f_equal2.
  - rewrite map_map. apply map_ext. intros x. apply C_eq; simpl; ring.
  - induction v as [|x v IH]; simpl; [reflexivity|].
    apply f_equal2; [apply C_eq; simpl; ring | exact IH].
Qed.

Lemma fold_zero_qubits (k p : nat) :
  (0 < p)%nat ->
  fold_left (fun st q => kronv (Qubit.array q) st) (repeat Qubit.zero k)
            (map RtoC (onehot p 0)) =
  map RtoC (onehot (2 ^ k * p) 0).
Proof.
  revert p; induction k as [|k IH]; intros p Hp; cbn [fold_left repeat].
  - rewrite Nat.pow_0_r, Nat.mul_1_l. reflexivity.
  - rewrite kronv_zero_real.
    assert (El : length (onehot p 0) = p) by (unfold onehot; rewrite length_map, length_seq; reflexivity).
    rewrite El, <- onehot_0_double by exact Hp.
    rewrite IH by lia. do 2 f_equal. rewrite Nat.pow_succ_r'. lia.
Qed.

Lemma rev_repeat {A} (x : A) k : rev (repeat x k) = repeat x k.
Proof.
  induction k as [|k IH]; simpl; [reflexivity|].
  rewrite IH. clear IH. induction k; simpl; [reflexivity|]. f_equal. assumption.
Qed.

Lemma the_Qubits_map (l : list Qubit.t) : the_Qubits (map QQubit l) = l.
Proof. induction l; simpl; f_equal; auto. Qed.

Lemma is_Qubit_map (l : list Qubit.t) : forallb is_Qubit (map QQubit l) = true.
Proof. induction l; simpl; auto. Qed.

(** A register of [k >= 1] qubits, all [zero], starts in the basis state 0. *)
Lemma init_zero_qubits (k : nat) :
  (0 < k)%nat ->
  init (map QQubit (repeat Qubit.zero k)) =
  Ok {| _n := k; _state := map RtoC (onehot (2 ^ k) 0) |}.
Proof.
  intros Hk. unfold init.
  rewrite length_map, repeat_length.
  destruct (Nat.ltb_spec 0 k); [|lia]. simpl rbind.
  rewrite is_Qubit_map, the_Qubits_map, rev_repeat.
  change [C1] with (map RtoC (onehot 1 0)).
  rewrite fold_zero_qubits by lia. rewrite Nat.mul_1_r.
  simpl rbind.
  unfold onehot. rewrite !length_map, length_seq, Nat.eqb_refl. reflexivity.
Qed.

(** [apply] on a real state with a float gate of the right shape. *)
Lemma matmul_vec_shaped (g : matrix R) (v : vector C) (r : nat) :
  shaped g r (length v) -> matmul_vec g v = Ok (matvec g v).
Proof.
  intros [_ Hg]. unfold matmul_vec.
  replace (forallb (fun row => Nat.eqb (length row) (length v)) g) with true;
    [reflexivity|].
  symmetry. apply forallb_forall. intros row Hrow. apply Nat.eqb_eq.
  rewrite Forall_forall in Hg. exact (Hg row Hrow).
Qed.

Lemma apply_real (k : nat) (v : vector R) (g : matrix R) :
  shaped g (2 ^ k) (2 ^ k) -> length v = (2 ^ k)%nat ->
  apply {| _n := k; _state := map RtoC v |} (FloatGate g) =
  Ok {| _n := k; _state := map RtoC (rmatvec g v) |}.
Proof.
  intros Hg Hv. unfold apply, p; cbn [_n _state].
  rewrite (asarray_float_shaped Hg). cbn [rbind].
  rewrite (proj2 (has_shape_iff _ _ _) Hg). cbn [assert rbind].
  rewrite (@matmul_vec_shaped g (map RtoC v) (2 ^ k))
    by (rewrite length_map, Hv; exact Hg).
  cbn [rbind]. rewrite matvec_real. reflexivity.
Qed.

Lemma h_real (k : nat) (v : vector R) :
  length v = (2 ^ k)%nat ->
  h {| _n := k; _state := map RtoC v |} =
  Ok {| _n := k; _state := map RtoC (rmatvec (had k) v) |}.
Proof.
  intros Hv. unfold h, p; simpl.
  rewrite Nat2Z.inj_pow. change (Z.of_nat 2) with 2%Z.
  rewrite hadamard_pow2. simpl.
  apply apply_real; [apply had_shape | exact Hv].
Qed.

Lemma r_real (k : nat) (v : vector R) :
  length v = (2 ^ k)%nat ->
  r {| _n := k; _state := map RtoC v |} =
  Ok {| _n := k; _state := map RtoC (rmatvec (r_gate (2 ^ k)) v) |}.
Proof.
  intros Hv. unfold r, p; simpl. apply apply_real; [apply r_gate_shape | exact Hv].
Qed.
End RegisterFacts.

(* ===================================================================== *)
(** * Returned values of printing computations *)
(* ===================================================================== *)

Section IoFacts.

Lemma returned_bind {A B} (m : io A) (k : A -> io B) :
  returned (bind m k) =
  match returned m with
  | Ok a => returned (k a)
  | Raise e => Raise e
  end.
Proof.
  destruct m as [out [a|e]]; simpl; [|reflexivity].
  destruct (k a); reflexivity.
Qed.

Lemma returned_lift {A} (m : result A) : returned (lift m) = m.
Proof. reflexivity. Qed.

Lemma returned_ret {A} (a : A) : returned (ret a) = Ok a.
Proof. reflexivity. Qed.

Lemma returned_when_print (b : bool) (l : trace_line) :
  returned (when b (print l)) = Ok tt.
Proof. destruct b; reflexivity. Qed.
End IoFacts.

#[export] Hint Rewrite @returned_bind @returned_lift @returned_ret returned_when_print : io.

(* ===================================================================== *)
(** * Each driver is its circuit followed by its readout *)
(* ===================================================================== *)

Section DriverSplit.
Import QuantumRegister Algorithms.

Lemma bind_assoc {A B D} (m : io A) (k : A -> io B) (k' : B -> io D) :
  bind (bind m k) k' = bind m (fun a => bind (k a) k').
Proof.
  destruct m as [out [a|e]]; cbn [bind]; [|reflexivity].
  destruct (k a) as [out' [b|e]]; cbn [bind]; [|reflexivity].
  destruct (k' b) as [out'' d]. rewrite app_assoc. reflexivity.
Qed.

Lemma bind_ret_l {A B} (a : A) (k : A -> io B) : bind (ret a) k = k a.
Proof. unfold bind, ret. destruct (k a). reflexivity. Qed.

Lemma bind_ext {A B} (m : io A) (k k' : A -> io B) :
  (forall a, k a = k' a) -> bind m k = bind m k'.
Proof.
  intros H. destruct m as [out [a|e]]; cbn [bind]; [|reflexivity].
  rewrite H. reflexivity.
Qed.

(** Moves the readout behind the last statement of the circuit. *)
Ltac split_driver :=
  repeat (rewrite bind_assoc; apply bind_ext; intros ?; cbv zeta);
  rewrite bind_ret_l; reflexivity.

Lemma deutsch_jozsa_split (f : list Z) (verbose : Z) :
  deutsch_jozsa_algorithm f verbose =
  bind (hadamard_oracle_hadamard f verbose) (deutsch_jozsa_readout verbose).
Proof.
  unfold deutsch_jozsa_algorithm, hadamard_oracle_hadamard, deutsch_jozsa_readout.
  split_driver.
Qed.

Lemma grover_split (f : list Z) (verbose : Z) :
  grover_algorithm f verbose =
  bind (grover_circuit f verbose) (grover_readout verbose).
Proof.
  unfold grover_algorithm, grover_circuit, grover_readout. split_driver.
Qed.

Lemma bernstein_vazirani_split (f : list Z) (verbose : Z) :
  bernstein_vazirani_algorithm f verbose =
  bind (hadamard_oracle_hadamard f verbose) (bernstein_vazirani_readout verbose).
Proof.
  unfold bernstein_vazirani_algorithm, hadamard_oracle_hadamard,
    bernstein_vazirani_readout.
  split_driver.
Qed.
End DriverSplit.

(* ===================================================================== *)
(** * The Hadamard transform of basis state 0 *)
(* ===================================================================== *)

Section HadamardFacts.
Import Utils.
Local Open Scope R_scope.

Lemma onehot_length p i : length (onehot p i) = p.
Proof. unfold onehot. rewrite length_map, length_seq. reflexivity. Qed.

Lemma rmatvec_had_onehot_0 (n : nat) :
  rmatvec (had n) (onehot (2 ^ n) 0) = repeat (SQRT1_2 ^ n) (2 ^ n).
Proof.
  induction n as [|n IH].
  - simpl. unfold rmatvec; simpl. f_equal. ring.
  - rewrite had_S. rewrite Nat.pow_succ_r'.
    replace (2 * 2 ^ n)%nat with (2 ^ n + 2 ^ n)%nat by lia.
    assert (Hpos : (0 < 2 ^ n)%nat) by (apply Nat.neq_0_lt_0, Nat.pow_nonzero; lia).
    rewrite onehot_0_double by exact Hpos.
    rewrite rmatvec_kron_H2
      by (rewrite onehot_length; apply (proj2 (had_shape n))).
    rewrite repeat_app.
    assert (E : map (fun rb => SQRT1_2 * rdot rb (onehot (2 ^ n) 0)) (had n) =
                repeat (SQRT1_2 ^ S n) (2 ^ n)).
    { change (map (fun rb => SQRT1_2 * rdot rb (onehot (2 ^ n) 0)) (had n))
        with (map (fun rb => SQRT1_2 * (fun rb => rdot rb (onehot (2 ^ n) 0)) rb) (had n)).
      rewrite <- (map_map (fun rb => rdot rb (onehot (2 ^ n) 0)) (Rmult SQRT1_2)).
      fold (rmatvec (had n) (onehot (2 ^ n) 0)). rewrite IH.
      rewrite map_repeat. reflexivity. }
    rewrite <- E.
    f_equal; apply map_ext; intros rb; rewrite rdot_repeat_0_r; ring.
Qed.

Lemma had_first_row (n : nat) :
  exists rest, had n = repeat (SQRT1_2 ^ n) (2 ^ n) :: rest.
Proof.
  induction n as [|n [rest IH]].
  - exists []. reflexivity.
  - rewrite had_S, kron_H2, IH. simpl map at 1.
    eexists. rewrite <- app_comm_cons. f_equal.
    rewrite map_repeat, <- repeat_app. f_equal. simpl; lia.
Qed.

(** Entry 0 of [had n @ w] is the mean of [w] times [sqrt (2 ^ n)]. *)
Lemma rdot_repeat_l (c : R) (w : vector R) :
  rdot (repeat c (length w)) w = c * fold_right Rplus 0 w.
Proof.
  induction w as [|x w IH]; simpl; [ring|]. rewrite IH. ring.
Qed.
End HadamardFacts.

Section CircuitFacts.
Import Utils QuantumRegister Algorithms.
Local Open Scope R_scope.

Lemma length_pow2_Z (f : list Z) (n : nat) :
  length f = (2 ^ n)%nat -> Z.of_nat (length f) = (2 ^ Z.of_nat n)%Z.
Proof. intros ->. rewrite Nat2Z.inj_pow. reflexivity. Qed.

Lemma hadamard_oracle_hadamard_returned (n : nat) (f : list Z) (verbose : Z) :
  (1 <= n)%nat -> length f = (2 ^ n)%nat -> binary f ->
  returned (hadamard_oracle_hadamard f verbose) =
  Ok (Z.of_nat n, {| _n := n; _state := map RtoC (hoh_state n f) |}).
Proof.
  intros Hn Hlen Hf. unfold hadamard_oracle_hadamard.
  autorewrite with io.
  rewrite (length_pow2_Z f n Hlen), log2_pow2.
  autorewrite with io.
  rewrite (phase_oracle_binary Hf).
  autorewrite with io.
  rewrite Nat2Z.id, init_zero_qubits by lia.
  autorewrite with io.
  rewrite h_real by apply onehot_length.
  autorewrite with io.
  rewrite apply_real;
    [|rewrite <- Hlen; apply oracle_matrix_shape
     |rewrite rmatvec_length; apply (proj1 (had_shape n))].
  autorewrite with io.
  rewrite h_real
    by (rewrite rmatvec_length, <- Hlen; apply (proj1 (oracle_matrix_shape f))).
  autorewrite with io.
  reflexivity.
Qed.
End CircuitFacts.

Section DeutschJozsaFacts.
Import Utils QuantumRegister Algorithms.
Local Open Scope R_scope.

Lemma sign_0 : sign 0 = 1.
Proof. unfold sign; simpl; ring. Qed.

Lemma sign_1 : sign 1 = -1.
Proof. unfold sign; simpl; ring. Qed.

Lemma signsum_counts (f : list Z) :
  binary f ->
  signsum f = INR (count_of 0 f) - INR (count_of 1 f) /\
  (count_of 0 f + count_of 1 f = length f)%nat.
Proof.
  unfold signsum, count_of.
  induction 1 as [|x f [-> | ->] _ [IH1 IH2]]; cbn [map fold_right count_occ length].
  - simpl; split; [ring|reflexivity].
  - destruct (Z.eq_dec 0 0) as [_|]; [|congruence].
    destruct (Z.eq_dec 0 1) as [|_]; [discriminate|].
    rewrite sign_0, IH1, S_INR. split; [ring|lia].
  - destruct (Z.eq_dec 1 0) as [|_]; [discriminate|].
    destruct (Z.eq_dec 1 1) as [_|]; [|congruence].
    rewrite sign_1, IH1, S_INR. split; [ring|lia].
Qed.

Lemma fold_right_Rplus_scale (c : R) (g : Z -> R) (f : list Z) :
  fold_right Rplus 0 (map (fun x => g x * c) f) = c * fold_right Rplus 0 (map g f).
Proof. induction f as [|x f IH]; simpl; [ring|]. rewrite IH; ring. Qed.

(** After Hadamard and the oracle, entry [i] is [sign f[i] / sqrt (2 ^ n)]. *)
Lemma oracle_on_uniform (f : list Z) (c : R) :
  rmatvec (oracle_matrix f) (repeat c (length f)) = map (fun x => sign x * c) f.
Proof.
  rewrite rmatvec_oracle by apply repeat_length.
  transitivity (map (fun x => sign x * c) (map (fun i => nth i f 0%Z) (seq 0 (length f))));
    [|rewrite <- tabulate_nth; reflexivity].
  rewrite map_map.
  apply map_seq_ext. intros i Hi.
  rewrite nth_repeat_lt by lia. reflexivity.
Qed.

(** The amplitude that [deutsch_jozsa_algorithm] reads. *)
Lemma hoh_state_first (n : nat) (f : list Z) :
  length f = (2 ^ n)%nat ->
  first (hoh_state n f) = Ok (signsum f / 2 ^ n).
Proof.
  intros Hlen. unfold hoh_state.
  rewrite rmatvec_had_onehot_0, <- Hlen, oracle_on_uniform.
  destruct (had_first_row n) as [rest ->]. unfold rmatvec. cbn [map first]. f_equal.
  rewrite <- Hlen.
  replace (length f) with (length (map (fun x => sign x * SQRT1_2 ^ n) f))
    by apply length_map.
  rewrite rdot_repeat_l, fold_right_Rplus_scale.
  fold (signsum f). rewrite <- Rmult_assoc, SQRT1_2_pow_sqr. field.
  apply pow_nonzero; lra.
Qed.

Lemma allclose_refl (x : R) : allclose x x = true.
Proof.
  unfold allclose, atol, rtol.
  destruct (Rle_dec _ _) as [|H]; [reflexivity|]. exfalso; apply H.
  replace (x - x) with 0 by ring. rewrite Rabs_R0.
  assert (0 <= Rabs x) by apply Rabs_pos. lra.
Qed.

Lemma allclose_far (x y : R) : 1 <= Rabs (x - y) -> Rabs y <= 1 -> allclose x y = false.
Proof.
  intros H1 H2. unfold allclose, atol, rtol.
  destruct (Rle_dec _ _) as [H|]; [|reflexivity]. lra.
Qed.

Lemma deutsch_jozsa_returned (n : nat) (f : list Z) (verbose : Z) :
  (1 <= n)%nat -> length f = (2 ^ n)%nat -> binary f ->
  returned (deutsch_jozsa_algorithm f verbose) =
  Ok (let flag := signsum f / 2 ^ n in
      if allclose flag 1 then "constant 0"%string
      else if allclose flag (-1) then "constant 1"%string
      else if allclose flag 0 then "balanced"%string
      else "other"%string).
Proof.
  intros Hn Hlen Hf. rewrite deutsch_jozsa_split, returned_bind.
  rewrite (hadamard_oracle_hadamard_returned verbose Hn Hlen Hf).
  unfold deutsch_jozsa_readout. autorewrite with io.
  cbn [snd]. unfold real, state; cbn [_state].
  rewrite map_Re_RtoC, (hoh_state_first n f Hlen).
  autorewrite with io. reflexivity.
Qed.
End DeutschJozsaFacts.

Section C1.
Import Algorithms.
Local Open Scope R_scope.

(** C1. For every [n >= 1] and every truth table [f] of length [2 ^ n] with
    values in {0, 1}, the Deutsch-Jozsa driver returns ["constant 0"] when
    [f] is all zeros, ["constant 1"] when [f] is all ones, ["balanced"] when
    [f] has as many zeros as ones, and ["other"] only when [f] is neither
    constant nor balanced. *)
Theorem deutsch_jozsa_classifies (n : nat) (f : list Z) (verbose : Z) :
  (1 <= n)%nat -> length f = (2 ^ n)%nat -> binary f ->
  let found := returned (deutsch_jozsa_algorithm f verbose) in
  (Forall (fun v => v = 0%Z) f -> found = Ok "constant 0"%string) /\
  (Forall (fun v => v = 1%Z) f -> found = Ok "constant 1"%string) /\
  (count_of 0 f = count_of 1 f -> found = Ok "balanced"%string) /\
  (found = Ok "other"%string ->
   ~ Forall (fun v => v = 0%Z) f /\ ~ Forall (fun v => v = 1%Z) f /\
   count_of 0 f <> count_of 1 f).
Proof.
  intros Hn Hlen Hf found.
  assert (Hfound := deutsch_jozsa_returned verbose Hn Hlen Hf).
  fold found in Hfound. clearbody found.
  destruct (signsum_counts Hf) as [Hsum Hcount].
  assert (Hp : INR (length f) = 2 ^ n) by (rewrite Hlen, pow_INR; reflexivity).
  assert (Hpos : 0 < 2 ^ n) by (apply pow_lt; lra).
  assert (Hzero : Forall (fun v => v = 0%Z) f -> signsum f / 2 ^ n = 1).
  { intros Hall. assert (E : count_of 1 f = 0%nat).
    { unfold count_of. apply count_occ_not_In. intros Hin.
      rewrite Forall_forall in Hall. specialize (Hall _ Hin). discriminate. }
    rewrite Hsum, E. replace (count_of 0 f) with (length f) by lia.
    rewrite Hp. simpl. field. lra. }
  assert (Hone : Forall (fun v => v = 1%Z) f -> signsum f / 2 ^ n = -1).
  { intros Hall. assert (E : count_of 0 f = 0%nat).
    { unfold count_of. apply count_occ_not_In. intros Hin.
      rewrite Forall_forall in Hall. specialize (Hall _ Hin). discriminate. }
    rewrite Hsum, E. replace (count_of 1 f) with (length f) by lia.
    rewrite Hp. simpl. field. lra. }
  assert (Hbal : count_of 0 f = count_of 1 f -> signsum f / 2 ^ n = 0).
  { intros E. rewrite Hsum, E. field. lra. }
  assert (F1 : allclose (-1) 1 = false).
  { apply allclose_far; [replace (-1 - 1) with (-2) by ring|];
      unfold Rabs; destruct (Rcase_abs _); lra. }
  assert (F2 : allclose 0 1 = false).
  { apply allclose_far; [replace (0 - 1) with (-1) by ring|];
      unfold Rabs; destruct (Rcase_abs _); lra. }
  assert (F3 : allclose 0 (-1) = false).
  { apply allclose_far; [replace (0 - -1) with 1 by ring|];
      unfold Rabs; destruct (Rcase_abs _); lra. }
  assert (G1 : Forall (fun v => v = 0%Z) f -> found = Ok "constant 0"%string).
  { intros H. rewrite Hfound. cbv zeta. rewrite (Hzero H), allclose_refl. reflexivity. }
  assert (G2 : Forall (fun v => v = 1%Z) f -> found = Ok "constant 1"%string).
  { intros H. rewrite Hfound. cbv zeta. rewrite (Hone H), F1, allclose_refl. reflexivity. }
  assert (G3 : count_of 0 f = count_of 1 f -> found = Ok "balanced"%string).
  { intros H. rewrite Hfound. cbv zeta. rewrite (Hbal H), F2, F3, allclose_refl. reflexivity. }
  split; [exact G1|]. split; [exact G2|]. split; [exact G3|].
  intros Hother. repeat split.
  - intros Hall. rewrite (G1 Hall) in Hother. discriminate.
  - intros Hall. rewrite (G2 Hall) in Hother. discriminate.
  - intros Hall. rewrite (G3 Hall) in Hother. discriminate.
Qed.

Lemma deutsch_jozsa_classifies_witness :
  returned (deutsch_jozsa_algorithm [0; 1]%Z 0) = Ok "balanced"%string.
Proof.
  assert (Hn : (1 <= 1)%nat) by lia.
  assert (Hlen : length [0; 1]%Z = (2 ^ 1)%nat) by reflexivity.
  assert (Hf : binary [0; 1]%Z) by (repeat constructor; auto).
  exact (proj1 (proj2 (proj2 (deutsch_jozsa_classifies 0 Hn Hlen Hf))) eq_refl).
Defined.
End C1.

(* ===================================================================== *)
(** * Binary numerals: [int(_, 2)], [format(_, "0nb")], [bin] *)
(* ===================================================================== *)

Section Numerals.
Local Open Scope Z_scope.

Lemma bits_value_from (bits : list Z) (acc : Z) :
  fold_left (fun acc b => 2 * acc + b) bits acc =
  acc * 2 ^ Z.of_nat (length bits) + bits_value bits.
Proof.
  unfold bits_value. revert acc; induction bits as [|b bits IH]; intros acc.
  - simpl. lia.
  - cbn [fold_left length]. rewrite IH, (IH (2 * 0 + b)).
    rewrite Nat2Z.inj_succ, Z.pow_succ_r by lia. ring.
Qed.

Lemma bits_value_cons (b : Z) (bits : list Z) :
  bits_value (b :: bits) = b * 2 ^ Z.of_nat (length bits) + bits_value bits.
Proof.
  unfold bits_value at 1. cbn [fold_left]. rewrite bits_value_from. ring.
Qed.

Lemma bits_value_snoc (bits : list Z) (b : Z) :
  bits_value (bits ++ [b]) = 2 * bits_value bits + b.
Proof. unfold bits_value. rewrite fold_left_app. reflexivity. Qed.

Lemma bits_value_bound (bits : list Z) :
  binary bits -> 0 <= bits_value bits < 2 ^ Z.of_nat (length bits).
Proof.
  induction 1 as [|b bits Hb _ IH].
  - unfold bits_value; simpl; lia.
  - rewrite bits_value_cons. cbn [length].
    rewrite Nat2Z.inj_succ, Z.pow_succ_r by lia.
    destruct Hb as [-> | ->]; lia.
Qed.

(** Joining the decimal strings of bits and reading the result in base 2. *)
Lemma join_str_cons (b : Z) (bits : list Z) :
  b = 0 \/ b = 1 ->
  join (map str (b :: bits)) =
  String (if b =? 0 then "0"%char else "1"%char) (join (map str bits)).
Proof.
  intros Hb. unfold join. cbn [map String.concat].
  destruct (map str bits) as [|s l]; cbn [String.concat];
    destruct Hb as [-> | ->]; reflexivity.
Qed.

Lemma int2_from_0 (acc : Z) (s : string) :
  int2_from acc (String "0" s) = int2_from (2 * acc) s.
Proof. reflexivity. Qed.

Lemma int2_from_1 (acc : Z) (s : string) :
  int2_from acc (String "1" s) = int2_from (2 * acc + 1) s.
Proof. reflexivity. Qed.

Lemma int2_from_bits (bits : list Z) (acc : Z) :
  binary bits ->
  int2_from acc (join (map str bits)) =
  Ok (fold_left (fun acc b => 2 * acc + b) bits acc).
Proof.
  intros Hb. revert acc. induction Hb as [|b bits Hb _ IH]; intros acc.
  - reflexivity.
  - rewrite (join_str_cons bits Hb). cbn [fold_left].
    destruct Hb as [-> | ->]; cbn [Z.eqb].
    + rewrite int2_from_0, IH, Z.add_0_r. reflexivity.
    + rewrite int2_from_1, IH. reflexivity.
Qed.

Lemma int2_bits (bits : list Z) :
  binary bits -> bits <> [] -> int2 (join (map str bits)) = Ok (bits_value bits).
Proof.
  intros Hb Hne. unfold bits_value.
  rewrite <- (int2_from_bits _ Hb).
  destruct bits as [|b bits]; [congruence|].
  inversion Hb as [|? ? Hbit _]; subst.
  rewrite (join_str_cons bits Hbit). reflexivity.
Qed.

(** Digits written by [format]. *)
Lemma map_int_app (s1 s2 : string) (l1 l2 : list Z) :
  map_int s1 = Ok l1 -> map_int s2 = Ok l2 -> map_int (s1 ++ s2) = Ok (l1 ++ l2).
Proof.
  revert l1; induction s1 as [|c s1 IH]; intros l1; cbn [map_int String.append].
  - intros [= <-] H. exact H.
  - destruct (int_of_char c) as [d|e]; cbn [rbind]; [|discriminate].
    destruct (map_int s1) as [ds|e] eqn:E; cbn [rbind]; [|discriminate].
    intros [= <-] H2. rewrite (IH ds eq_refl H2). reflexivity.
Qed.

Lemma map_int_bin_pos (p : positive) (acc : string) (l : list Z) :
  map_int acc = Ok l -> map_int (bin_pos p acc) = Ok (pos_bits p ++ l).
Proof.
  revert acc l; induction p as [q IH|q IH|]; intros acc l H; cbn [bin_pos pos_bits].
  - rewrite <- app_assoc. apply IH. cbn. rewrite H. reflexivity.
  - rewrite <- app_assoc. apply IH. cbn. rewrite H. reflexivity.
  - cbn. rewrite H. reflexivity.
Qed.

Lemma length_bin_pos (p : positive) (acc : string) :
  String.length (bin_pos p acc) = (length (pos_bits p) + String.length acc)%nat.
Proof.
  revert acc; induction p as [q IH|q IH|]; intros acc; cbn [bin_pos pos_bits].
  - rewrite IH, length_app. simpl. lia.
  - rewrite IH, length_app. simpl. lia.
  - reflexivity.
Qed.

Lemma map_int_format_b (v : N) : map_int (format_b v) = Ok (nbits v).
Proof.
  destruct v as [|p]; [reflexivity|].
  cbn [format_b nbits]. rewrite (map_int_bin_pos p EmptyString eq_refl). rewrite app_nil_r. reflexivity.
Qed.

Lemma length_format_b (v : N) : String.length (format_b v) = length (nbits v).
Proof.
  destruct v as [|p]; [reflexivity|].
  cbn [format_b nbits]. rewrite length_bin_pos. simpl. lia.
Qed.

Lemma map_int_zeros (k : nat) : map_int (zeros_string k) = Ok (repeat 0 k).
Proof. induction k as [|k IH]; [reflexivity|]. cbn. rewrite IH. reflexivity. Qed.

Lemma map_int_format_0nb (n : nat) (v : N) :
  map_int (format_0nb (Z.of_nat n) v) = Ok (padded n v).
Proof.
  unfold format_0nb, padded. rewrite Nat2Z.id, length_format_b.
  apply map_int_app; [apply map_int_zeros | apply map_int_format_b].
Qed.

Lemma nbits_double (v : N) :
  (2 <= v)%N -> nbits v = nbits (N.div2 v) ++ [Z.b2z (N.odd v)].
Proof. destruct v as [|[q|q|]]; intros H; try reflexivity; lia. Qed.

Lemma padded_S (n : nat) (v : N) :
  (1 <= n)%nat -> padded (S n) v = padded n (N.div2 v) ++ [Z.b2z (N.odd v)].
Proof.
  intros Hn. unfold padded.
  destruct (N.le_gt_cases 2 v) as [H|H].
  - rewrite nbits_double by exact H. rewrite length_app, app_assoc. cbn [length].
    do 3 f_equal. lia.
  - assert (Hv : v = 0%N \/ v = 1%N) by lia.
    destruct Hv as [-> | ->].
    + change (nbits 0) with [0]. change (N.div2 0) with 0%N.
      change (Z.b2z (N.odd 0)) with 0. change (nbits 0) with [0]. cbn [length].
      replace (S n - 1)%nat with (S (n - 1)) by lia.
      rewrite <- (repeat_cons (n - 1) 0). reflexivity.
    + change (nbits 1) with [1]. change (N.div2 1) with 0%N.
      change (Z.b2z (N.odd 1)) with 1. change (nbits 0) with [0]. cbn [length].
      replace (S n - 1)%nat with (S (n - 1)) by lia.
      rewrite <- (repeat_cons (n - 1) 0). reflexivity.
Qed.

Lemma Z_of_N_div2_odd (v : N) : Z.of_N v = 2 * Z.of_N (N.div2 v) + Z.b2z (N.odd v).
Proof. destruct v as [|[q|q|]]; reflexivity. Qed.

(** The padded digits of [v < 2 ^ n] are [n] bits whose value is [v]. *)
Lemma padded_spec (n : nat) (v : N) :
  (1 <= n)%nat -> Z.of_N v < 2 ^ Z.of_nat n ->
  length (padded n v) = n /\ binary (padded n v) /\ bits_value (padded n v) = Z.of_N v.
Proof.
  intros Hn. revert v. induction Hn as [|n Hn IH]; intros v Hv.
  - assert (E : v = 0%N \/ v = 1%N) by (change (2 ^ Z.of_nat 1) with 2 in Hv; lia).
    destruct E as [-> | ->];
      (split; [reflexivity | split; [unfold padded, binary; simpl; constructor; [auto | constructor] | reflexivity]]).
  - rewrite padded_S by exact Hn.
    assert (Hv' : Z.of_N (N.div2 v) < 2 ^ Z.of_nat n).
    { rewrite Nat2Z.inj_succ, Z.pow_succ_r in Hv by lia.
      rewrite (Z_of_N_div2_odd v) in Hv. destruct (N.odd v); simpl Z.b2z in Hv; lia. }
    destruct (IH _ Hv') as (H1 & H2 & H3). repeat split.
    + rewrite length_app, H1. simpl; lia.
    + apply Forall_app; split; [exact H2|].
      constructor; [|constructor]. destruct (N.odd v); auto.
    + rewrite bits_value_snoc, H3. symmetry. apply Z_of_N_div2_odd.
Qed.

(** The padded digits of the value of [n] bits are these bits. *)
Lemma padded_bits_value (bits : list Z) :
  binary bits -> bits <> [] ->
  padded (length bits) (Z.to_N (bits_value bits)) = bits.
Proof.
  induction bits as [|b bits IH] using rev_ind; intros Hb Hne; [congruence|].
  apply Forall_app in Hb as [Hb Hlast]. inversion Hlast as [|? ? Hbit _]; subst.
  pose proof (bits_value_bound Hb) as Hbound.
  rewrite bits_value_snoc, length_app. cbn [length]. rewrite Nat.add_1_r.
  destruct bits as [|b' bits'].
  - unfold bits_value; simpl. destruct Hbit as [-> | ->]; reflexivity.
  - rewrite padded_S by (simpl; lia).
    assert (E1 : N.div2 (Z.to_N (2 * bits_value (b' :: bits') + b)) =
                 Z.to_N (bits_value (b' :: bits'))).
    { destruct Hbound as [Hlo _].
      apply N2Z.inj. rewrite N.div2_div, N2Z.inj_div.
      rewrite !Z2N.id by (destruct Hbit as [-> | ->]; lia).
      change (Z.of_N 2) with 2.
      destruct Hbit as [-> | ->]; [rewrite Z.add_0_r, Z.mul_comm; apply Z.div_mul; lia|].
      rewrite Z.mul_comm. rewrite Z.div_add_l by lia. change (1 / 2) with 0. lia. }
    assert (E2 : Z.b2z (N.odd (Z.to_N (2 * bits_value (b' :: bits') + b))) = b).
    { pose proof (Z_of_N_div2_odd (Z.to_N (2 * bits_value (b' :: bits') + b))) as E.
      destruct Hbound as [Hlo _].
      rewrite E1, !Z2N.id in E by (destruct Hbit as [-> | ->]; lia). lia. }
    rewrite E1, E2, IH by (auto; discriminate). reflexivity.
Qed.
End Numerals.

Section ArgmaxFacts.
Local Open Scope R_scope.

Lemma peak_split (p m : nat) (x y : R) :
  (m < p)%nat -> peak p m x y = repeat y m ++ x :: repeat y (p - S m).
Proof.
  intros Hm. unfold peak.
  replace p with (m + S (p - S m))%nat at 1 by lia.
  rewrite seq_app, map_app. cbn [seq map Nat.add]. rewrite Nat.eqb_refl.
  f_equal; [|f_equal].
  - rewrite <- map_seq_repeat with (a := 0%nat). apply map_seq_ext.
    intros i Hi. destruct (Nat.eqb_spec m i); [lia|reflexivity].
  - rewrite <- map_seq_repeat with (a := S m). apply map_seq_ext.
    intros i Hi. destruct (Nat.eqb_spec m i); [lia|reflexivity].
Qed.

Lemma onehot_peak (p i : nat) : onehot p i = peak p i 1 0.
Proof. reflexivity. Qed.

Lemma peak_length p m x y : length (peak p m x y) = p.
Proof. unfold peak. rewrite length_map, length_seq. reflexivity. Qed.

Lemma peak_const (p m : nat) (c : R) : peak p m c c = repeat c p.
Proof.
  unfold peak. rewrite <- map_seq_repeat with (a := 0%nat).
  apply map_ext. intros j. destruct (Nat.eqb m j); reflexivity.
Qed.

Lemma argmax_from_keep (t : vector R) (best_i i : nat) (best : R) :
  Forall (fun y => y <= best) t -> argmax_from best_i best i t = best_i.
Proof.
  intros H. revert i. induction H as [|y t Hy _ IH]; intros i; simpl; [reflexivity|].
  destruct (Rlt_dec best y); [lra | apply IH].
Qed.

Lemma argmax_from_peak (t1 t2 : vector R) (x best : R) (best_i i : nat) :
  Forall (fun y => y < x) t1 -> best < x -> Forall (fun y => y <= x) t2 ->
  argmax_from best_i best i (t1 ++ x :: t2) = (i + length t1)%nat.
Proof.
  intros H1 Hb H2. revert best_i best i Hb.
  induction H1 as [|y t1 Hy _ IH]; intros best_i best i Hb; simpl.
  - destruct (Rlt_dec best x); [|lra].
    rewrite argmax_from_keep by exact H2. lia.
  - destruct (Rlt_dec best y); rewrite IH by assumption; lia.
Qed.

(** [argmax] finds a strict peak. *)
Lemma argmax_peak (p m : nat) (x y : R) :
  (m < p)%nat -> y < x -> argmax (peak p m x y) = Ok m.
Proof.
  intros Hm Hxy. rewrite peak_split by exact Hm.
  assert (Hle : forall k, Forall (fun z => z <= x) (repeat y k)).
  { intros k. apply Forall_forall. intros z Hz. apply repeat_spec in Hz. lra. }
  assert (Hlt : forall k, Forall (fun z => z < x) (repeat y k)).
  { intros k. apply Forall_forall. intros z Hz. apply repeat_spec in Hz. lra. }
  destruct m as [|m]; cbn [repeat app argmax].
  - rewrite argmax_from_keep by apply Hle. reflexivity.
  - rewrite argmax_from_peak by auto. rewrite repeat_length. reflexivity.
Qed.
End ArgmaxFacts.

Section PopcountFacts.
Local Open Scope Z_scope.

Lemma count1_bin_pos (p : positive) (acc : string) :
  count1 (bin_pos p acc) = pos_ones p + count1 acc.
Proof.
  revert acc; induction p as [q IH|q IH|]; intros acc; cbn [bin_pos pos_ones].
  - rewrite IH. change (count1 (String "1" acc)) with (1 + count1 acc). ring.
  - rewrite IH. reflexivity.
  - reflexivity.
Qed.

Lemma popcount_N (v : N) :
  popcount (Z.of_N v) = match v with N0 => 0 | Npos p => pos_ones p end.
Proof.
  unfold popcount. rewrite N2Z.id. destruct v as [|p]; [reflexivity|].
  unfold bin, format_b. change (count1 ("0b" ++ bin_pos p EmptyString)) with (count1 (bin_pos p EmptyString)).
  rewrite count1_bin_pos. cbn [count1]. ring.
Qed.

Lemma popcount_double (z : Z) (c : Z) :
  0 <= z -> c = 0 \/ c = 1 -> popcount (2 * z + c) = popcount z + c.
Proof.
  intros Hz Hc. rewrite <- (Z2N.id z Hz).
  destruct (Z.to_N z) as [|p].
  - destruct Hc as [-> | ->]; reflexivity.
  - destruct Hc as [-> | ->].
    + change (2 * Z.of_N (N.pos p) + 0) with (Z.of_N (N.pos p~0)).
      rewrite !popcount_N. cbn [pos_ones]. ring.
    + change (2 * Z.of_N (N.pos p) + 1) with (Z.of_N (N.pos p~1)).
      rewrite !popcount_N. cbn [pos_ones]. ring.
Qed.

Lemma popcount_nonneg (z : Z) : 0 <= z -> 0 <= popcount z.
Proof.
  intros Hz. rewrite <- (Z2N.id z Hz), popcount_N.
  destruct (Z.to_N z) as [|p]; [lia|].
  induction p; cbn [pos_ones]; lia.
Qed.

(** Setting a bit above all the bits of [y] adds one to its popcount. *)
Lemma popcount_high_bit (n : nat) (y : Z) :
  0 <= y < 2 ^ Z.of_nat n -> popcount (2 ^ Z.of_nat n + y) = 1 + popcount y.
Proof.
  revert y; induction n as [|n IH]; intros y Hy.
  - change (2 ^ Z.of_nat 0) with 1 in *. assert (y = 0) by lia. subst. reflexivity.
  - rewrite Nat2Z.inj_succ, Z.pow_succ_r in * by lia.
    assert (E : y = 2 * (y / 2) + y mod 2) by (apply Z.div_mod; lia).
    assert (Hc : y mod 2 = 0 \/ y mod 2 = 1) by (pose proof (Z.mod_pos_bound y 2); lia).
    assert (Hq : 0 <= y / 2 < 2 ^ Z.of_nat n) by lia.
    assert (E1 : 2 * 2 ^ Z.of_nat n + y = 2 * (2 ^ Z.of_nat n + y / 2) + y mod 2) by lia.
    rewrite E1, popcount_double by lia. rewrite IH by exact Hq.
    rewrite E at 3. rewrite popcount_double by lia. ring.
Qed.
End PopcountFacts.

Section LandFacts.
Local Open Scope Z_scope.

Lemma testbit_small (n : nat) (y : Z) (i : Z) :
  0 <= y < 2 ^ Z.of_nat n -> Z.of_nat n <= i -> Z.testbit y i = false.
Proof.
  intros Hy Hi. destruct (Z.eq_dec y 0) as [->|Hne]; [apply Z.bits_0|].
  apply Z.bits_above_log2; [lia|].
  assert (Z.log2 y < Z.of_nat n) by (apply Z.log2_lt_pow2; lia). lia.
Qed.

Lemma pow2_plus_lor (n : nat) (y : Z) :
  0 <= y < 2 ^ Z.of_nat n -> 2 ^ Z.of_nat n + y = Z.lor (2 ^ Z.of_nat n) y.
Proof.
  intros Hy.
  assert (E : Z.land (2 ^ Z.of_nat n) y = 0).
  { apply Z.bits_inj'. intros i Hi. rewrite Z.land_spec, Z.bits_0.
    rewrite Z.pow2_bits_eqb by lia.
    destruct (Z.eqb_spec (Z.of_nat n) i) as [<-|]; [|reflexivity].
    rewrite (@testbit_small n _ _) by lia. reflexivity. }
  rewrite Z.add_nocarry_lxor by exact E. apply Z.lxor_lor. exact E.
Qed.

(** The key and the input split at the most significant bit. *)
Lemma land_low (n : nat) (b v x : Z) :
  b = 0 \/ b = 1 -> 0 <= v < 2 ^ Z.of_nat n -> 0 <= x < 2 ^ Z.of_nat n ->
  Z.land (b * 2 ^ Z.of_nat n + v) x = Z.land v x.
Proof.
  intros [-> | ->] Hv Hx; [f_equal; ring|].
  rewrite Z.mul_1_l, pow2_plus_lor by exact Hv.
  apply Z.bits_inj'. intros i Hi.
  rewrite !Z.land_spec, Z.lor_spec, Z.pow2_bits_eqb by lia.
  destruct (Z.eqb_spec (Z.of_nat n) i) as [<-|]; [|reflexivity].
  rewrite (@testbit_small n x _) by lia. rewrite !andb_false_r. reflexivity.
Qed.

Lemma land_high (n : nat) (b v x : Z) :
  b = 0 \/ b = 1 -> 0 <= v < 2 ^ Z.of_nat n -> 0 <= x < 2 ^ Z.of_nat n ->
  Z.land (b * 2 ^ Z.of_nat n + v) (2 ^ Z.of_nat n + x) =
  b * 2 ^ Z.of_nat n + Z.land v x.
Proof.
  intros Hb Hv Hx.
  assert (Hl : 0 <= Z.land v x < 2 ^ Z.of_nat n).
  { split; [apply Z.land_nonneg; lia|].
    destruct (Z.eq_dec (Z.land v x) 0) as [->|Hne]; [lia|].
    apply Z.log2_lt_pow2; [pose proof (Z.land_nonneg v x); lia|].
    assert (Z.log2 (Z.land v x) <= Z.min (Z.log2 v) (Z.log2 x))
      by (apply Z.log2_land; lia).
    destruct (Z.eq_dec v 0) as [->|Hv0]; [rewrite Z.land_0_l in Hne; congruence|].
    assert (Z.log2 v < Z.of_nat n) by (apply Z.log2_lt_pow2; lia). lia. }
  rewrite (@pow2_plus_lor n x) by exact Hx.
  destruct Hb as [-> | ->].
  - rewrite !Z.mul_0_l, !Z.add_0_l.
    apply Z.bits_inj'. intros i Hi.
    rewrite !Z.land_spec, Z.lor_spec, Z.pow2_bits_eqb by lia.
    destruct (Z.eqb_spec (Z.of_nat n) i) as [<-|]; [|reflexivity].
    rewrite (@testbit_small n v _), (@testbit_small n x _) by lia. reflexivity.
  - rewrite !Z.mul_1_l, (@pow2_plus_lor n v), (@pow2_plus_lor n (Z.land v x)) by assumption.
    apply Z.bits_inj'. intros i Hi.
    rewrite !Z.land_spec, !Z.lor_spec, Z.land_spec, Z.pow2_bits_eqb by lia.
    destruct (Z.eqb_spec (Z.of_nat n) i) as [<-|]; [|reflexivity].
    rewrite (@testbit_small n v _), (@testbit_small n x _) by lia. reflexivity.
Qed.
End LandFacts.

Section EncodeFacts.
Local Open Scope Z_scope.

Lemma dot_table_length (key : list Z) : length (dot_table key) = (2 ^ length key)%nat.
Proof.
  induction key as [|b key IH]; [reflexivity|].
  cbn [dot_table length]. rewrite length_app, length_map, IH, Nat.pow_succ_r'. lia.
Qed.

Lemma dot_table_binary (key : list Z) : binary (dot_table key).
Proof.
  induction key as [|b key IH]; cbn [dot_table].
  - constructor; [auto|constructor].
  - apply Forall_app; split; [exact IH|].
    apply Forall_forall. intros t Ht. apply in_map_iff in Ht as [t' [<- _]].
    pose proof (Z.mod_pos_bound (t' + b) 2). lia.
Qed.

Lemma pow2_nat_Z (n : nat) : Z.of_nat (2 ^ n) = 2 ^ Z.of_nat n.
Proof. rewrite Nat2Z.inj_pow. reflexivity. Qed.

(** [encode] computes [dot_table]. *)
Lemma encode_table (key : list Z) :
  binary key ->
  map (fun x => popcount (Z.land (bits_value key) (Z.of_nat x)) mod 2)
      (seq 0 (2 ^ length key)) = dot_table key.
Proof.
  induction 1 as [|b key Hb Hkey IH].
  - reflexivity.
  - set (n := length key) in *.
    pose proof (bits_value_bound Hkey) as Hv. fold n in Hv.
    rewrite bits_value_cons. fold n. cbn [dot_table length]. fold n.
    rewrite Nat.pow_succ_r'. replace (2 * 2 ^ n)%nat with (2 ^ n + 2 ^ n)%nat by lia.
    rewrite seq_app, map_app. f_equal.
    + rewrite <- IH. apply map_seq_ext. intros x Hx.
      rewrite land_low; auto. rewrite <- pow2_nat_Z. lia.
    + rewrite <- IH, map_map, map_seq_offset. apply map_seq_ext. intros x Hx.
      rewrite Nat.add_0_l, Nat2Z.inj_add, pow2_nat_Z.
      assert (Hx' : 0 <= Z.of_nat x < 2 ^ Z.of_nat n) by (rewrite <- pow2_nat_Z; lia).
      rewrite land_high by auto.
      assert (Hl : 0 <= Z.land (bits_value key) (Z.of_nat x) < 2 ^ Z.of_nat n).
      { split; [apply Z.land_nonneg; lia|].
        destruct (Z.eq_dec (Z.land (bits_value key) (Z.of_nat x)) 0) as [->|Hne]; [lia|].
        apply Z.log2_lt_pow2; [pose proof (Z.land_nonneg (bits_value key) (Z.of_nat x)); lia|].
        assert (Z.log2 (Z.land (bits_value key) (Z.of_nat x))
                <= Z.min (Z.log2 (bits_value key)) (Z.log2 (Z.of_nat x)))
          by (apply Z.log2_land; lia).
        destruct (Z.eq_dec (bits_value key) 0) as [E0|Hv0];
          [rewrite E0, Z.land_0_l in Hne; congruence|].
        assert (Z.log2 (bits_value key) < Z.of_nat n) by (apply Z.log2_lt_pow2; lia).
        lia. }
      destruct Hb as [-> | ->].
      * rewrite Z.mul_0_l, !Z.add_0_l, Z.add_0_r.
        rewrite Z.mod_mod by lia. reflexivity.
      * rewrite Z.mul_1_l, popcount_high_bit by exact Hl.
        rewrite Zplus_mod_idemp_l. f_equal. ring.
Qed.

Lemma encode_dot_table (key : list Z) :
  binary key -> key <> [] -> encode key = Ok (dot_table key).
Proof.
  intros Hb Hne. unfold encode. rewrite (int2_bits Hb Hne). cbn [rbind].
  f_equal. exact (encode_table Hb).
Qed.
End EncodeFacts.

Section BernsteinVaziraniFacts.
Import Utils QuantumRegister Algorithms.
Local Open Scope R_scope.

Lemma onehot_double_low (p i : nat) :
  (i < p)%nat -> onehot (p + p) i = onehot p i ++ repeat 0 p.
Proof.
  intros Hi. unfold onehot. rewrite seq_app, map_app. f_equal.
  rewrite <- map_seq_repeat with (a := (0 + p)%nat). apply map_seq_ext.
  intros j Hj. destruct (Nat.eqb_spec i j); [lia|reflexivity].
Qed.

Lemma onehot_double_high (p i : nat) :
  onehot (p + p) (p + i) = repeat 0 p ++ onehot p i.
Proof.
  unfold onehot. rewrite seq_app, map_app. f_equal.
  - rewrite <- map_seq_repeat with (a := 0%nat). apply map_seq_ext.
    intros j Hj. destruct (Nat.eqb_spec (p + i) j); [lia|reflexivity].
  - rewrite map_seq_offset. apply map_seq_ext. intros j Hj.
    destruct (Nat.eqb_spec (p + i) (0 + p + j)), (Nat.eqb_spec i j); try reflexivity; lia.
Qed.

Lemma sign_xor (t b : Z) :
  (t = 0 \/ t = 1)%Z -> (b = 0 \/ b = 1)%Z -> sign ((t + b) mod 2) = sign t * sign b.
Proof.
  intros [-> | ->] [-> | ->]; unfold sign; simpl; ring.
Qed.

Lemma hoh_state_uniform (n : nat) (f : list Z) :
  length f = (2 ^ n)%nat ->
  hoh_state n f = rmatvec (had n) (map (fun x => sign x * SQRT1_2 ^ n) f).
Proof.
  intros Hlen. unfold hoh_state.
  rewrite rmatvec_had_onehot_0, <- Hlen, oracle_on_uniform. reflexivity.
Qed.

(** Hadamard, the oracle of [x |-> key . x mod 2], Hadamard: the register
    ends in the basis state whose index is the key. *)
Lemma hoh_state_dot_table (key : list Z) :
  binary key ->
  hoh_state (length key) (dot_table key) =
  onehot (2 ^ length key) (Z.to_nat (bits_value key)).
Proof.
  intros Hkey. rewrite hoh_state_uniform by apply dot_table_length.
  induction Hkey as [|b key Hb Hkey IH].
  - unfold rmatvec, onehot; simpl. f_equal. unfold sign; simpl; ring.
  - set (n := length key) in *.
    pose proof (bits_value_bound Hkey) as Hv. fold n in Hv.
    assert (Hidx : (Z.to_nat (bits_value key) < 2 ^ n)%nat).
    { apply Nat2Z.inj_lt. rewrite Z2Nat.id, pow2_nat_Z; lia. }
    cbn [length dot_table]. fold n.
    rewrite had_S.
    assert (EW : map (fun x => sign x * SQRT1_2 ^ S n)
                     (dot_table key ++ map (fun t => ((t + b) mod 2)%Z) (dot_table key)) =
                 map (Rmult SQRT1_2) (map (fun x => sign x * SQRT1_2 ^ n) (dot_table key)) ++
                 map (Rmult (sign b * SQRT1_2))
                     (map (fun x => sign x * SQRT1_2 ^ n) (dot_table key))).
    { rewrite map_app, !map_map. f_equal.
      - apply map_ext. intros x. simpl. ring.
      - apply map_ext_in. intros t Ht.
        pose proof (dot_table_binary key) as Hbin. unfold binary in Hbin.
        rewrite Forall_forall in Hbin.
        rewrite sign_xor by auto. simpl. ring. }
    rewrite EW.
    rewrite rmatvec_kron_H2
      by (rewrite !length_map, dot_table_length; apply (proj2 (had_shape n))).
    set (W := map (fun x => sign x * SQRT1_2 ^ n) (dot_table key)) in *.
    assert (E1 :
      map (fun rb => SQRT1_2 * rdot rb (map (Rmult SQRT1_2) W) +
                     SQRT1_2 * rdot rb (map (Rmult (sign b * SQRT1_2)) W)) (had n) =
      map (Rmult (SQRT1_2 * SQRT1_2 * (1 + sign b))) (rmatvec (had n) W)).
    { unfold rmatvec. rewrite map_map. apply map_ext. intros rb.
      rewrite !rdot_scale_r. ring. }
    assert (E2 :
      map (fun rb => SQRT1_2 * rdot rb (map (Rmult SQRT1_2) W) -
                     SQRT1_2 * rdot rb (map (Rmult (sign b * SQRT1_2)) W)) (had n) =
      map (Rmult (SQRT1_2 * SQRT1_2 * (1 - sign b))) (rmatvec (had n) W)).
    { unfold rmatvec. rewrite map_map. apply map_ext. intros rb.
      rewrite !rdot_scale_r. ring. }
    rewrite E1, E2, IH. clear E1 E2.
    rewrite bits_value_cons. fold n.
    rewrite Nat.pow_succ_r'. replace (2 * 2 ^ n)%nat with (2 ^ n + 2 ^ n)%nat by lia.
    assert (Hs := SQRT1_2_sqr).
    assert (Escale : forall c v, map (Rmult c) (onehot (2 ^ n) v) =
                                 map (fun j => if Nat.eqb v j then c else 0) (seq 0 (2 ^ n))).
    { intros c v. unfold onehot. rewrite map_map. apply map_ext. intros j.
      destruct (Nat.eqb v j); ring. }
    destruct Hb as [-> | ->].
    + rewrite Z.mul_0_l, Z.add_0_l, sign_0, onehot_double_low by exact Hidx.
      replace (SQRT1_2 * SQRT1_2 * (1 + 1)) with 1 by lra.
      replace (SQRT1_2 * SQRT1_2 * (1 - 1)) with 0 by lra.
      rewrite !Escale. f_equal.
      rewrite <- map_seq_repeat with (a := 0%nat). apply map_ext. intros j.
      destruct (Nat.eqb _ j); reflexivity.
    + rewrite Z.mul_1_l, sign_1.
      replace (Z.to_nat (2 ^ Z.of_nat n + bits_value key))
        with (2 ^ n + Z.to_nat (bits_value key))%nat
        by (rewrite Z2Nat.inj_add, <- pow2_nat_Z, Nat2Z.id by lia; reflexivity).
      rewrite onehot_double_high.
      replace (SQRT1_2 * SQRT1_2 * (1 + -1)) with 0 by lra.
      replace (SQRT1_2 * SQRT1_2 * (1 - -1)) with 1 by lra.
      rewrite !Escale. f_equal.
      rewrite <- map_seq_repeat with (a := 0%nat). apply map_ext. intros j.
      destruct (Nat.eqb _ j); reflexivity.
Qed.

Lemma bernstein_vazirani_returned (key : list Z) (verbose : Z) :
  binary key -> key <> [] ->
  returned (bernstein_vazirani_algorithm (dot_table key) verbose) = Ok key.
Proof.
  intros Hkey Hne.
  assert (Hn : (1 <= length key)%nat) by (destruct key; [congruence|simpl; lia]).
  pose proof (bits_value_bound Hkey) as Hv.
  rewrite bernstein_vazirani_split, returned_bind.
  rewrite (hadamard_oracle_hadamard_returned verbose Hn (dot_table_length key)
             (dot_table_binary key)).
  unfold bernstein_vazirani_readout. autorewrite with io.
  cbn [fst snd]. unfold real, state; cbn [_state].
  rewrite map_Re_RtoC, hoh_state_dot_table by exact Hkey.
  rewrite onehot_peak, argmax_peak;
    [|apply Nat2Z.inj_lt; rewrite Z2Nat.id, pow2_nat_Z; lia | lra].
  cbn [rbind]. rewrite map_int_format_0nb, Z_nat_N.
  rewrite (padded_bits_value Hkey Hne).
  autorewrite with io. reflexivity.
Qed.
End BernsteinVaziraniFacts.

Section C3.
Import Algorithms.

(** C3. For every non-empty binary key [s] (in particular of length 1 to
    7), [encode s] is the truth table of [x |-> popcount (s AND x) mod 2] and
    the Bernstein-Vazirani driver run on it returns exactly [s]. *)
Theorem bernstein_vazirani_finds_key (key : list Z) (verbose : Z) :
  binary key -> key <> [] ->
  exists f, encode key = Ok f /\
            returned (bernstein_vazirani_algorithm f verbose) = Ok key.
Proof.
  intros Hkey Hne. exists (dot_table key). split.
  - apply encode_dot_table; assumption.
  - apply bernstein_vazirani_returned; assumption.
Qed.

Lemma bernstein_vazirani_finds_key_witness :
  exists f, encode [1; 0; 1]%Z = Ok f /\
            returned (bernstein_vazirani_algorithm f 2) = Ok [1; 0; 1]%Z.
Proof.
  apply bernstein_vazirani_finds_key.
  - unfold binary. repeat (apply Forall_cons; [auto|]). apply Forall_nil.
  - discriminate.
Defined.
End C3.

Section GroverFacts.
Import Utils QuantumRegister Algorithms.
Local Open Scope R_scope.

Lemma sum_app (l1 l2 : vector R) :
  fold_right Rplus 0 (l1 ++ l2) = fold_right Rplus 0 l1 + fold_right Rplus 0 l2.
Proof. induction l1 as [|x l1 IH]; simpl; [ring|]. rewrite IH; ring. Qed.

Lemma sum_repeat (c : R) (k : nat) : fold_right Rplus 0 (repeat c k) = INR k * c.
Proof.
  induction k as [|k IH]; [simpl; ring|].
  cbn [repeat fold_right]. rewrite IH, S_INR. ring.
Qed.

Lemma sum_peak (p m : nat) (a b : R) :
  (m < p)%nat -> fold_right Rplus 0 (peak p m a b) = a + (INR p - 1) * b.
Proof.
  intros Hm. rewrite peak_split by exact Hm.
  rewrite sum_app. cbn [fold_right]. rewrite !sum_repeat.
  replace (INR p) with (INR m + INR (p - S m) + 1)
    by (rewrite <- plus_INR, <- S_INR; f_equal; lia).
  ring.
Qed.

Lemma nth_peak (p m i : nat) (a b : R) :
  (i < p)%nat -> nth i (peak p m a b) 0 = if Nat.eqb m i then a else b.
Proof. intros Hi. unfold peak. rewrite nth_map_seq by exact Hi. reflexivity. Qed.

Lemma oracle_on_peak (f : list Z) (m : nat) (a b : R) :
  marks f m ->
  rmatvec (oracle_matrix f) (peak (length f) m a b) = peak (length f) m (- a) b.
Proof.
  intros [Hm Hf]. rewrite rmatvec_oracle by apply peak_length.
  unfold peak at 2. apply map_seq_ext. intros i Hi.
  rewrite nth_peak, Hf by lia. rewrite (Nat.eqb_sym i m).
  destruct (Nat.eqb m i); [rewrite sign_1 | rewrite sign_0]; ring.
Qed.

Lemma diffusion_on_peak (p m : nat) (a b : R) :
  (m < p)%nat ->
  rmatvec (r_gate p) (peak p m a b) =
  peak p m (2 / INR p * (a + (INR p - 1) * b) - a) (2 / INR p * (a + (INR p - 1) * b) - b).
Proof.
  intros Hm. rewrite rmatvec_r_gate by apply peak_length.
  rewrite sum_peak by exact Hm.
  unfold peak at 2. apply map_seq_ext. intros i Hi.
  rewrite nth_peak by lia. destruct (Nat.eqb m i); reflexivity.
Qed.

Lemma grover_operator_on_peak (f : list Z) (m : nat) (ab : R * R) :
  marks f m ->
  rmatvec (r_gate (length f)) (rmatvec (oracle_matrix f) (peak (length f) m (fst ab) (snd ab))) =
  peak (length f) m (fst (grover_step (length f) ab)) (snd (grover_step (length f) ab)).
Proof.
  intros Hf. rewrite (oracle_on_peak _ _ Hf), diffusion_on_peak by apply Hf.
  unfold grover_step; cbn [fst snd]. f_equal; ring.
Qed.

(** The loop of [grover_algorithm]. *)
Lemma grover_loop_returned (n : nat) (f : list Z) (m : nat) (verbose : Z)
    (range : list nat) (ab : R * R) :
  length f = (2 ^ n)%nat -> marks f m ->
  returned (grover_loop verbose (oracle_matrix f) range
              {| _n := n; _state := map RtoC (peak (2 ^ n) m (fst ab) (snd ab)) |}) =
  let ab' := Nat.iter (length range) (grover_step (2 ^ n)) ab in
  Ok {| _n := n; _state := map RtoC (peak (2 ^ n) m (fst ab') (snd ab')) |}.
Proof.
  intros Hlen Hf. revert ab. induction range as [|i range IH]; intros ab.
  - reflexivity.
  - cbn [grover_loop]. autorewrite with io.
    rewrite apply_real;
      [|rewrite <- Hlen; apply oracle_matrix_shape | apply peak_length].
    cbn [rbind].
    rewrite r_real
      by (rewrite rmatvec_length, <- Hlen; apply (proj1 (oracle_matrix_shape f))).
    rewrite <- Hlen, (grover_operator_on_peak ab Hf), Hlen.
    autorewrite with io. rewrite IH. cbn [length]. cbv zeta.
    rewrite Nat.iter_succ_r. reflexivity.
Qed.

(** Amplitudes after [k] Grover operators, from numerators. *)
Lemma grover_iter_numerators (p : nat) (c : R) (k : nat) :
  (0 < p)%nat ->
  Nat.iter k (grover_step p) (c, c) =
  (c * IZR (fst (grover_iter_Z (Z.of_nat p) k)) / INR p ^ k,
   c * IZR (snd (grover_iter_Z (Z.of_nat p) k)) / INR p ^ k).
Proof.
  intros Hp. assert (Hp' : INR p <> 0) by (apply not_0_INR; lia).
  induction k as [|k IH].
  - simpl. apply f_equal2; field.
  - rewrite Nat.iter_succ. cbn [grover_iter_Z]. rewrite IH. clear IH.
    destruct (grover_iter_Z (Z.of_nat p) k) as [X Y].
    unfold grover_step, grover_step_Z; cbn [fst snd].
    rewrite !plus_IZR, !mult_IZR, !minus_IZR, <- INR_IZR_INZ.
    cbn [pow].
    assert (Hd : INR p ^ k <> 0) by (apply pow_nonzero; exact Hp').
    revert Hd. generalize (INR p ^ k). revert Hp'. generalize (INR p).
    intros q Hq d Hd.
    apply f_equal2; field; auto.
Qed.
End GroverFacts.

Section IterationCount.
Import Algorithms.
Local Open Scope R_scope.

Lemma PI_bounds : 3.13 < PI < 3.15.
Proof.
  pose proof (PI_2_3_7_ineq 0) as [Hlo _].
  pose proof (PI_2_3_7_ineq 1) as [_ Hhi].
  unfold sum_f_R0, tg_alt, PI_2_3_7_tg, Ratan_seq in Hlo, Hhi.
  simpl in Hlo, Hhi. lra.
Qed.

Lemma sqrt_bounds (x lo hi : R) :
  0 <= lo -> 0 <= hi -> lo * lo < x -> x < hi * hi -> lo < sqrt x < hi.
Proof.
  intros Hlo Hhi H1 H2.
  assert (Hx : 0 <= x) by nra.
  pose proof (sqrt_pos x) as Hs. pose proof (sqrt_sqrt x Hx) as Hss.
  split; nra.
Qed.

Lemma Int_part_bounds (r : R) (z : Z) : IZR z <= r < IZR z + 1 -> Int_part r = z.
Proof. intros H. symmetry. apply Int_part_spec. lra. Qed.

(** [k = floor (pi * sqrt (2 ^ n) / 4)] for 2 to 7 qubits. *)
Lemma grover_iterations_values :
  grover_iterations 2 = 1%Z /\ grover_iterations 3 = 2%Z /\
  grover_iterations 4 = 3%Z /\ grover_iterations 5 = 4%Z /\
  grover_iterations 6 = 6%Z /\ grover_iterations 7 = 8%Z.
Proof.
  pose proof PI_bounds as HPI.
  unfold grover_iterations.
  repeat split; apply Int_part_bounds.
  - change (2 ^ 2)%Z with 4%Z.
    assert (H : 1.99 < sqrt 4 < 2.01) by (apply sqrt_bounds; lra). nra.
  - change (2 ^ 3)%Z with 8%Z.
    assert (H : 2.82 < sqrt 8 < 2.83) by (apply sqrt_bounds; lra). nra.
  - change (2 ^ 4)%Z with 16%Z.
    assert (H : 3.99 < sqrt 16 < 4.01) by (apply sqrt_bounds; lra). nra.
  - change (2 ^ 5)%Z with 32%Z.
    assert (H : 5.65 < sqrt 32 < 5.66) by (apply sqrt_bounds; lra). nra.
  - change (2 ^ 6)%Z with 64%Z.
    assert (H : 7.99 < sqrt 64 < 8.01) by (apply sqrt_bounds; lra). nra.
  - change (2 ^ 7)%Z with 128%Z.
    assert (H : 11.31 < sqrt 128 < 11.32) by (apply sqrt_bounds; lra). nra.
Qed.
End IterationCount.

Section GroverDriverFacts.
Import Utils QuantumRegister Algorithms.
Local Open Scope R_scope.

Lemma marks_binary (f : list Z) (m : nat) : marks f m -> binary f.
Proof.
  intros [_ Hf]. apply Forall_forall. intros v Hv.
  apply (In_nth _ _ 0%Z) in Hv as [j [Hj <-]].
  rewrite Hf by exact Hj. destruct (Nat.eqb j m); auto.
Qed.

Lemma grover_circuit_returned (n : nat) (f : list Z) (m : nat) (verbose : Z) :
  (1 <= n)%nat -> length f = (2 ^ n)%nat -> marks f m ->
  returned (grover_circuit f verbose) =
  let ab := Nat.iter (Z.to_nat (grover_iterations (Z.of_nat n))) (grover_step (2 ^ n))
                     (SQRT1_2 ^ n, SQRT1_2 ^ n) in
  Ok (Z.of_nat n, {| _n := n; _state := map RtoC (peak (2 ^ n) m (fst ab) (snd ab)) |}).
Proof.
  intros Hn Hlen Hf. unfold grover_circuit.
  autorewrite with io.
  rewrite (length_pow2_Z f n Hlen), log2_pow2.
  autorewrite with io.
  rewrite (phase_oracle_binary (marks_binary Hf)).
  autorewrite with io.
  rewrite Nat2Z.id, init_zero_qubits by lia.
  autorewrite with io.
  rewrite h_real by apply onehot_length. rewrite rmatvec_had_onehot_0.
  autorewrite with io.
  rewrite <- (peak_const (2 ^ n) m).
  rewrite (@grover_loop_returned n f m verbose _ (SQRT1_2 ^ n, SQRT1_2 ^ n) Hlen Hf).
  cbv zeta. rewrite length_seq.
  autorewrite with io. reflexivity.
Qed.

Lemma square_peak (p m : nat) (a b : R) :
  square (peak p m a b) = peak p m (a * a) (b * b).
Proof.
  unfold square, peak. rewrite map_map. apply map_ext. intros j.
  destruct (Nat.eqb m j); reflexivity.
Qed.

(** The marked amplitude dominates as soon as its numerator does. *)
Lemma grover_dominates (p : nat) (c : R) (k : nat) :
  (0 < p)%nat -> c <> 0 ->
  (snd (grover_iter_Z (Z.of_nat p) k) * snd (grover_iter_Z (Z.of_nat p) k) <
   fst (grover_iter_Z (Z.of_nat p) k) * fst (grover_iter_Z (Z.of_nat p) k))%Z ->
  let ab := Nat.iter k (grover_step p) (c, c) in
  snd ab * snd ab < fst ab * fst ab.
Proof.
  intros Hp Hc HZ. cbv zeta. rewrite grover_iter_numerators by exact Hp.
  cbn [fst snd]. apply IZR_lt in HZ. rewrite !mult_IZR in HZ.
  assert (Hd : INR p ^ k <> 0) by (apply pow_nonzero, not_0_INR; lia).
  set (X := IZR (fst (grover_iter_Z (Z.of_nat p) k))) in *.
  set (Y := IZR (snd (grover_iter_Z (Z.of_nat p) k))) in *.
  clearbody X Y. revert Hd. generalize (INR p ^ k). intros d Hd.
  assert (Hq : 0 < (c / d) * (c / d)).
  { assert (c / d <> 0) by (unfold Rdiv; apply Rmult_integral_contrapositive_currified;
                            [exact Hc | apply Rinv_neq_0_compat; exact Hd]).
    nra. }
  replace (c * Y / d * (c * Y / d)) with (c / d * (c / d) * (Y * Y)) by (field; exact Hd).
  replace (c * X / d * (c * X / d)) with (c / d * (c / d) * (X * X)) by (field; exact Hd).
  apply Rmult_lt_compat_l; assumption.
Qed.

Lemma grover_returned (n : nat) (f : list Z) (m : nat) (verbose : Z) :
  (1 <= n)%nat -> length f = (2 ^ n)%nat -> marks f m ->
  (let xy := grover_iter_Z (2 ^ Z.of_nat n) (Z.to_nat (grover_iterations (Z.of_nat n))) in
   snd xy * snd xy < fst xy * fst xy)%Z ->
  returned (grover_algorithm f verbose) = Ok (padded n (N.of_nat m)).
Proof.
  intros Hn Hlen Hf HZ. rewrite grover_split, returned_bind.
  rewrite (grover_circuit_returned verbose Hn Hlen Hf). cbv zeta.
  unfold grover_readout. autorewrite with io.
  cbn [fst snd]. unfold real, state; cbn [_state].
  rewrite map_Re_RtoC, square_peak.
  assert (Hm : (m < 2 ^ n)%nat) by (rewrite <- Hlen; apply Hf).
  rewrite argmax_peak; [|exact Hm|].
  - cbn [rbind]. rewrite map_int_format_0nb. autorewrite with io. reflexivity.
  - apply grover_dominates.
    + lia.
    + apply pow_nonzero. pose proof SQRT1_2_pos. lra.
    + rewrite pow2_nat_Z. exact HZ.
Qed.

(** After the iterations that the driver makes for 2 to 7 qubits the marked
    amplitude dominates. *)
Lemma grover_dominates_2_7 (n : nat) :
  (2 <= n <= 7)%nat ->
  let xy := grover_iter_Z (2 ^ Z.of_nat n) (Z.to_nat (grover_iterations (Z.of_nat n))) in
  (snd xy * snd xy < fst xy * fst xy)%Z.
Proof.
  intros Hn.
  destruct grover_iterations_values as (K2 & K3 & K4 & K5 & K6 & K7).
  assert (Hcases : n = 2%nat \/ n = 3%nat \/ n = 4%nat \/ n = 5%nat \/ n = 6%nat \/ n = 7%nat)
    by lia.
  destruct Hcases as [-> | [-> | [-> | [-> | [-> | ->]]]]]; cbv zeta.
  - change (Z.of_nat 2) with 2%Z. rewrite K2. vm_compute. reflexivity.
  - change (Z.of_nat 3) with 3%Z. rewrite K3. vm_compute. reflexivity.
  - change (Z.of_nat 4) with 4%Z. rewrite K4. vm_compute. reflexivity.
  - change (Z.of_nat 5) with 5%Z. rewrite K5. vm_compute. reflexivity.
  - change (Z.of_nat 6) with 6%Z. rewrite K6. vm_compute. reflexivity.
  - change (Z.of_nat 7) with 7%Z. rewrite K7. vm_compute. reflexivity.
Qed.
End GroverDriverFacts.

Section OutputFacts.

Lemma output_bind {A B} (m : io A) (k : A -> io B) :
  output (bind m k) =
  output m ++ match returned m with Ok a => output (k a) | Raise _ => [] end.
Proof.
  destruct m as [out [a|e]]; cbn [bind output returned fst snd].
  - destruct (k a) as [out' b]. reflexivity.
  - rewrite app_nil_r. reflexivity.
Qed.

Lemma output_lift {A} (m : result A) : output (lift m) = [].
Proof. reflexivity. Qed.

Lemma output_ret {A} (a : A) : output (ret a) = [].
Proof. reflexivity. Qed.

Lemma output_when_print (b : bool) (l : trace_line) :
  output (when b (print l)) = if b then [l] else [].
Proof. destruct b; reflexivity. Qed.

Lemma register_labels_app (a b : list trace_line) :
  register_labels (a ++ b) = register_labels a ++ register_labels b.
Proof. unfold register_labels. apply flat_map_app. Qed.
End OutputFacts.

Section GroverTrace.
Import Utils QuantumRegister Algorithms.
Local Open Scope R_scope.

(** One pass through the body of the loop, on a state of the form that a
    single marked index keeps. *)
Lemma grover_body_on_peak (n : nat) (f : list Z) (m : nat) (ab : R * R) :
  length f = (2 ^ n)%nat -> marks f m ->
  (q <- apply {| _n := n; _state := map RtoC (peak (2 ^ n) m (fst ab) (snd ab)) |}
              (FloatGate (oracle_matrix f)) ;; r q)%result =
  Ok {| _n := n;
        _state := map RtoC (peak (2 ^ n) m (fst (grover_step (2 ^ n) ab))
                                 (snd (grover_step (2 ^ n) ab))) |}.
Proof.
  intros Hlen Hf.
  rewrite apply_real;
    [|rewrite <- Hlen; apply oracle_matrix_shape | apply peak_length].
  cbn [rbind].
  rewrite r_real
    by (rewrite rmatvec_length, <- Hlen; apply (proj1 (oracle_matrix_shape f))).
  rewrite <- Hlen, (grover_operator_on_peak ab Hf), Hlen. reflexivity.
Qed.

(** At the highest verbosity the loop prints one register per pass,
    numbered from 1. *)
Lemma grover_loop_labels (n : nat) (f : list Z) (m : nat) (verbose : Z)
    (range : list nat) (ab : R * R) :
  length f = (2 ^ n)%nat -> marks f m -> (1 < verbose)%Z ->
  register_labels
    (output (grover_loop verbose (oracle_matrix f) range
               {| _n := n; _state := map RtoC (peak (2 ^ n) m (fst ab) (snd ab)) |})) =
  map (fun i => AfterGroverOperator (Z.of_nat i + 1)) range.
Proof.
  intros Hlen Hf Hv. revert ab. induction range as [|i range IH]; intros ab.
  - reflexivity.
  - cbn [grover_loop map]. rewrite output_bind, output_lift, returned_lift.
    rewrite (@grover_body_on_peak n f m ab Hlen Hf). cbn [app].
    rewrite output_bind, output_when_print, returned_when_print.
    replace (1 <? verbose)%Z with true by (symmetry; apply Z.ltb_lt; exact Hv).
    cbn [app]. change (register_labels (?x :: ?l)) with (register_labels [x] ++ register_labels l).
    cbn [register_labels flat_map app]. f_equal. apply IH.
Qed.

Lemma grover_readout_labels (verbose : Z) (nq : Z * QuantumRegister.t) :
  register_labels (output (grover_readout verbose nq)) = [].
Proof.
  unfold grover_readout. rewrite output_bind, output_lift, returned_lift. cbn [app].
  destruct (_ <- argmax _ ;; _)%result as [bits|e]; [|reflexivity].
  rewrite output_bind, output_when_print, returned_when_print, output_ret, app_nil_r.
  destruct (0 <? verbose)%Z; reflexivity.
Qed.

(** What the Grover driver prints at the highest verbosity, up to the
    registers shown: the table, the number of iterations, the qubits, the
    register as built, after the Hadamard gate and after each Grover
    operator. *)
Lemma grover_trace (n : nat) (f : list Z) (m : nat) (verbose : Z) :
  (1 <= n)%nat -> length f = (2 ^ n)%nat -> marks f m -> (1 < verbose)%Z ->
  exists q0 q1 rest,
    output (grover_algorithm f verbose) =
    PrintFunction f :: PrintIterations (grover_iterations (Z.of_nat n)) ::
    PrintQubits (repeat Qubit.zero n) ::
    PrintRegister InitialRegister q0 :: PrintRegister AfterHadamard q1 :: rest /\
    register_labels rest =
    map (fun i => AfterGroverOperator (Z.of_nat i + 1))
        (seq 0 (Z.to_nat (grover_iterations (Z.of_nat n)))).
Proof.
  intros Hn Hlen Hf Hv.
  assert (H1 : (1 <? verbose)%Z = true) by (apply Z.ltb_lt; exact Hv).
  assert (H0 : (0 <? verbose)%Z = true) by (apply Z.ltb_lt; lia).
  rewrite grover_split, output_bind.
  rewrite (grover_circuit_returned verbose Hn Hlen Hf). cbv zeta.
  unfold grover_circuit.
  repeat first
    [ rewrite output_bind
    | rewrite output_lift
    | rewrite output_when_print
    | rewrite returned_lift
    | rewrite returned_when_print
    | rewrite H0 | rewrite H1
    | progress cbn [app] ].
  rewrite (length_pow2_Z f n Hlen), log2_pow2.
  rewrite (phase_oracle_binary (marks_binary Hf)).
  repeat first
    [ rewrite output_bind
    | rewrite output_lift
    | rewrite output_when_print
    | rewrite returned_lift
    | rewrite returned_when_print
    | rewrite H0 | rewrite H1
    | progress cbn [app] ].
  rewrite Nat2Z.id, init_zero_qubits by lia.
  repeat first
    [ rewrite output_bind
    | rewrite output_lift
    | rewrite output_when_print
    | rewrite returned_lift
    | rewrite returned_when_print
    | rewrite H0 | rewrite H1
    | progress cbn [app] ].
  rewrite h_real by apply onehot_length. rewrite rmatvec_had_onehot_0.
  repeat first
    [ rewrite output_bind
    | rewrite output_lift
    | rewrite output_when_print
    | rewrite returned_lift
    | rewrite returned_when_print
    | rewrite H0 | rewrite H1
    | progress cbn [app] ].
  do 3 eexists. split; [reflexivity|].
  rewrite !register_labels_app.
  rewrite <- (peak_const (2 ^ n) m).
  rewrite (@grover_loop_labels n f m verbose _ (SQRT1_2 ^ n, SQRT1_2 ^ n) Hlen Hf Hv).
  rewrite (@grover_loop_returned n f m verbose _ (SQRT1_2 ^ n, SQRT1_2 ^ n) Hlen Hf).
  cbv zeta. cbv beta iota. rewrite output_ret.
  rewrite grover_readout_labels. cbn [register_labels flat_map].
  rewrite !app_nil_r. reflexivity.
Qed.
End GroverTrace.

Section C2.
Import QuantumRegister Algorithms.

(** C2. For every [n] in 2..7 and every truth table [f] of length [2 ^ n]
    whose only one is at index [m], the Grover driver makes
    [k = floor (pi * sqrt (2 ^ n) / 4)] iterations (1, 2, 3, 4, 6 and 8 of
    them): it builds the register, applies the Hadamard gate once and then
    the oracle-then-diffusion pair exactly [k] times, as its trace at the
    highest verbosity shows; the index of the largest squared real amplitude
    of the register it then reads is [m], and it returns the [n] bits of
    [m], most significant first. *)
Theorem grover_finds_marked_index (n : nat) (f : list Z) (m : nat) (verbose : Z) :
  (2 <= n <= 7)%nat -> length f = (2 ^ n)%nat -> marks f m ->
  let k := grover_iterations (Z.of_nat n) in
  (IZR k <= PI * sqrt (2 ^ n) / 4 < IZR k + 1)%R /\
  In (n, k) [(2%nat, 1%Z); (3%nat, 2%Z); (4%nat, 3%Z); (5%nat, 4%Z); (6%nat, 6%Z);
             (7%nat, 8%Z)] /\
  (exists q0 q1 rest,
     output (grover_algorithm f 2) =
     PrintFunction f :: PrintIterations k :: PrintQubits (repeat Qubit.zero n) ::
     PrintRegister InitialRegister q0 :: PrintRegister AfterHadamard q1 :: rest /\
     register_labels rest =
     map (fun i => AfterGroverOperator (Z.of_nat i + 1)) (seq 0 (Z.to_nat k))) /\
  (exists reg,
     returned (grover_circuit f verbose) = Ok (Z.of_nat n, reg) /\
     argmax (square (real reg)) = Ok m) /\
  exists bits,
    returned (grover_algorithm f verbose) = Ok bits /\
    length bits = n /\ binary bits /\ bits_value bits = Z.of_nat m.
Proof.
  intros Hn Hlen Hf k.
  assert (Hm : (m < 2 ^ n)%nat) by (rewrite <- Hlen; apply Hf).
  assert (Hn1 : (1 <= n)%nat) by lia.
  pose proof (grover_dominates_2_7 Hn) as HZ. cbv zeta in HZ.
  split; [|split; [|split; [|split]]].
  - unfold k, grover_iterations. rewrite pow_IZR.
    pose proof (base_Int_part (PI * sqrt (IZR (2 ^ Z.of_nat n)) / 4)) as [H1 H2].
    split; lra.
  - destruct grover_iterations_values as (K2 & K3 & K4 & K5 & K6 & K7).
    assert (Hcases : n = 2%nat \/ n = 3%nat \/ n = 4%nat \/ n = 5%nat \/ n = 6%nat \/ n = 7%nat)
      by lia.
    unfold k. cbn [In].
    destruct Hcases as [-> | [-> | [-> | [-> | [-> | ->]]]]].
    + change (Z.of_nat 2) with 2%Z. rewrite K2. auto.
    + change (Z.of_nat 3) with 3%Z. rewrite K3. auto.
    + change (Z.of_nat 4) with 4%Z. rewrite K4. auto.
    + change (Z.of_nat 5) with 5%Z. rewrite K5. auto 6.
    + change (Z.of_nat 6) with 6%Z. rewrite K6. auto 7.
    + change (Z.of_nat 7) with 7%Z. rewrite K7. auto 8.
  - apply (@grover_trace n f m 2 Hn1 Hlen Hf). lia.
  - eexists. split; [apply (grover_circuit_returned verbose Hn1 Hlen Hf)|].
    cbv zeta. unfold real, state; cbn [_state].
    rewrite map_Re_RtoC, square_peak. apply argmax_peak; [exact Hm|].
    apply grover_dominates.
    + lia.
    + apply pow_nonzero. pose proof SQRT1_2_pos. lra.
    + rewrite pow2_nat_Z. exact HZ.
  - exists (padded n (N.of_nat m)).
    assert (Hpad : length (padded n (N.of_nat m)) = n /\ binary (padded n (N.of_nat m)) /\
                   bits_value (padded n (N.of_nat m)) = Z.of_N (N.of_nat m)).
    { apply padded_spec; [lia|]. rewrite nat_N_Z, <- pow2_nat_Z. lia. }
    rewrite nat_N_Z in Hpad. split; [|exact Hpad].
    apply grover_returned; [lia | exact Hlen | exact Hf | exact HZ].
Qed.

Lemma grover_finds_marked_index_witness :
  exists bits,
    returned (grover_algorithm [0; 0; 0; 1]%Z 0) = Ok bits /\
    length bits = 2%nat /\ binary bits /\ bits_value bits = 3%Z.
Proof.
  apply (@grover_finds_marked_index 2 [0; 0; 0; 1]%Z 3 0).
  - lia.
  - reflexivity.
  - split; [simpl; lia|].
    intros [|[|[|[|j]]]] Hj; try reflexivity. simpl in Hj. lia.
Defined.
End C2.

Section HadamardInvolution.
Import Utils.
Local Open Scope R_scope.

Lemma rdot_comm (a b : vector R) : rdot a b = rdot b a.
Proof.
  revert b; induction a as [|x a IH]; intros [|y b]; simpl; try reflexivity.
  rewrite IH. ring.
Qed.

Lemma rdot_map_lincomb {A} (rb : vector R) (c1 c2 : R) (F G : A -> R) (l : list A) :
  rdot rb (map (fun r => c1 * F r + c2 * G r) l) =
  c1 * rdot rb (map F l) + c2 * rdot rb (map G l).
Proof.
  revert rb; induction l as [|r l IH]; intros [|x rb]; simpl; try ring.
  rewrite IH. ring.
Qed.

(** Applying the Hadamard matrix twice gives the vector back. *)
Lemma had_involutive (n : nat) (v : vector R) :
  length v = (2 ^ n)%nat -> rmatvec (had n) (rmatvec (had n) v) = v.
Proof.
  revert v; induction n as [|n IH]; intros v Hlen.
  - destruct v as [|x [|y v]]; try discriminate.
    unfold rmatvec; simpl. f_equal. ring.
  - rewrite Nat.pow_succ_r' in Hlen.
    rewrite <- (firstn_skipn (2 ^ n) v).
    set (v0 := firstn (2 ^ n) v). set (v1 := skipn (2 ^ n) v).
    assert (H0 : length v0 = (2 ^ n)%nat) by (unfold v0; rewrite length_firstn; lia).
    assert (H1 : length v1 = (2 ^ n)%nat) by (unfold v1; rewrite length_skipn; lia).
    clearbody v0 v1.
    destruct (had_shape n) as [Hrows Hcols].
    rewrite had_S, rmatvec_kron_H2 by (rewrite H0; exact Hcols).
    rewrite rmatvec_kron_H2
      by (eapply Forall_impl; [|exact Hcols]; intros row Hrow; rewrite length_map, Hrow; symmetry; exact Hrows).
    assert (Hs := SQRT1_2_sqr).
    assert (E0 : forall rb,
      rdot rb (map (fun r => SQRT1_2 * rdot r v0 + SQRT1_2 * rdot r v1) (had n)) =
      SQRT1_2 * rdot rb (rmatvec (had n) v0) + SQRT1_2 * rdot rb (rmatvec (had n) v1)).
    { intros rb. apply rdot_map_lincomb. }
    assert (E1 : forall rb,
      rdot rb (map (fun r => SQRT1_2 * rdot r v0 - SQRT1_2 * rdot r v1) (had n)) =
      SQRT1_2 * rdot rb (rmatvec (had n) v0) - SQRT1_2 * rdot rb (rmatvec (had n) v1)).
    { intros rb.
      rewrite (map_ext _ (fun r => SQRT1_2 * rdot r v0 + (- SQRT1_2) * rdot r v1))
        by (intros; ring).
      rewrite rdot_map_lincomb. unfold rmatvec. ring. }
    f_equal.
    + transitivity (rmatvec (had n) (rmatvec (had n) v0)); [|apply IH; exact H0].
      unfold rmatvec at 1.
      apply map_ext. intros rb. rewrite E0, E1.
      transitivity (2 * (SQRT1_2 * SQRT1_2) * rdot rb (rmatvec (had n) v0)); [ring|].
      rewrite Hs. field.
    + transitivity (rmatvec (had n) (rmatvec (had n) v1)); [|apply IH; exact H1].
      unfold rmatvec at 1.
      apply map_ext. intros rb. rewrite E0, E1.
      transitivity (2 * (SQRT1_2 * SQRT1_2) * rdot rb (rmatvec (had n) v1)); [ring|].
      rewrite Hs. field.
Qed.

Lemma rmatvec_onehot (g : matrix R) (p j : nat) :
  (j < p)%nat -> rmatvec g (onehot p j) = column j g.
Proof.
  intros Hj. unfold rmatvec, column. apply map_ext. intros row.
  rewrite rdot_comm. unfold onehot. rewrite rdot_single. simpl.
  destruct (Nat.ltb_spec j p); [|lia]. rewrite Nat.sub_0_r. ring.
Qed.

Lemma nth_rmatvec (g : matrix R) (v : vector R) (i : nat) :
  nth i (rmatvec g v) 0 = rdot (nth i g []) v.
Proof.
  unfold rmatvec.
  change 0 with ((fun row => rdot row v) []) at 1.
  apply map_nth.
Qed.

(** [hadamard(p) @ hadamard(p)] is the identity matrix. *)
Lemma had_self_inverse (n : nat) : matmul (had n) (had n) (2 ^ n) = eye (2 ^ n).
Proof.
  destruct (had_shape n) as [Hrows Hcols].
  unfold matmul, eye.
  rewrite (tabulate_nth (had n) []) at 1. rewrite Hrows, map_map.
  apply map_seq_ext. intros i Hi. apply map_seq_ext. intros j Hj.
  rewrite <- nth_rmatvec, <- (@rmatvec_onehot (had n) (2 ^ n) j) by lia.
  rewrite had_involutive by apply onehot_length.
  unfold onehot. rewrite nth_map_seq by lia.
  rewrite Nat.eqb_sym. reflexivity.
Qed.
End HadamardInvolution.

(* ===================================================================== *)
(** * The Hadamard matrices in binary64 *)
(* ===================================================================== *)

Section Float64Unfolding.
Import Utils.

Lemma hadamard_b64_unfold (p : Z) :
  Float64.hadamard p =
  match log2 p with
  | Raise e => Raise e
  | Ok n =>
      if (1 <? n)%Z then
        (h2 <- Float64.hadamard 2 ;; hp <- Float64.hadamard (p / 2) ;;
         Ok (Float64.kron h2 hp))%result
      else if (n =? 1)%Z then Ok H2_b64 else Ok [[PrimFloat.one]]
  end.
Proof.
  rewrite Float64.hadamard_equation_1. unfold inspect.
  assert (G : forall (r : result Z) (E : log2 p = r),
    Float64.hadamard_unfold_clause_1 p (exist _ r E) =
    match r with
    | Raise e => Raise e
    | Ok n =>
        if (1 <? n)%Z then
          (h2 <- Float64.hadamard 2 ;; hp <- Float64.hadamard (p / 2) ;;
           Ok (Float64.kron h2 hp))%result
        else if (n =? 1)%Z then Ok H2_b64 else Ok [[PrimFloat.one]]
    end).
  { intros [n|e] E;
      [rewrite Float64.hadamard_clause_1_equation_1
      |rewrite Float64.hadamard_clause_1_equation_2; reflexivity].
    unfold inspect.
    assert (G : forall (b : bool) (Eb : (1 <? n)%Z = b),
      Float64.hadamard_unfold_clause_1_clause_2 p (exist _ b Eb) E =
      if b then
        (h2 <- Float64.hadamard 2 ;; hp <- Float64.hadamard (p / 2) ;;
         Ok (Float64.kron h2 hp))%result
      else if (n =? 1)%Z then Ok H2_b64 else Ok [[PrimFloat.one]]).
    { remember (Float64.hadamard 2) as r2 eqn:E2.
      remember (Float64.hadamard (p / 2)) as rp eqn:Ep.
      intros [|] Eb; [|rewrite Float64.hadamard_clause_1_clause_2_equation_2; reflexivity].
      rewrite Float64.hadamard_clause_1_clause_2_equation_1.
      rewrite <- E2.
      destruct r2 as [h2|e];
        [rewrite Float64.hadamard_clause_1_clause_2_clause_1_equation_1
        |rewrite Float64.hadamard_clause_1_clause_2_clause_1_equation_2; reflexivity].
      rewrite <- Ep.
      destruct rp as [hp|e];
        [rewrite Float64.hadamard_clause_1_clause_2_clause_1_clause_2_equation_1
        |rewrite Float64.hadamard_clause_1_clause_2_clause_1_clause_2_equation_2];
        reflexivity. }
    apply G. }
  apply G.
Qed.

Lemma hadamard_b64_pow2 (n : nat) : Float64.hadamard (2 ^ Z.of_nat n) = Ok (had_b64 n).
Proof.
  induction n as [|n IH].
  - rewrite hadamard_b64_unfold. reflexivity.
  - destruct n as [|n]; [rewrite hadamard_b64_unfold; reflexivity|].
    rewrite hadamard_b64_unfold, log2_pow2.
    destruct (Z.ltb_spec 1 (Z.of_nat (S (S n)))); [|lia].
    replace (Float64.hadamard 2) with (Ok H2_b64)
      by (symmetry; rewrite hadamard_b64_unfold; reflexivity).
    replace (2 ^ Z.of_nat (S (S n)) / 2)%Z with (2 ^ Z.of_nat (S n))%Z.
    + rewrite IH. reflexivity.
    + rewrite (Nat2Z.inj_succ (S n)), Z.pow_succ_r by lia.
      rewrite Z.mul_comm, Z.div_mul by lia. reflexivity.
Qed.
End Float64Unfolding.

Section KroneckerSigns.

(** The three Kronecker products (of reals, of binary64 numbers, of signs)
    have one shape: a map between the entries that respects the products
    respects the Kronecker products. *)
Lemma kron_row_map {A B C A' B' C'} (op : A -> B -> C) (op' : A' -> B' -> C')
    (f : A -> A') (g : B -> B') (h : C -> C') (ra : list A) (rb : list B) :
  (forall a b, op' (f a) (g b) = h (op a b)) ->
  flat_map (fun a' => map (op' a') (map g rb)) (map f ra) =
  map h (flat_map (fun a => map (op a) rb) ra).
Proof.
  intros H. induction ra as [|a ra IH]; cbn [map flat_map]; [reflexivity|].
  rewrite map_app, IH. f_equal. rewrite !map_map. apply map_ext. intros b. apply H.
Qed.

Lemma kron_map {A B C A' B' C'} (op : A -> B -> C) (op' : A' -> B' -> C')
    (f : A -> A') (g : B -> B') (h : C -> C') (X : matrix A) (Y : matrix B) :
  (forall a b, op' (f a) (g b) = h (op a b)) ->
  flat_map (fun ra => map (fun rb => flat_map (fun a => map (op' a) rb) ra)
                          (map (map g) Y)) (map (map f) X) =
  map (map h) (flat_map (fun ra => map (fun rb => flat_map (fun a => map (op a) rb) ra) Y) X).
Proof.
  intros H. induction X as [|ra X IH]; cbn [map flat_map]; [reflexivity|].
  rewrite map_app, IH. f_equal. rewrite !map_map. apply map_ext. intros rb.
  apply kron_row_map. exact H.
Qed.

Lemma signed_mult (c d : R) (a b : bool) :
  (signed c a * signed d b = signed (c * d) (xorb a b))%R.
Proof. destruct a, b; unfold signed; cbn [xorb]; ring. Qed.

(** The real Hadamard matrix: its signs and its one magnitude. *)
Lemma had_signs (n : nat) :
  had n = map (map (signed (Utils.SQRT1_2 ^ n))) (signs n).
Proof.
  induction n as [|n IH].
  - unfold signed; simpl. repeat f_equal; ring.
  - destruct n as [|n].
    + unfold had, H2, signed; cbn [map signs]. repeat f_equal; ring.
    + change (had (S (S n))) with (kron H2 (had (S n))).
      change (signs (S (S n))) with (kron_signs [[false; false]; [false; true]] (signs (S n))).
      rewrite IH.
      replace H2 with (map (map (signed Utils.SQRT1_2)) [[false; false]; [false; true]])
        by (unfold H2, signed; cbn [map]; repeat f_equal; ring).
      unfold kron, kron_signs.
      apply (kron_map xorb Rmult). intros a b.
      rewrite signed_mult. reflexivity.
Qed.
End KroneckerSigns.

Section Binary64Entries.
Local Open Scope R_scope.

Ltac entry_facts_at :=
  split;
  [ intros [|] [|]; vm_compute; reflexivity
  | eexists; eexists; split; [vm_compute; reflexivity|];
    split; vm_compute; reflexivity ].

Lemma entry_facts_64 (n : nat) : (n <= 64)%nat -> entry_facts n.
Proof.
  intros Hn.
  do 65 (destruct n as [|n]; [entry_facts_at|]).
  lia.
Qed.
End Binary64Entries.

Section Binary64Hadamard.
Import Utils.
Local Open Scope R_scope.

Lemma entry_b64_S (n : nat) :
  (1 <= n)%nat -> entry_b64 (S n) = PrimFloat.mul (entry_b64 1) (entry_b64 n).
Proof. destruct n as [|n]; [lia|]. intros _. reflexivity. Qed.

(** In binary64 every entry of [hadamard (2 ^ n)] is the one magnitude
    [entry_b64 n] with the sign of the real Hadamard matrix. *)
Lemma had_b64_signs (n : nat) :
  (n <= 64)%nat -> had_b64 n = map (map (signed_b64 (entry_b64 n))) (signs n).
Proof.
  induction n as [|n IH]; intros Hn.
  - reflexivity.
  - destruct n as [|n].
    + vm_compute. reflexivity.
    + change (had_b64 (S (S n))) with (Float64.kron H2_b64 (had_b64 (S n))).
      change (signs (S (S n))) with (kron_signs [[false; false]; [false; true]] (signs (S n))).
      rewrite IH by lia.
      replace H2_b64 with (map (map (signed_b64 (entry_b64 1))) [[false; false]; [false; true]])
        by (vm_compute; reflexivity).
      unfold Float64.kron, kron_signs.
      apply (kron_map xorb PrimFloat.mul). intros a b.
      rewrite (@entry_b64_S (S n)) by lia.
      assert (Hn1 : (S n <= 64)%nat) by lia.
      apply (proj1 (entry_facts_64 Hn1)).
Qed.

Lemma F2R_finite (x : PrimFloat.float) (s : bool) (m : positive) (e : Z) :
  FloatOps.Prim2SF x = SpecFloat.S754_finite s m e ->
  finite x /\ F2R x = (if s then -1 else 1) * IZR (Zpos m) * powerRZ 2 e.
Proof. intros H. unfold finite, F2R. rewrite H. split; [exact I | reflexivity]. Qed.

Lemma powerRZ_2_pos (e : Z) : 0 < powerRZ 2 e.
Proof. apply powerRZ_lt. lra. Qed.

(** The computed check, read in the reals. *)
Lemma tol_check_sound (m : positive) (e : Z) (n : nat) :
  tol_check m e n = true ->
  Rabs ((IZR (Zpos m) * powerRZ 2 e) * (IZR (Zpos m) * powerRZ 2 e) * 2 ^ n - 1)
  <= hadamard_tol.
Proof.
  unfold tol_check, hadamard_tol. cbv zeta.
  set (E := (- (2 * e + Z.of_nat n))%Z).
  intros H. apply andb_true_iff in H. destruct H as [HE Hc].
  apply Z.leb_le in HE. apply Z.leb_le in Hc.
  assert (HP : 0 < IZR (2 ^ E)) by (apply IZR_lt, Z.pow_pos_nonneg; lia).
  assert (Epow : powerRZ 2 e * powerRZ 2 e * 2 ^ n = / IZR (2 ^ E)).
  { rewrite pow_powerRZ, <- !powerRZ_add by lra.
    replace (e + e + Z.of_nat n)%Z with (- E)%Z by (unfold E; lia).
    rewrite powerRZ_neg' by lra. f_equal.
    assert (Hk : forall k : nat, powerRZ 2 (Z.of_nat k) = IZR (2 ^ Z.of_nat k))
      by (intros k; rewrite <- pow_powerRZ, pow_IZR; reflexivity).
    rewrite <- (Z2Nat.id E HE). apply Hk. }
  replace (IZR (Z.pos m) * powerRZ 2 e * (IZR (Z.pos m) * powerRZ 2 e) * 2 ^ n - 1)
    with (IZR (Z.pos m * Z.pos m - 2 ^ E) / IZR (2 ^ E)).
  - unfold Rdiv. rewrite Rabs_mult, (Rabs_right (/ IZR (2 ^ E)))
      by (apply Rle_ge, Rlt_le, Rinv_0_lt_compat; exact HP).
    rewrite <- abs_IZR.
    apply IZR_le in Hc. rewrite mult_IZR in Hc.
    assert (H13 : IZR (10 ^ 13) = 10 ^ 13)
      by (change (10 ^ 13)%Z with (10 ^ Z.of_nat 13)%Z; rewrite <- pow_IZR; reflexivity).
    rewrite H13 in Hc. clear H13.
    assert (H10 : 0 < 10 ^ 13) by (apply pow_lt; lra).
    apply (Rmult_le_reg_r (IZR (2 ^ E) * 10 ^ 13)); [nra|].
    replace (IZR (Z.abs (Z.pos m * Z.pos m - 2 ^ E)) * / IZR (2 ^ E) * (IZR (2 ^ E) * 10 ^ 13))
      with (IZR (Z.abs (Z.pos m * Z.pos m - 2 ^ E)) * 10 ^ 13) by (field; lra).
    replace (1 * / 10 ^ 13 * (IZR (2 ^ E) * 10 ^ 13)) with (IZR (2 ^ E)) by (field; lra).
    exact Hc.
  - rewrite minus_IZR, mult_IZR.
    transitivity (IZR (Z.pos m) * IZR (Z.pos m) * (powerRZ 2 e * powerRZ 2 e * 2 ^ n) - 1);
      [rewrite Epow; field; lra | ring].
Qed.
End Binary64Hadamard.

Section ScaledHadamard.
Import Utils.
Local Open Scope R_scope.

Lemma column_scale (c : R) (j : nat) (A : matrix R) :
  column j (map (map (Rmult c)) A) = map (Rmult c) (column j A).
Proof.
  unfold column. rewrite !map_map. apply map_ext. intros row.
  replace 0 with (c * 0) at 1 by ring. apply map_nth.
Qed.

Lemma matmul_scale (c : R) (A : matrix R) (k : nat) :
  matmul (map (map (Rmult c)) A) (map (map (Rmult c)) A) k =
  map (map (Rmult (c * c))) (matmul A A k).
Proof.
  unfold matmul. rewrite !map_map. apply map_ext. intros row.
  rewrite map_map. apply map_ext. intros j.
  rewrite column_scale, rdot_scale_l, rdot_scale_r. ring.
Qed.

Lemma nth_scaled_eye (c : R) (p i j : nat) :
  (i < p)%nat -> (j < p)%nat ->
  nth j (nth i (map (map (Rmult c)) (eye p)) []) 0 = c * nth j (nth i (eye p) []) 0.
Proof.
  intros Hi Hj. unfold eye. rewrite map_map.
  rewrite (nth_map_seq _ [] Hi), (nth_map_seq _ [] Hi).
  rewrite map_map, (nth_map_seq _ 0 Hj), (nth_map_seq _ 0 Hj). reflexivity.
Qed.

(** The binary64 Hadamard matrix is the real one scaled. *)
Lemma had_b64_scaled (n : nat) :
  (n <= 64)%nat ->
  exists c : R,
    0 < c /\ Rabs (c * c - 1) <= hadamard_tol /\
    map (map F2R) (had_b64 n) = map (map (Rmult c)) (had n) /\
    Forall (Forall finite) (had_b64 n).
Proof.
  intros Hn.
  destruct (entry_facts_64 Hn) as [_ [m [e [Hpos [Hneg Htol]]]]].
  apply tol_check_sound in Htol.
  set (g := IZR (Z.pos m) * powerRZ 2 e) in *.
  assert (Hg : 0 < g).
  { unfold g. apply Rmult_lt_0_compat; [apply IZR_lt; lia | apply powerRZ_2_pos]. }
  assert (Hs : 0 < SQRT1_2 ^ n) by (apply pow_lt, SQRT1_2_pos).
  assert (Hentry : forall b, finite (signed_b64 (entry_b64 n) b) /\
                             F2R (signed_b64 (entry_b64 n) b) = signed g b).
  { intros [|]; cbn [signed_b64 signed].
    - destruct (@F2R_finite _ _ _ _ Hneg) as [Hf ->]. split; [exact Hf | unfold g; ring].
    - destruct (@F2R_finite _ _ _ _ Hpos) as [Hf ->]. split; [exact Hf | unfold g; ring]. }
  exists (g / SQRT1_2 ^ n). split; [|split; [|split]].
  - apply Rdiv_lt_0_compat; assumption.
  - replace (g / SQRT1_2 ^ n * (g / SQRT1_2 ^ n) - 1) with (g * g * 2 ^ n - 1); [exact Htol|].
    pose proof (SQRT1_2_pow_sqr n) as Hq.
    assert (H2 : 0 < 2 ^ n) by (apply pow_lt; lra).
    replace (g / SQRT1_2 ^ n * (g / SQRT1_2 ^ n))
      with (g * g * / (SQRT1_2 ^ n * SQRT1_2 ^ n)) by (field; lra).
    rewrite Hq, Rinv_inv. reflexivity.
  - rewrite (had_b64_signs Hn), (had_signs n), !map_map.
    apply map_ext. intros row. rewrite !map_map. apply map_ext. intros b.
    rewrite (proj2 (Hentry b)). destruct b; unfold signed; field; lra.
  - rewrite (had_b64_signs Hn). apply Forall_forall. intros row Hrow.
    apply in_map_iff in Hrow as [srow [<- _]].
    apply Forall_forall. intros x Hx. apply in_map_iff in Hx as [b [<- _]].
    apply Hentry.
Qed.

Lemma had_b64_shape (n : nat) : shaped (had_b64 n) (2 ^ n) (2 ^ n).
Proof.
  assert (G : forall A B : matrix PrimFloat.float,
             forall r c r' c', shaped A r c -> shaped B r' c' ->
                               shaped (Float64.kron A B) (r * r') (c * c')).
  { intros A B r c r' c' [HA1 HA2] [HB1 HB2]. unfold Float64.kron. split.
    - subst r. clear HA2.
      induction A as [|ra A IH]; [reflexivity|].
      cbn [flat_map]. rewrite length_app, length_map, HB1.
      cbn [length Nat.mul]. f_equal. exact IH.
    - apply Forall_forall. intros row Hrow.
      apply in_flat_map in Hrow as [ra [Hra Hrow]].
      apply in_map_iff in Hrow as [rb [<- Hrb]].
      rewrite Forall_forall in HA2, HB2.
      specialize (HA2 _ Hra). specialize (HB2 _ Hrb). subst c c'.
      clear. induction ra as [|a ra IH]; [reflexivity|].
      cbn [flat_map]. rewrite length_app, length_map.
      cbn [length Nat.mul]. f_equal. exact IH. }
  induction n as [|n IH].
  - split; [reflexivity | repeat constructor].
  - destruct n as [|n].
    + split; [reflexivity | repeat constructor].
    + change (had_b64 (S (S n))) with (Float64.kron H2_b64 (had_b64 (S n))).
      replace (2 ^ S (S n))%nat with (2 * 2 ^ S n)%nat by (rewrite (Nat.pow_succ_r' 2 (S n)); lia).
      apply G; [split; [reflexivity | repeat constructor] | exact IH].
Qed.
End ScaledHadamard.

Section C6.
Import Utils.
Local Open Scope R_scope.

(** C6 (as the code has it). The entries of [hadamard(p)] are binary64
    numbers, each a rounded product of [SQRT1_2]s, so that the matrix is
    self-inverse and has entries of magnitude [1 / sqrt p] only up to
    rounding.  For [p = 2 ^ n] with [n <= 64], [hadamard(p)] returns the
    matrix [H] of the recursion [H(1) = [[1]]],
    [H(2) = SQRT1_2 * [[1, 1], [1, -1]]], [H(p) = kron(H(2), H(p / 2))]
    ([had_b64]), a [p] x [p] array of finite numbers such that the product
    of [H] with itself, taken exactly on the values of its entries, is
    within [1 / 10 ^ 13] of the identity in every entry, and every entry has
    a magnitude within [1 / 10 ^ 13] of [1 / sqrt p]. *)
Theorem hadamard_self_inverse_unit_entries (n : nat) :
  (n <= 64)%nat ->
  exists H : matrix PrimFloat.float,
    Float64.hadamard (2 ^ Z.of_nat n) = Ok H /\
    H = had_b64 n /\
    shaped H (2 ^ n) (2 ^ n) /\
    Forall (Forall finite) H /\
    (forall i j, (i < 2 ^ n)%nat -> (j < 2 ^ n)%nat ->
       Rabs (nth j (nth i (matmul (map (map F2R) H) (map (map F2R) H) (2 ^ n)) []) 0 -
             nth j (nth i (eye (2 ^ n)) []) 0) <= hadamard_tol) /\
    Forall (Forall (fun x => Rabs (Rabs (F2R x) - 1 / sqrt (2 ^ n)) <= hadamard_tol)) H.
Proof.
  intros Hn. exists (had_b64 n).
  destruct (had_b64_scaled Hn) as [c [Hc [Htol [Hscaled Hfin]]]].
  assert (Hc1 : Rabs (c - 1) <= hadamard_tol).
  { apply Rle_trans with (2 := Htol).
    replace (c * c - 1) with ((c - 1) * (c + 1)) by ring.
    rewrite Rabs_mult, (Rabs_right (c + 1)) by lra.
    pose proof (Rabs_pos (c - 1)). nra. }
  split; [apply hadamard_b64_pow2|]. split; [reflexivity|].
  split; [apply had_b64_shape|]. split; [exact Hfin|]. split.
  - intros i j Hi Hj. rewrite Hscaled, matmul_scale, had_self_inverse.
    rewrite nth_scaled_eye by assumption.
    unfold eye. rewrite (nth_map_seq _ [] Hi), (nth_map_seq _ 0 Hj).
    destruct (Nat.eqb i j).
    + replace (c * c * 1 - 1) with (c * c - 1) by ring. exact Htol.
    + replace (c * c * 0 - 0) with 0 by ring. rewrite Rabs_R0.
      unfold hadamard_tol. apply Rlt_le, Rdiv_lt_0_compat; [lra | apply pow_lt; lra].
  - assert (Hall : Forall (Forall (fun y => Rabs (Rabs y - 1 / sqrt (2 ^ n)) <= hadamard_tol))
                          (map (map F2R) (had_b64 n))).
    { rewrite Hscaled. pose proof (had_entries n) as He.
      apply Forall_map. revert He. apply Forall_impl. intros row He.
      apply Forall_map. revert He. apply Forall_impl. intros x Hx.
      rewrite Rabs_mult, Hx, (Rabs_right c) by lra.
      rewrite <- SQRT1_2_pow.
      assert (Hs : 0 < SQRT1_2 ^ n) by (apply pow_lt, SQRT1_2_pos).
      assert (Hs1 : SQRT1_2 ^ n <= 1).
      { pose proof (SQRT1_2_pow_sqr n) as Hq.
        assert (1 <= 2 ^ n) by (apply pow_R1_Rle; lra).
        assert (/ 2 ^ n <= 1) by (rewrite <- Rinv_1; apply Rinv_le_contravar; lra).
        nra. }
      replace (c * SQRT1_2 ^ n - SQRT1_2 ^ n) with ((c - 1) * SQRT1_2 ^ n) by ring.
      rewrite Rabs_mult, (Rabs_right (SQRT1_2 ^ n)) by lra.
      pose proof (Rabs_pos (c - 1)). nra. }
    rewrite Forall_map in Hall. revert Hall. apply Forall_impl. intros row Hrow.
    rewrite Forall_map in Hrow. exact Hrow.
Qed.

Lemma hadamard_self_inverse_unit_entries_witness :
  exists H : matrix PrimFloat.float,
    Float64.hadamard (2 ^ Z.of_nat 2) = Ok H /\
    H = had_b64 2 /\
    shaped H (2 ^ 2) (2 ^ 2) /\
    Forall (Forall finite) H /\
    (forall i j, (i < 2 ^ 2)%nat -> (j < 2 ^ 2)%nat ->
       Rabs (nth j (nth i (matmul (map (map F2R) H) (map (map F2R) H) (2 ^ 2)) []) 0 -
             nth j (nth i (eye (2 ^ 2)) []) 0) <= hadamard_tol) /\
    Forall (Forall (fun x => Rabs (Rabs (F2R x) - 1 / sqrt (2 ^ 2)) <= hadamard_tol)) H.
Proof. apply (@hadamard_self_inverse_unit_entries 2). lia. Defined.

(** C6 does not hold as the specification states it, with equalities: the
    entries of [hadamard(p)] are rounded.
    The entry of [hadamard(2)] is [6369051672525772 / 2 ^ 53], whose square
    is not [1 / 2]: [hadamard(2) @ hadamard(2)] has
    [2 * (6369051672525772 / 2 ^ 53) ^ 2] on its diagonal and not 1, also
    when the products and the sum are rounded (0.9999999999999998).  The
    entries of [hadamard(4)] have magnitude [9007199254740990 / 2 ^ 54]
    (0.4999999999999999) and not [1 / sqrt 4]. *)
Lemma hadamard_entries_are_rounded :
  exists h2 h4 : matrix PrimFloat.float,
    Float64.hadamard 2 = Ok h2 /\
    Float64.hadamard 4 = Ok h4 /\
    nth 0 (nth 0 (matmul (map (map F2R) h2) (map (map F2R) h2) 2) []) 0 <>
    nth 0 (nth 0 (eye 2) []) 0 /\
    PrimFloat.add
      (PrimFloat.mul (nth 0 (nth 0 h2 []) PrimFloat.zero) (nth 0 (nth 0 h2 []) PrimFloat.zero))
      (PrimFloat.mul (nth 1 (nth 0 h2 []) PrimFloat.zero) (nth 0 (nth 1 h2 []) PrimFloat.zero))
    <> PrimFloat.one /\
    F2R (nth 0 (nth 0 h4 []) PrimFloat.zero) = 9007199254740990 / 2 ^ 54 /\
    Rabs (F2R (nth 0 (nth 0 h4 []) PrimFloat.zero)) <> 1 / sqrt (2 ^ 2).
Proof.
  exists (had_b64 1), (had_b64 2).
  split; [exact (hadamard_b64_pow2 1)|]. split; [exact (hadamard_b64_pow2 2)|].
  assert (Hk : forall k : nat, powerRZ 2 (- Z.of_nat k) = / 2 ^ k).
  { intros k. rewrite powerRZ_neg' by lra. rewrite <- pow_powerRZ. reflexivity. }
  assert (E2 : forall i j, (i < 2)%nat -> (j < 2)%nat ->
            nth j (nth i (map (map F2R) (had_b64 1)) []) 0 =
            (if Nat.eqb (i * j) 1 then -1 else 1) * (6369051672525772 / 2 ^ 53)).
  { assert (Ep : F2R (entry_b64 1) = 6369051672525772 / 2 ^ 53).
    { assert (P : FloatOps.Prim2SF (entry_b64 1) =
                  SpecFloat.S754_finite false 6369051672525772 (- Z.of_nat 53))
        by (vm_compute; reflexivity).
      rewrite (proj2 (@F2R_finite _ _ _ _ P)), Hk. field. }
    assert (En : F2R (PrimFloat.opp (entry_b64 1)) = - (6369051672525772 / 2 ^ 53)).
    { assert (P : FloatOps.Prim2SF (PrimFloat.opp (entry_b64 1)) =
                  SpecFloat.S754_finite true 6369051672525772 (- Z.of_nat 53))
        by (vm_compute; reflexivity).
      rewrite (proj2 (@F2R_finite _ _ _ _ P)), Hk. field. }
    rewrite (@had_b64_signs 1) by lia.
    intros [|[|i]] [|[|j]] Hi Hj; try lia; cbn [signs map nth signed_b64 Nat.eqb Nat.mul Nat.add];
      rewrite ?Ep, ?En; ring. }
  assert (E4 : F2R (nth 0 (nth 0 (had_b64 2) []) PrimFloat.zero) = 9007199254740990 / 2 ^ 54).
  { assert (P : FloatOps.Prim2SF (nth 0 (nth 0 (had_b64 2) []) PrimFloat.zero) =
                SpecFloat.S754_finite false 9007199254740990 (- Z.of_nat 54))
      by (vm_compute; reflexivity).
    rewrite (proj2 (@F2R_finite _ _ _ _ P)), Hk. field. }
  split; [|split; [|split; [exact E4|]]].
  - unfold matmul, eye.
    change (nth 0 (nth 0 (map (fun i => map (fun j => if Nat.eqb i j then 1 else 0) (seq 0 2)) (seq 0 2)) []) 0)
      with 1.
    assert (L0 : (0 < 2)%nat) by lia. assert (L1 : (1 < 2)%nat) by lia.
    pose proof (E2 0%nat 0%nat L0 L0) as E00.
    pose proof (E2 0%nat 1%nat L0 L1) as E01.
    pose proof (E2 1%nat 0%nat L1 L0) as E10.
    clear L0 L1.
    cbn [Nat.eqb Nat.mul Nat.add] in E00, E01, E10.
    remember (map (map F2R) (had_b64 1)) as M eqn:HM.
    assert (HMs : exists a b c d, M = [[a; b]; [c; d]]).
    { subst M. do 4 eexists. reflexivity. }
    destruct HMs as [a [b [c [d ->]]]]. cbn in E00, E01, E10 |- *.
    subst a b c. intros H.
    assert (Hq : (6369051672525772 * 6369051672525772 * 2 = 2 ^ 53 * 2 ^ 53)%R).
    { assert (Hp : 0 < 2 ^ 53) by (apply pow_lt; lra).
      apply (f_equal (fun x => x * (2 ^ 53 * 2 ^ 53))) in H.
      field_simplify in H; try lra. }
    assert (Hz : (6369051672525772 * 6369051672525772 * 2 = 2 ^ 53 * 2 ^ 53)%Z).
    { apply eq_IZR. rewrite !mult_IZR.
      change (2 ^ 53)%Z with (2 ^ Z.of_nat 53)%Z. rewrite <- pow_IZR. exact Hq. }
    vm_compute in Hz. discriminate.
  - intros H. apply (f_equal FloatOps.Prim2SF) in H. vm_compute in H. discriminate.
  - rewrite E4.
    replace (2 ^ 2) with (2 * 2) by ring. rewrite sqrt_square by lra.
    rewrite Rabs_right.
    + intros H.
      assert (Hq : (9007199254740990 * 2 = 2 ^ 54)%R).
      { assert (Hp : 0 < 2 ^ 54) by (apply pow_lt; lra).
        apply (f_equal (fun x => x * (2 * 2 ^ 54))) in H.
        field_simplify in H; try lra. }
      assert (Hz : (9007199254740990 * 2 = 2 ^ 54)%Z).
      { apply eq_IZR. rewrite !mult_IZR.
        change (2 ^ 54)%Z with (2 ^ Z.of_nat 54)%Z. rewrite <- pow_IZR. exact Hq. }
      vm_compute in Hz. discriminate.
    + apply Rle_ge, Rlt_le, Rdiv_lt_0_compat; [lra | apply pow_lt; lra].
Qed.
End C6.

Section ApplyFacts.
Import QuantumRegister.
Local Open Scope R_scope.

Lemma has_shape_false (g : matrix R) r c : has_shape g r c = false <-> ~ shaped g r c.
Proof.
  rewrite <- has_shape_iff. destruct (has_shape g r c); split; intros H;
    try reflexivity; try discriminate; try congruence; exfalso; apply H; reflexivity.
Qed.

Lemma cdot_cdotC (row : vector R) (v : vector C) : cdot row v = cdotC (map RtoC row) v.
Proof.
  revert v; induction row as [|g row IH]; intros [|s v]; simpl; try reflexivity.
  rewrite IH. reflexivity.
Qed.

Lemma matvec_cmatvec (g : matrix R) (v : vector C) :
  matvec g v = cmatvec (map (map RtoC) g) v.
Proof.
  unfold matvec, cmatvec. rewrite map_map. apply map_ext. intros row. apply cdot_cdotC.
Qed.

Lemma matvec_length (g : matrix R) (v : vector C) : length (matvec g v) = length g.
Proof. apply length_map. Qed.
End ApplyFacts.

Section C4.
Import QuantumRegister.
Local Open Scope R_scope.

Lemma apply_coerced (self : QuantumRegister.t) (gate : gate_like) (g : matrix R) :
  gate_asarray_float gate = Ok g ->
  (apply self gate = Raise AssertionError <-> ~ shaped g (p self) (p self)) /\
  (shaped g (p self) (p self) -> length (state self) = p self ->
   apply self gate = Ok {| _n := n self; _state := matvec g (state self) |}).
Proof.
  intros Hg. unfold apply. rewrite Hg. cbn [rbind]. split.
  - destruct (has_shape g (p self) (p self)) eqn:E; cbn [assert rbind].
    + apply has_shape_iff in E. split; [|contradiction].
      unfold matmul_vec. destruct (forallb _ _); discriminate.
    + apply has_shape_false in E. split; auto.
  - intros H Hlen. rewrite (proj2 (has_shape_iff _ _ _) H). cbn [assert rbind].
    rewrite (@matmul_vec_shaped _ _ (p self)) by (unfold state in Hlen; rewrite Hlen; exact H).
    reflexivity.
Qed.

Lemma asarray_float_shape (g : matrix C) r c : shaped g r c <-> shaped (asarray_float g) r c.
Proof.
  unfold shaped, asarray_float. rewrite length_map, Forall_map.
  split; intros [H1 H2]; (split; [exact H1|]);
    revert H2; apply Forall_impl; intros row; rewrite length_map; auto.
Qed.

(** C4 (as the code has it). [apply] starts with [np.asarray(gate, float)].
    - A float array, or a nested list of real numbers whose rows have one
      length: [apply] fails with an assertion error exactly when the gate is
      not [p] x [p]; otherwise, on a register whose state has length [p],
      the new state is the standard product [gate @ state] and the register
      returned is the updated one.  A list whose rows differ in length
      raises [ValueError] instead.
    - A complex array: the same with the real part of the gate; the
      imaginary parts of the entries are dropped.
    - A nested list with [complex] elements: [TypeError]. *)
Theorem apply_real_part_of_gate (self : QuantumRegister.t) (g : matrix R)
    (c : matrix C) :
  (rectangular g = false -> apply self (FloatGate g) = Raise ValueError) /\
  (rectangular g = true ->
   (apply self (FloatGate g) = Raise AssertionError <-> ~ shaped g (p self) (p self)) /\
   (shaped g (p self) (p self) -> length (state self) = p self ->
    apply self (FloatGate g) = Ok {| _n := n self; _state := matvec g (state self) |} /\
    matvec g (state self) = cmatvec (gate_entries (FloatGate g)) (state self))) /\
  (rectangular c = true ->
   (apply self (ComplexGate c) = Raise AssertionError <-> ~ shaped c (p self) (p self)) /\
   (shaped c (p self) (p self) -> length (state self) = p self ->
    apply self (ComplexGate c) =
    Ok {| _n := n self; _state := matvec (map (map Re) c) (state self) |})) /\
  (rectangular c = true -> (exists row, In row c /\ row <> []) ->
   apply self (ComplexList c) = Raise TypeError).
Proof.
  split; [|split; [|split]].
  - intros H. unfold apply. cbn [gate_asarray_float]. rewrite H. reflexivity.
  - intros H.
    assert (Hg : gate_asarray_float (FloatGate g) = Ok g)
      by (cbn [gate_asarray_float]; rewrite H; reflexivity).
    destruct (@apply_coerced self _ _ Hg) as [H1 H2]. split; [exact H1|].
    intros Hs Hlen. split; [exact (H2 Hs Hlen)|]. apply matvec_cmatvec.
  - intros H.
    assert (Hg : gate_asarray_float (ComplexGate c) = Ok (asarray_float c))
      by (cbn [gate_asarray_float]; rewrite H; reflexivity).
    destruct (@apply_coerced self _ _ Hg) as [H1 H2].
    rewrite <- asarray_float_shape in H1, H2. split; [exact H1 | exact H2].
  - intros H [row [Hin Hne]]. unfold apply. cbn [gate_asarray_float]. rewrite H.
    replace (forallb (fun row0 => Nat.eqb (length row0) 0) c) with false; [reflexivity|].
    symmetry. apply not_true_is_false. intros Hall.
    rewrite forallb_forall in Hall. specialize (Hall row Hin).
    apply Nat.eqb_eq in Hall. destruct row; [congruence|discriminate].
Qed.

Lemma apply_real_part_of_gate_witness :
  apply {| _n := 1; _state := [C1; C0] |} (FloatGate [[0; 1]; [1; 0]]) =
  Ok {| _n := 1; _state := matvec [[0; 1]; [1; 0]] [C1; C0] |}.
Proof.
  apply (proj2 (proj1 (proj2 (apply_real_part_of_gate
           {| _n := 1; _state := [C1; C0] |} [[0; 1]; [1; 0]] [])) eq_refl)).
  - split; [reflexivity|]. repeat constructor.
  - reflexivity.
Defined.

(** C4 does not hold as the specification states it: a complex unitary gate
    loses its imaginary parts.
    On the one-qubit register in state [(1, 0)], the gate [i * I], given as
    a complex array, gives the zero vector and not [(i, 0)]. *)
Lemma apply_drops_imaginary_parts :
  exists reg,
    apply {| _n := 1; _state := [C1; C0] |} (ComplexGate [[Ci; C0]; [C0; Ci]]) = Ok reg /\
    state reg <> cmatvec [[Ci; C0]; [C0; Ci]] [C1; C0].
Proof.
  eexists. split; [reflexivity|].
  unfold state; cbn [_state]. intros H.
  apply (f_equal (fun l => Im (hd C0 l))) in H. simpl in H. lra.
Qed.
End C4.

Section C5.
Import Utils.
Local Open Scope R_scope.

(** C5 (as the code has it). For every [f], [phase_oracle f] fails, with an
    assertion error, exactly when some value of [f] is not 0 or 1;
    otherwise it returns the [p] x [p] matrix, [p] the length of [f], with
    [(-1) ^ f[i]] at diagonal entry [i] and 0 elsewhere.  The length of [f]
    is not checked. *)
Theorem phase_oracle_diagonal (f : list Z) :
  (phase_oracle f = Raise AssertionError <-> ~ binary f) /\
  (binary f ->
   exists g, phase_oracle f = Ok g /\
             shaped g (length f) (length f) /\
             forall i j, (i < length f)%nat -> (j < length f)%nat ->
               nth j (nth i g []) 0 =
               if Nat.eqb i j then (- 1) ^ Z.to_nat (nth i f 0%Z) else 0).
Proof.
  split.
  - split.
    + intros H Hb. rewrite (phase_oracle_binary Hb) in H. discriminate.
    + apply phase_oracle_not_binary.
  - intros Hb. exists (oracle_matrix f). split; [apply phase_oracle_binary; exact Hb|].
    split; [apply oracle_matrix_shape|].
    intros i j Hi Hj. unfold oracle_matrix.
    rewrite (nth_map_seq _ [] Hi), (nth_map_seq _ 0 Hj). reflexivity.
Qed.

Lemma phase_oracle_diagonal_witness :
  exists g, phase_oracle [0; 1]%Z = Ok g /\ shaped g 2 2 /\
            forall i j, (i < 2)%nat -> (j < 2)%nat ->
              nth j (nth i g []) 0 =
              if Nat.eqb i j then (- 1) ^ Z.to_nat (nth i [0; 1]%Z 0%Z) else 0.
Proof.
  apply (proj2 (phase_oracle_diagonal [0; 1]%Z)).
  unfold binary. repeat (apply Forall_cons; [auto|]). apply Forall_nil.
Defined.

(** C5 does not hold as the specification states it: a binary table whose
    length is not a power of two is accepted. *)
Lemma phase_oracle_accepts_length_3 :
  (forall n : nat, length [0; 1; 0]%Z <> (2 ^ n)%nat) /\
  exists g, phase_oracle [0; 1; 0]%Z = Ok g.
Proof.
  split.
  - intros [|[|n]]; simpl; lia.
  - eexists. reflexivity.
Qed.
End C5.

Section InitFacts.
Import QuantumRegister.
Local Open Scope R_scope.

Lemma kronv_length (a b : vector C) : length (kronv a b) = (length a * length b)%nat.
Proof.
  unfold kronv. induction a as [|x a IH]; [reflexivity|].
  cbn [flat_map length]. rewrite length_app, length_map, IH. reflexivity.
Qed.

Lemma fold_kronv_length (qs : list Qubit.t) (st : vector C) :
  length (fold_left (fun st q => kronv (Qubit.array q) st) qs st) =
  (2 ^ length qs * length st)%nat.
Proof.
  revert st. induction qs as [|q qs IH]; intros st; cbn [fold_left length].
  - rewrite Nat.pow_0_r. lia.
  - rewrite IH, kronv_length. cbn [Qubit.array length]. rewrite Nat.pow_succ_r'. lia.
Qed.

(** Any non-empty sequence of qubits makes a register. *)
Lemma init_qubits (qs : list Qubit.t) :
  qs <> [] ->
  exists reg, init (map QQubit qs) = Ok reg /\ n reg = length qs /\
              length (state reg) = (2 ^ length qs)%nat.
Proof.
  intros Hne. unfold init. rewrite length_map.
  destruct qs as [|q qs]; [congruence|].
  change (0 <? length (q :: qs))%nat with true. cbn [assert rbind].
  rewrite is_Qubit_map, the_Qubits_map. cbn [rbind].
  rewrite fold_kronv_length, length_rev. cbn [length]. rewrite Nat.mul_1_r, Nat.eqb_refl.
  cbn [assert rbind]. eexists. split; [reflexivity|].
  split; [reflexivity|].
  unfold state; cbn [_state]. rewrite fold_kronv_length, length_rev. cbn [length]. lia.
Qed.

Lemma init_length (qubits : list qubit_like) (reg : QuantumRegister.t) :
  init qubits = Ok reg ->
  n reg = length qubits /\ length (state reg) = p reg.
Proof.
  unfold init. destruct (0 <? length qubits)%nat; [|discriminate]. cbn [assert rbind].
  match goal with |- rbind ?m _ = _ -> _ => destruct m as [st|e] end;
    cbn [rbind]; [|discriminate].
  destruct (Nat.eqb_spec (length st) (2 ^ length qubits)) as [E|]; [|discriminate].
  cbn [assert rbind]. intros [= <-]. split; [reflexivity|exact E].
Qed.

Lemma apply_length (self reg : QuantumRegister.t) (gate : gate_like) :
  apply self gate = Ok reg -> n reg = n self /\ length (state reg) = p reg.
Proof.
  unfold apply. destruct (gate_asarray_float gate) as [g|e]; cbn [rbind]; [|discriminate].
  destruct (has_shape g _ _) eqn:E; [|discriminate].
  cbn [assert rbind]. unfold matmul_vec.
  destruct (forallb _ _); [|discriminate].
  cbn [rbind]. intros [= <-]. split; [reflexivity|].
  apply has_shape_iff in E. destruct E as [E _].
  unfold state, p; cbn [_state _n]. rewrite matvec_length. exact E.
Qed.

Lemma setitem_onehot (p i : nat) :
  (i < p)%nat -> setitem (czeros p) i C1 = Ok (map RtoC (onehot p i)).
Proof.
  unfold czeros, onehot. revert i. induction p as [|p IH]; intros i Hi; [lia|].
  destruct i as [|i].
  - cbn [repeat setitem seq map Nat.eqb]. do 2 f_equal.
    rewrite map_seq_shift, map_map. cbn [Nat.eqb].
    rewrite <- map_seq_repeat with (a := 0%nat). reflexivity.
  - cbn [repeat setitem]. rewrite IH by lia.
    cbn [seq map Nat.eqb]. do 2 f_equal.
    rewrite !map_seq_shift. reflexivity.
Qed.

Lemma forallb_false_In {A} (test : A -> bool) (l : list A) (x : A) :
  In x l -> test x = false -> forallb test l = false.
Proof.
  intros Hin Hx. destruct (forallb test l) eqn:E; [|reflexivity].
  rewrite forallb_forall in E. rewrite (E x Hin) in Hx. discriminate.
Qed.

Lemma the_ints_In (qs : list qubit_like) (z : Z) : In (QInt z) qs -> In z (the_ints qs).
Proof.
  unfold the_ints. intros H. apply in_flat_map. exists (QInt z). split; [exact H|left; reflexivity].
Qed.

Lemma the_strs_In (qs : list qubit_like) (s : string) : In (QStr s) qs -> In s (the_strs qs).
Proof.
  unfold the_strs. intros H. apply in_flat_map. exists (QStr s). split; [exact H|left; reflexivity].
Qed.

(** Basis symbols given as integers. *)
Lemma init_ints (bits : list Z) :
  binary bits -> bits <> [] ->
  init (map QInt bits) =
  Ok {| _n := length bits;
        _state := map RtoC (onehot (2 ^ length bits) (Z.to_nat (bits_value bits))) |}.
Proof.
  intros Hb Hne. unfold init. rewrite length_map.
  destruct bits as [|b bits]; [congruence|].
  change (0 <? length (b :: bits))%nat with true. cbn [assert rbind].
  change (forallb is_Qubit (map QInt (b :: bits))) with false. cbv iota.
  assert (Eint : forall l, forallb is_int (map QInt l) = true)
    by (induction l; simpl; auto).
  assert (Ethe : forall l, the_ints (map QInt l) = l)
    by (induction l; simpl; f_equal; auto).
  rewrite Eint, Ethe. rewrite (proj2 (binary_forallb _) Hb). cbn [assert rbind].
  assert (Estr : forall l, forallb is_str (map (fun z => QStr (str z)) l) = true)
    by (induction l; simpl; auto).
  assert (Ethes : forall l, the_strs (map (fun z => QStr (str z)) l) = map str l)
    by (induction l; simpl; f_equal; auto).
  rewrite Estr, Ethes. cbn [assert rbind].
  assert (Eok : forallb (fun s => String.eqb s "0" || String.eqb s "1") (map str (b :: bits)) = true).
  { apply forallb_forall. intros s Hs. apply in_map_iff in Hs as [z [<- Hz]].
    unfold binary in Hb. rewrite Forall_forall in Hb.
    destruct (Hb z Hz) as [-> | ->]; reflexivity. }
  rewrite Eok. cbn [assert rbind].
  rewrite (int2_bits Hb Hne). cbn [rbind].
  pose proof (bits_value_bound Hb) as Hv.
  rewrite setitem_onehot
    by (apply Nat2Z.inj_lt; rewrite Z2Nat.id, pow2_nat_Z; lia).
  cbn [rbind]. rewrite length_map, onehot_length, Nat.eqb_refl. reflexivity.
Qed.

(** Basis symbols given as strings. *)
Lemma init_strs (bits : list Z) :
  binary bits -> bits <> [] ->
  init (map (fun z => QStr (str z)) bits) =
  Ok {| _n := length bits;
        _state := map RtoC (onehot (2 ^ length bits) (Z.to_nat (bits_value bits))) |}.
Proof.
  intros Hb Hne. unfold init. rewrite length_map.
  destruct bits as [|b bits]; [congruence|].
  change (0 <? length (b :: bits))%nat with true. cbn [assert rbind].
  change (forallb is_Qubit (map (fun z => QStr (str z)) (b :: bits))) with false.
  change (forallb is_int (map (fun z => QStr (str z)) (b :: bits))) with false.
  cbv iota. cbn [rbind].
  assert (Estr : forall l, forallb is_str (map (fun z => QStr (str z)) l) = true)
    by (induction l; simpl; auto).
  assert (Ethes : forall l, the_strs (map (fun z => QStr (str z)) l) = map str l)
    by (induction l; simpl; f_equal; auto).
  rewrite Estr, Ethes. cbn [assert rbind].
  assert (Eok : forallb (fun s => String.eqb s "0" || String.eqb s "1") (map str (b :: bits)) = true).
  { apply forallb_forall. intros s Hs. apply in_map_iff in Hs as [z [<- Hz]].
    unfold binary in Hb. rewrite Forall_forall in Hb.
    destruct (Hb z Hz) as [-> | ->]; reflexivity. }
  rewrite Eok. cbn [assert rbind].
  rewrite (int2_bits Hb Hne). cbn [rbind].
  pose proof (bits_value_bound Hb) as Hv.
  rewrite setitem_onehot
    by (apply Nat2Z.inj_lt; rewrite Z2Nat.id, pow2_nat_Z; lia).
  cbn [rbind]. rewrite length_map, onehot_length, Nat.eqb_refl. reflexivity.
Qed.

Lemma int_symbols_map (qs : list qubit_like) :
  int_symbols qs -> qs = map QInt (map symbol_bit qs) /\ binary (map symbol_bit qs).
Proof.
  induction 1 as [|q qs Hq _ [IH1 IH2]]; [split; [reflexivity|constructor]|].
  destruct Hq as [-> | ->]; cbn [map symbol_bit]; (split; [f_equal; exact IH1|]);
    constructor; auto.
Qed.

Lemma str_symbols_map (qs : list qubit_like) :
  str_symbols qs ->
  qs = map (fun z => QStr (str z)) (map symbol_bit qs) /\ binary (map symbol_bit qs).
Proof.
  induction 1 as [|q qs Hq _ [IH1 IH2]]; [split; [reflexivity|constructor]|].
  destruct Hq as [-> | ->]; cbn [map symbol_bit]; (split; [f_equal; exact IH1|]);
    constructor; auto.
Qed.

(** A symbol other than 0 and 1 makes the constructor fail. *)
Lemma init_other_symbol (qs : list qubit_like) (q : qubit_like) :
  In q qs -> other_symbol q -> init qs = Raise AssertionError.
Proof.
  intros Hin Hq. unfold init.
  destruct (0 <? length qs)%nat; [|reflexivity]. cbn [assert rbind].
  assert (EQ : forallb is_Qubit qs = false).
  { apply (forallb_false_In _ _ _ Hin). destruct q; [contradiction|reflexivity|reflexivity]. }
  rewrite EQ.
  destruct q as [x|z|s]; [contradiction| |].
  - destruct (forallb is_int qs) eqn:Ei.
    + assert (Eb : forallb (fun z => (z =? 0)%Z || (z =? 1)%Z) (the_ints qs) = false).
      { apply (forallb_false_In _ _ _ (the_ints_In _ _ Hin)).
        destruct Hq as [H0 H1]. apply Z.eqb_neq in H0, H1. rewrite H0, H1. reflexivity. }
      rewrite Eb. reflexivity.
    + cbn [rbind].
      assert (Es : forallb is_str qs = false) by (apply (forallb_false_In _ _ _ Hin); reflexivity).
      rewrite Es. reflexivity.
  - assert (Ei : forallb is_int qs = false) by (apply (forallb_false_In _ _ _ Hin); reflexivity).
    rewrite Ei. cbn [rbind].
    destruct (forallb is_str qs); [|reflexivity]. cbn [assert rbind].
    assert (Eb : forallb (fun s => String.eqb s "0" || String.eqb s "1") (the_strs qs) = false).
    { apply (forallb_false_In _ _ _ (the_strs_In _ _ Hin)).
      destruct Hq as [H0 H1]. apply String.eqb_neq in H0, H1. rewrite H0, H1. reflexivity. }
    rewrite Eb. reflexivity.
Qed.

(** Integers and strings cannot be mixed. *)
Lemma init_mixed (qs : list qubit_like) (z : Z) (s : string) :
  In (QInt z) qs -> In (QStr s) qs -> init qs = Raise AssertionError.
Proof.
  intros Hz Hs. unfold init.
  destruct (0 <? length qs)%nat; [|reflexivity]. cbn [assert rbind].
  rewrite (forallb_false_In is_Qubit _ _ Hz eq_refl).
  rewrite (forallb_false_In is_int _ _ Hs eq_refl). cbn [rbind].
  rewrite (forallb_false_In is_str _ _ Hz eq_refl). reflexivity.
Qed.
End InitFacts.

Section C7.
Import QuantumRegister.

(** C7. The state vector of a register has length [p = 2 ^ n] when the
    constructor returns it (as it does for every non-empty sequence of
    qubits, with [n] their number), and again after every successful
    [apply], [h], [r] and [o_f], none of which changes [n]. *)
Theorem state_length_invariant :
  (forall qs, qs <> [] ->
     exists reg, init (map QQubit qs) = Ok reg /\ n reg = length qs /\
                 length (state reg) = (2 ^ length qs)%nat) /\
  (forall qubits reg, init qubits = Ok reg ->
     n reg = length qubits /\ length (state reg) = p reg) /\
  (forall self gate reg, apply self gate = Ok reg ->
     n reg = n self /\ length (state reg) = p reg) /\
  (forall self reg, h self = Ok reg -> n reg = n self /\ length (state reg) = p reg) /\
  (forall self reg, r self = Ok reg -> n reg = n self /\ length (state reg) = p reg) /\
  (forall self f reg, o_f self f = Ok reg -> n reg = n self /\ length (state reg) = p reg).
Proof.
  split; [exact init_qubits|].
  split; [intros qubits reg; apply init_length|].
  split; [intros self gate reg; apply apply_length|]. split; [|split].
  - intros self reg. unfold h.
    destruct (Utils.hadamard _) as [g|e]; cbn [rbind]; [apply apply_length|discriminate].
  - intros self reg. unfold r. apply apply_length.
  - intros self f reg. unfold o_f.
    destruct (Utils.phase_oracle f) as [g|e]; cbn [rbind]; [apply apply_length|discriminate].
Qed.

Lemma state_length_invariant_witness :
  n {| _n := 1; _state := [C0; C1] |} = 1%nat /\
  length (state {| _n := 1; _state := [C0; C1] |}) = p {| _n := 1; _state := [C0; C1] |}.
Proof.
  apply (proj1 (proj2 state_length_invariant) [QStr "1"]). reflexivity.
Defined.
End C7.

Section C8.
Import QuantumRegister.

(** C8 (as the code has it). From a non-empty sequence of [n] symbols that
    are all integers 0/1, or all strings "0"/"1", the constructor returns
    the register whose state has length [2 ^ n], amplitude 1 at the index
    read from the symbols most significant bit first, and 0 elsewhere.  It
    fails on the empty sequence, on a sequence with any other symbol, and
    on a sequence that mixes integers with strings. *)
Theorem init_basis_state :
  (forall qs, qs <> [] -> int_symbols qs \/ str_symbols qs ->
     init qs =
     Ok {| _n := length qs;
           _state := map RtoC (onehot (2 ^ length qs)
                                      (Z.to_nat (bits_value (map symbol_bit qs)))) |} /\
     (0 <= bits_value (map symbol_bit qs) < 2 ^ Z.of_nat (length qs))%Z) /\
  init [] = Raise AssertionError /\
  (forall qs q, In q qs -> other_symbol q -> init qs = Raise AssertionError) /\
  (forall qs z s, In (QInt z) qs -> In (QStr s) qs -> init qs = Raise AssertionError).
Proof.
  split; [|split; [reflexivity|split;
    [intros qs q; apply init_other_symbol | intros qs z s; apply init_mixed]]].
  intros qs Hne [H|H].
  - destruct (int_symbols_map H) as [E Hb].
    assert (Hne' : map symbol_bit qs <> []) by (destruct qs; [congruence|discriminate]).
    split.
    + rewrite E at 1. rewrite (init_ints Hb Hne'), length_map. reflexivity.
    + rewrite <- (length_map symbol_bit qs). apply bits_value_bound. exact Hb.
  - destruct (str_symbols_map H) as [E Hb].
    assert (Hne' : map symbol_bit qs <> []) by (destruct qs; [congruence|discriminate]).
    split.
    + rewrite E at 1. rewrite (init_strs Hb Hne'), length_map. reflexivity.
    + rewrite <- (length_map symbol_bit qs). apply bits_value_bound. exact Hb.
Qed.

Lemma init_basis_state_witness :
  init [QInt 1; QInt 0] =
  Ok {| _n := 2; _state := map RtoC (onehot 4 2) |}.
Proof.
  apply (proj1 init_basis_state [QInt 1; QInt 0]).
  - discriminate.
  - left. unfold int_symbols. repeat (apply Forall_cons; [auto|]). apply Forall_nil.
Defined.

(** C8 does not hold as the specification states it: a sequence whose
    symbols are each an integer 0/1 or a string "0"/"1" is rejected when it
    mixes the two kinds. *)
Lemma init_rejects_mixed_symbols :
  Forall (fun q => q = QInt 0 \/ q = QInt 1 \/ q = QStr "0" \/ q = QStr "1")
         [QInt 0; QStr "1"] /\
  init [QInt 0; QStr "1"] = Raise AssertionError.
Proof.
  split; [|reflexivity].
  repeat (apply Forall_cons; [auto|]). apply Forall_nil.
Qed.
End C8.

(** Steps through two runs of the same statements at two verbosity levels:
    the prints return nothing, and each other statement returns the same
    value or raises the same exception in both runs. *)
Ltac same_returned :=
  repeat first
    [ reflexivity
    | progress (autorewrite with io; cbv beta)
    | match goal with
      | |- match ?m with Ok _ => _ | Raise _ => _ end =
           match ?m with Ok _ => _ | Raise _ => _ end =>
          destruct m; [|reflexivity]
      end ].

Section Noninterference.
Import QuantumRegister Algorithms.

Lemma hadamard_oracle_hadamard_verbose (f : list Z) (v1 v2 : Z) :
  returned (hadamard_oracle_hadamard f v1) = returned (hadamard_oracle_hadamard f v2).
Proof. unfold hadamard_oracle_hadamard. same_returned. Qed.

Lemma grover_loop_verbose (o_f : matrix R) (range : list nat)
    (qregister : QuantumRegister.t) (v1 v2 : Z) :
  returned (grover_loop v1 o_f range qregister) =
  returned (grover_loop v2 o_f range qregister).
Proof.
  revert qregister. induction range as [|i range IH]; intros qregister; [reflexivity|].
  cbn [grover_loop]. same_returned. apply IH.
Qed.

Lemma grover_circuit_verbose (f : list Z) (v1 v2 : Z) :
  returned (grover_circuit f v1) = returned (grover_circuit f v2).
Proof.
  unfold grover_circuit. same_returned.
  rewrite (grover_loop_verbose _ _ _ v1 v2). same_returned.
Qed.
End Noninterference.

Section C9.
Import Algorithms.

(** C9. For each of the three drivers and every truth table, the value
    returned (or the exception raised) is the same at every verbosity
    level. *)
Theorem verbosity_does_not_change_result (f : list Z) (v1 v2 : Z) :
  returned (deutsch_jozsa_algorithm f v1) = returned (deutsch_jozsa_algorithm f v2) /\
  returned (grover_algorithm f v1) = returned (grover_algorithm f v2) /\
  returned (bernstein_vazirani_algorithm f v1) =
  returned (bernstein_vazirani_algorithm f v2).
Proof.
  split; [|split].
  - rewrite !deutsch_jozsa_split, !returned_bind.
    rewrite (hadamard_oracle_hadamard_verbose f v1 v2).
    unfold deutsch_jozsa_readout. same_returned.
  - rewrite !grover_split, !returned_bind.
    rewrite (grover_circuit_verbose f v1 v2).
    unfold grover_readout. same_returned.
  - rewrite !bernstein_vazirani_split, !returned_bind.
    rewrite (hadamard_oracle_hadamard_verbose f v1 v2).
    unfold bernstein_vazirani_readout. same_returned.
Qed.
End C9.

Section RealInvariant.
Import QuantumRegister Algorithms.
Local Open Scope R_scope.

Lemma io_real_bind {A B} (P : A -> Prop) (Q : B -> Prop) (m : io A) (k : A -> io B) :
  io_real P m -> (forall a, P a -> io_real Q (k a)) -> io_real Q (bind m k).
Proof.
  intros [Hout Hret] Hk. destruct m as [out [a|e]]; cbn [output returned fst snd] in *.
  - destruct (Hk a (Hret a eq_refl)) as [Hout' Hret'].
    unfold io_real, bind. destruct (k a) as [out' b]; cbn [output returned fst snd] in *.
    split; [apply Forall_app; split; assumption | exact Hret'].
  - split; [exact Hout | discriminate].
Qed.

Lemma io_real_ret {A} (P : A -> Prop) (a : A) : P a -> io_real P (ret a).
Proof. intros H. split; [constructor | intros a' [= <-]; exact H]. Qed.

Lemma io_real_lift {A} (P : A -> Prop) (m : result A) :
  (forall a, m = Ok a -> P a) -> io_real P (lift m).
Proof. intros H. split; [constructor | exact H]. Qed.

Lemma io_real_when (b : bool) (l : trace_line) :
  real_line l -> io_real (fun _ : unit => True) (when b (print l)).
Proof.
  intros H. destruct b; split; cbn; auto.
Qed.

Lemma matvec_is_real (g : matrix R) (v : vector C) : is_real v -> is_real (matvec g v).
Proof.
  intros Hv. rewrite (is_real_inv Hv), matvec_real. apply is_real_RtoC.
Qed.

Lemma apply_keeps_real (self reg : QuantumRegister.t) (gate : gate_like) :
  real_register self -> apply self gate = Ok reg -> real_register reg.
Proof.
  unfold apply, real_register. intros Hself.
  destruct (gate_asarray_float gate) as [g|e]; cbn [rbind]; [|discriminate].
  destruct (has_shape g _ _); [|discriminate]. cbn [assert rbind].
  unfold matmul_vec. destruct (forallb _ _); [|discriminate]. cbn [rbind].
  intros [= <-]. apply matvec_is_real. exact Hself.
Qed.

Lemma h_keeps_real (self reg : QuantumRegister.t) :
  real_register self -> h self = Ok reg -> real_register reg.
Proof.
  unfold h. intros Hself. destruct (Utils.hadamard _); cbn [rbind]; [|discriminate].
  apply apply_keeps_real. exact Hself.
Qed.

Lemma r_keeps_real (self reg : QuantumRegister.t) :
  real_register self -> r self = Ok reg -> real_register reg.
Proof. unfold r. apply apply_keeps_real. Qed.

Lemma init_zero_is_real (k : nat) (reg : QuantumRegister.t) :
  init (map QQubit (repeat Qubit.zero k)) = Ok reg -> real_register reg.
Proof.
  destruct k as [|k]; [discriminate|].
  rewrite init_zero_qubits by lia. intros [= <-]. apply is_real_RtoC.
Qed.

Lemma real_register_state (reg : QuantumRegister.t) :
  real_register reg -> state reg = map RtoC (real reg).
Proof. apply is_real_inv. Qed.

Lemma hadamard_oracle_hadamard_real (f : list Z) (verbose : Z) :
  io_real (fun nq => real_register (snd nq)) (hadamard_oracle_hadamard f verbose).
Proof.
  unfold hadamard_oracle_hadamard.
  eapply io_real_bind; [apply io_real_when; exact I | intros _ _].
  eapply io_real_bind; [apply (io_real_lift (fun _ => True)); auto | intros n _].
  eapply io_real_bind; [apply (io_real_lift (fun _ => True)); auto | intros o _].
  eapply io_real_bind; [apply io_real_when; exact I | intros _ _].
  eapply io_real_bind;
    [apply (io_real_lift real_register); apply init_zero_is_real | intros q0 H0].
  eapply io_real_bind; [apply io_real_when; exact H0 | intros _ _].
  eapply io_real_bind;
    [apply (io_real_lift real_register); intros a; apply h_keeps_real; exact H0
    | intros q1 H1].
  eapply io_real_bind; [apply io_real_when; exact H1 | intros _ _].
  eapply io_real_bind;
    [apply (io_real_lift real_register); intros a; apply apply_keeps_real; exact H1
    | intros q2 H2].
  eapply io_real_bind; [apply io_real_when; exact H2 | intros _ _].
  eapply io_real_bind;
    [apply (io_real_lift real_register); intros a; apply h_keeps_real; exact H2
    | intros q3 H3].
  eapply io_real_bind; [apply io_real_when; exact H3 | intros _ _].
  apply io_real_ret. exact H3.
Qed.

Lemma grover_loop_real (verbose : Z) (o : matrix R) (range : list nat)
    (qregister : QuantumRegister.t) :
  real_register qregister ->
  io_real real_register (grover_loop verbose o range qregister).
Proof.
  revert qregister. induction range as [|i range IH]; intros qregister Hq.
  - apply io_real_ret. exact Hq.
  - cbn [grover_loop].
    eapply io_real_bind; [apply (io_real_lift real_register) | intros q1 H1].
    + intros a. destruct (apply qregister (FloatGate o)) as [q|e] eqn:E;
        cbn [rbind]; [|discriminate].
      apply r_keeps_real. eapply apply_keeps_real; eassumption.
    + eapply io_real_bind; [apply io_real_when; exact H1 | intros _ _].
      apply IH. exact H1.
Qed.

Lemma grover_circuit_real (f : list Z) (verbose : Z) :
  io_real (fun nq => real_register (snd nq)) (grover_circuit f verbose).
Proof.
  unfold grover_circuit.
  eapply io_real_bind; [apply io_real_when; exact I | intros _ _].
  eapply io_real_bind; [apply (io_real_lift (fun _ => True)); auto | intros n _].
  eapply io_real_bind; [apply (io_real_lift (fun _ => True)); auto | intros o _].
  eapply io_real_bind; [apply io_real_when; exact I | intros _ _].
  eapply io_real_bind; [apply io_real_when; exact I | intros _ _].
  eapply io_real_bind;
    [apply (io_real_lift real_register); apply init_zero_is_real | intros q0 H0].
  eapply io_real_bind; [apply io_real_when; exact H0 | intros _ _].
  eapply io_real_bind;
    [apply (io_real_lift real_register); intros a; apply h_keeps_real; exact H0
    | intros q1 H1].
  eapply io_real_bind; [apply io_real_when; exact H1 | intros _ _].
  eapply io_real_bind; [apply grover_loop_real; exact H1 | intros q2 H2].
  apply io_real_ret. exact H2.
Qed.

(** What follows the circuit in a driver prints no register. *)
Ltac readout_real circuit_real :=
  eapply io_real_bind; [apply circuit_real | intros ? _];
  cbv zeta;
  eapply io_real_bind; [apply (io_real_lift (fun _ => True)); auto | intros ? _];
  cbv zeta;
  eapply io_real_bind; [apply io_real_when; exact I | intros _ _];
  apply io_real_ret; exact I.

Lemma deutsch_jozsa_real (f : list Z) (verbose : Z) :
  io_real (fun _ => True) (deutsch_jozsa_algorithm f verbose).
Proof.
  rewrite deutsch_jozsa_split. unfold deutsch_jozsa_readout.
  readout_real hadamard_oracle_hadamard_real.
Qed.

Lemma grover_real (f : list Z) (verbose : Z) :
  io_real (fun _ => True) (grover_algorithm f verbose).
Proof.
  rewrite grover_split. unfold grover_readout. readout_real grover_circuit_real.
Qed.

Lemma bernstein_vazirani_real (f : list Z) (verbose : Z) :
  io_real (fun _ => True) (bernstein_vazirani_algorithm f verbose).
Proof.
  rewrite bernstein_vazirani_split. unfold bernstein_vazirani_readout.
  readout_real hadamard_oracle_hadamard_real.
Qed.
End RealInvariant.

Section C10.
Import QuantumRegister Algorithms.

(** C10. In every run of the three drivers the state of the register is
    real at every step: the register built from [zero] qubits is real;
    [apply] keeps a real state real whatever the gate (it multiplies by the
    real part of the gate), and so do [h] and [r]; every register shown in
    the trace (at the highest verbosity, the register after each step) and
    the register that the result is read from are real, so that the state
    is determined by its real part. *)
Theorem drivers_keep_state_real (f : list Z) (verbose : Z) :
  (forall k reg, init (map QQubit (repeat Qubit.zero k)) = Ok reg -> real_register reg) /\
  (forall self gate reg,
     real_register self -> apply self gate = Ok reg -> real_register reg) /\
  (forall self reg, real_register self -> h self = Ok reg -> real_register reg) /\
  (forall self reg, real_register self -> r self = Ok reg -> real_register reg) /\
  Forall real_line (output (deutsch_jozsa_algorithm f verbose)) /\
  Forall real_line (output (grover_algorithm f verbose)) /\
  Forall real_line (output (bernstein_vazirani_algorithm f verbose)) /\
  (forall n reg, returned (hadamard_oracle_hadamard f verbose) = Ok (n, reg) ->
     real_register reg /\ state reg = map RtoC (real reg)) /\
  (forall n reg, returned (grover_circuit f verbose) = Ok (n, reg) ->
     real_register reg /\ state reg = map RtoC (real reg)).
Proof.
  split; [intros k reg; apply init_zero_is_real|].
  split; [intros self gate reg; apply apply_keeps_real|].
  split; [intros self reg; apply h_keeps_real|].
  split; [intros self reg; apply r_keeps_real|].
  pose proof (hadamard_oracle_hadamard_real f verbose) as Hhoh.
  pose proof (grover_circuit_real f verbose) as Hgro.
  split; [|split; [|split; [|split]]].
  - apply deutsch_jozsa_real.
  - apply grover_real.
  - apply bernstein_vazirani_real.
  - intros n reg H. pose proof (proj2 Hhoh _ H) as Hr. cbn [snd] in Hr.
    split; [exact Hr | apply real_register_state; exact Hr].
  - intros n reg H. pose proof (proj2 Hgro _ H) as Hr. cbn [snd] in Hr.
    split; [exact Hr | apply real_register_state; exact Hr].
Qed.

Lemma drivers_keep_state_real_witness :
  real_register {| _n := 1; _state := matvec [[0; 1]; [1; 0]]%R [C1; C0] |}.
Proof.
  apply (proj1 (proj2 (drivers_keep_state_real [] 0))
           {| _n := 1; _state := [C1; C0] |} (ComplexGate [[C0; C1]; [C1; C0]])).
  - repeat constructor.
  - reflexivity.
Defined.
End C10.

(* ===================================================================== *)
(** * Further properties of [utils.py] *)
(* ===================================================================== *)

Section Log2Facts.
Import Utils.

Lemma log2_not_pow2 (p : Z) :
  (0 < p)%Z -> (forall n : nat, p <> 2 ^ Z.of_nat n)%Z -> log2 p = Raise AssertionError.
Proof.
  intros Hp Hn. unfold log2.
  destruct (Z.leb_spec p 0); [lia|].
  destruct (Z.eqb_spec (2 ^ Z.log2 p) p) as [E|]; [|reflexivity].
  exfalso. apply (Hn (Z.to_nat (Z.log2 p))).
  rewrite Z2Nat.id by apply Z.log2_nonneg. congruence.
Qed.

Lemma log2_nonpos (p : Z) : (p <= 0)%Z -> log2 p = Raise ValueError.
Proof. intros H. unfold log2. destruct (Z.leb_spec p 0); [reflexivity|lia]. Qed.

(** X1. On an integer [p], [log2 p] returns [n] exactly when [p = 2 ^ n]
    with [n >= 0]; it raises [ValueError] exactly when [p <= 0] and fails
    its assertion exactly on the positive integers that are not a power of
    two. *)
Theorem log2_exact (p : Z) :
  (forall n, log2 p = Ok n <-> (0 <= n /\ p = 2 ^ n)%Z) /\
  (log2 p = Raise ValueError <-> (p <= 0)%Z) /\
  (log2 p = Raise AssertionError <->
   (0 < p)%Z /\ forall n : nat, p <> (2 ^ Z.of_nat n)%Z).
Proof.
  split; [|split].
  - intros n. split; [apply log2_Ok|].
    intros [Hn ->]. rewrite <- (Z2Nat.id n Hn). apply log2_pow2.
  - unfold log2. destruct (Z.leb_spec p 0) as [H|H].
    + split; auto.
    + destruct (2 ^ Z.log2 p =? p)%Z; cbn; split; intros H'; try discriminate; lia.
  - split.
    + intros H.
      assert (Hp : (0 < p)%Z).
      { unfold log2 in H. destruct (Z.leb_spec p 0); [discriminate|assumption]. }
      split; [exact Hp|]. intros n ->. rewrite log2_pow2 in H. discriminate.
    + intros [Hp Hn]. apply log2_not_pow2; assumption.
Qed.

Lemma log2_exact_witness : log2 8 = Ok 3%Z.
Proof. apply (proj1 (log2_exact 8)). split; [lia | reflexivity]. Defined.
End Log2Facts.

Section HadamardDomain.
Import Utils.

Lemma hadamard_log2_error (p : Z) (e : exn) : log2 p = Raise e -> hadamard p = Raise e.
Proof. intros H. rewrite hadamard_unfold_plain, H. reflexivity. Qed.

(** X2. [hadamard p] returns a matrix exactly when [p] is a power of two,
    and the matrix is then [p] x [p]; otherwise it raises what [log2]
    raises: [ValueError] for [p <= 0], an assertion error for any other
    [p]. *)
Theorem hadamard_domain (p : Z) :
  ((exists g, hadamard p = Ok g) <-> exists n : nat, p = (2 ^ Z.of_nat n)%Z) /\
  (forall g, hadamard p = Ok g -> shaped g (Z.to_nat p) (Z.to_nat p)) /\
  ((p <= 0)%Z -> hadamard p = Raise ValueError) /\
  ((0 < p)%Z -> (forall n : nat, p <> (2 ^ Z.of_nat n)%Z) ->
   hadamard p = Raise AssertionError).
Proof.
  split; [|split; [|split]].
  - split.
    + intros [g H]. exact (hadamard_Ok _ H).
    + intros [n ->]. exists (had n). apply hadamard_pow2.
  - intros g H. destruct (hadamard_Ok _ H) as [n ->].
    rewrite hadamard_pow2 in H. injection H as <-.
    rewrite <- pow2_nat_Z, Nat2Z.id. apply had_shape.
  - intros Hp. apply hadamard_log2_error. apply log2_nonpos. exact Hp.
  - intros Hp Hn. apply hadamard_log2_error. apply log2_not_pow2; assumption.
Qed.

Lemma hadamard_domain_witness : hadamard 6 = Raise AssertionError.
Proof.
  apply (proj2 (proj2 (proj2 (hadamard_domain 6)))); [lia|].
  intros [|[|[|n]]]; try discriminate.
  intros H. assert (2 ^ 3 <= 2 ^ Z.of_nat (S (S (S n))))%Z
    by (apply Z.pow_le_mono_r; lia).
  change (2 ^ 3)%Z with 8%Z in *. lia.
Defined.
End HadamardDomain.

(* ===================================================================== *)
(** * The real and the imaginary part of a state *)
(* ===================================================================== *)

Section NormFacts.
Local Open Scope R_scope.

Lemma Re_cdot (row : vector R) (v : vector C) : Re (cdot row v) = rdot row (map Re v).
Proof.
  revert v; induction row as [|g row IH]; intros [|s v]; simpl; try reflexivity.
  rewrite <- IH. unfold Re. simpl. ring.
Qed.

Lemma Im_cdot (row : vector R) (v : vector C) : Im (cdot row v) = rdot row (map Im v).
Proof.
  revert v; induction row as [|g row IH]; intros [|s v]; simpl; try reflexivity.
  rewrite <- IH. unfold Im. simpl. ring.
Qed.

(** A real gate acts on the real and on the imaginary parts separately. *)
Lemma Re_matvec (g : matrix R) (v : vector C) :
  map Re (matvec g v) = rmatvec g (map Re v).
Proof.
  unfold matvec, rmatvec. rewrite map_map. apply map_ext. intros row. apply Re_cdot.
Qed.

Lemma Im_matvec (g : matrix R) (v : vector C) :
  map Im (matvec g v) = rmatvec g (map Im v).
Proof.
  unfold matvec, rmatvec. rewrite map_map. apply map_ext. intros row. apply Im_cdot.
Qed.

Lemma parts_eq (v w : vector C) :
  map Re v = map Re w -> map Im v = map Im w -> v = w.
Proof.
  revert w; induction v as [|[x y] v IH]; intros [|[x' y'] w]; simpl;
    try discriminate; [reflexivity|].
  intros [= -> H1] [= -> H2]. f_equal. apply IH; assumption.
Qed.

(** A real gate that is an involution on real vectors is one on complex
    states. *)
Lemma matvec_involutive (g : matrix R) (p : nat) (v : vector C) :
  (forall w : vector R, length w = p -> rmatvec g (rmatvec g w) = w) ->
  length v = p -> matvec g (matvec g v) = v.
Proof.
  intros Hg Hv. apply parts_eq.
  - rewrite !Re_matvec. apply Hg. rewrite length_map. exact Hv.
  - rewrite !Im_matvec. apply Hg. rewrite length_map. exact Hv.
Qed.

End NormFacts.

(* ===================================================================== *)
(** * The phase oracle and the diffusion gate on real vectors *)
(* ===================================================================== *)

Section GateAlgebra.
Import Utils.
Local Open Scope R_scope.

Lemma sign_sqr (v : Z) : (v = 0 \/ v = 1)%Z -> sign v * sign v = 1.
Proof. intros [-> | ->]; [rewrite sign_0 | rewrite sign_1]; ring. Qed.

Lemma binary_nth (f : list Z) (i : nat) : binary f -> (nth i f 0 = 0 \/ nth i f 0 = 1)%Z.
Proof.
  intros Hf. destruct (Nat.lt_ge_cases i (length f)) as [Hi|Hi].
  - unfold binary in Hf. rewrite Forall_forall in Hf. apply Hf. apply nth_In. exact Hi.
  - left. apply nth_overflow. exact Hi.
Qed.

Lemma oracle_involutive (f : list Z) (v : vector R) :
  binary f -> length v = length f ->
  rmatvec (oracle_matrix f) (rmatvec (oracle_matrix f) v) = v.
Proof.
  intros Hf Hlen.
  rewrite (rmatvec_oracle f (rmatvec (oracle_matrix f) v))
    by (rewrite rmatvec_length; apply (proj1 (oracle_matrix_shape f))).
  rewrite (rmatvec_oracle f v Hlen).
  transitivity (map (fun i => nth i v 0) (seq 0 (length f)));
    [|rewrite <- Hlen; symmetry; apply tabulate_nth].
  apply map_seq_ext. intros i Hi.
  rewrite nth_map_seq by lia.
  rewrite <- Rmult_assoc, sign_sqr by (apply binary_nth; exact Hf). ring.
Qed.

(** Diffusion reflects every entry about the mean. *)
Lemma diffusion_reflects (v : vector R) :
  rmatvec (QuantumRegister.r_gate (length v)) v =
  map (fun x => 2 / INR (length v) * fold_right Rplus 0 v - x) v.
Proof.
  rewrite rmatvec_r_gate by reflexivity.
  transitivity (map (fun x => 2 / INR (length v) * fold_right Rplus 0 v - x)
                    (map (fun i => nth i v 0) (seq 0 (length v))));
    [|rewrite <- tabulate_nth; reflexivity].
  rewrite map_map. reflexivity.
Qed.

End GateAlgebra.

(* ===================================================================== *)
(** * Further properties of [quantum_register.py]: [h], [r], [o_f] *)
(* ===================================================================== *)

Section RegisterOperations.
Import Utils QuantumRegister.
Local Open Scope R_scope.

Lemma register_eta (self : QuantumRegister.t) :
  {| _n := n self; _state := state self |} = self.
Proof. destruct self; reflexivity. Qed.

Lemma apply_float_ok (self : QuantumRegister.t) (g : matrix R) :
  shaped g (p self) (p self) -> well_formed self ->
  apply self (FloatGate g) = Ok {| _n := n self; _state := matvec g (state self) |}.
Proof.
  intros Hg Hself. unfold apply. rewrite (asarray_float_shaped Hg). cbn [rbind].
  rewrite (proj2 (has_shape_iff _ _ _) Hg). cbn [assert rbind].
  rewrite (@matmul_vec_shaped g (_state self) (p self))
    by (unfold well_formed, state in Hself; rewrite Hself; exact Hg).
  reflexivity.
Qed.

Lemma apply_float_shape (self reg : QuantumRegister.t) (g : matrix R) :
  apply self (FloatGate g) = Ok reg -> shaped g (p self) (p self).
Proof.
  unfold apply. cbn [gate_asarray_float].
  destruct (rectangular g); cbn [rbind]; [|discriminate].
  destruct (has_shape g (p self) (p self)) eqn:E; [|discriminate].
  intros _. apply has_shape_iff. exact E.
Qed.

Lemma h_ok (self : QuantumRegister.t) :
  well_formed self ->
  h self = Ok {| _n := n self; _state := matvec (had (n self)) (state self) |}.
Proof.
  intros Hself. unfold h, p.
  rewrite Nat2Z.inj_pow. change (Z.of_nat 2) with 2%Z.
  rewrite hadamard_pow2. cbn [rbind].
  apply apply_float_ok; [apply had_shape | exact Hself].
Qed.

Lemma r_ok (self : QuantumRegister.t) :
  well_formed self ->
  r self = Ok {| _n := n self; _state := matvec (r_gate (p self)) (state self) |}.
Proof.
  intros Hself. unfold r. apply apply_float_ok; [apply r_gate_shape | exact Hself].
Qed.

Lemma o_f_ok (self : QuantumRegister.t) (f : list Z) :
  well_formed self -> binary f -> length f = p self ->
  o_f self f = Ok {| _n := n self; _state := matvec (oracle_matrix f) (state self) |}.
Proof.
  intros Hself Hf Hlen. unfold o_f. rewrite (phase_oracle_binary Hf). cbn [rbind].
  apply apply_float_ok; [rewrite <- Hlen; apply oracle_matrix_shape | exact Hself].
Qed.

Lemma o_f_Ok_inv (self reg : QuantumRegister.t) (f : list Z) :
  o_f self f = Ok reg -> binary f /\ length f = p self.
Proof.
  unfold o_f. destruct (forallb (fun v => (v =? 0)%Z || (v =? 1)%Z) f) eqn:Eb.
  - apply binary_forallb in Eb. rewrite (phase_oracle_binary Eb). cbn [rbind].
    intros H. split; [exact Eb|].
    apply apply_float_shape in H. destruct H as [H _].
    rewrite <- H. symmetry. apply (proj1 (oracle_matrix_shape f)).
  - unfold phase_oracle. rewrite Eb. discriminate.
Qed.

Lemma o_f_error (self : QuantumRegister.t) (f : list Z) (e : exn) :
  well_formed self -> o_f self f = Raise e -> e = AssertionError.
Proof.
  intros Hself. unfold o_f.
  destruct (forallb (fun v => (v =? 0)%Z || (v =? 1)%Z) f) eqn:Eb.
  - apply binary_forallb in Eb. rewrite (phase_oracle_binary Eb). cbn [rbind].
    unfold apply. rewrite (asarray_float_shaped (oracle_matrix_shape f)). cbn [rbind].
    destruct (has_shape _ (p self) (p self)) eqn:E; cbn [assert rbind].
    + apply has_shape_iff in E.
      rewrite (@matmul_vec_shaped _ (_state self) (p self))
        by (unfold well_formed, state in Hself; rewrite Hself; exact E).
      discriminate.
    + intros [= <-]. reflexivity.
  - unfold phase_oracle. rewrite Eb. cbn. intros [= <-]. reflexivity.
Qed.
End RegisterOperations.

Section Totality.
Import Utils QuantumRegister.
Local Open Scope R_scope.

(** X3. On a register whose state has length [p], as every register that
    the constructor or a gate returns has, [h] and [r] never fail: they
    return a register with the same [n] whose state has length [p]
    again. *)
Theorem h_r_never_fail (self : QuantumRegister.t) :
  well_formed self ->
  (exists reg, h self = Ok reg /\ n reg = n self /\ well_formed reg) /\
  (exists reg, r self = Ok reg /\ n reg = n self /\ well_formed reg).
Proof.
  intros Hself. split.
  - eexists. split; [apply h_ok; exact Hself|]. split; [reflexivity|].
    unfold well_formed, state, p; cbn [_state _n]. rewrite matvec_length.
    apply (proj1 (had_shape _)).
  - eexists. split; [apply r_ok; exact Hself|]. split; [reflexivity|].
    unfold well_formed, state, p; cbn [_state _n]. rewrite matvec_length.
    apply (proj1 (r_gate_shape _)).
Qed.

Lemma h_r_never_fail_witness :
  exists reg, h {| _n := 1; _state := [C1; C0] |} = Ok reg /\
              n reg = 1%nat /\ well_formed reg.
Proof. apply (proj1 (@h_r_never_fail {| _n := 1; _state := [C1; C0] |} eq_refl)). Defined.
End Totality.

Section OracleMethod.
Import Utils QuantumRegister.
Local Open Scope R_scope.

Lemma nth_Re (v : vector C) (i : nat) : nth i (map Re v) 0 = Re (nth i v C0).
Proof. change 0 with (Re C0). apply map_nth. Qed.

Lemma nth_Im (v : vector C) (i : nat) : nth i (map Im v) 0 = Im (nth i v C0).
Proof. change 0 with (Im C0). apply map_nth. Qed.

(** X4. On a register whose state has length [p], [o_f(f)] returns a
    register exactly when [f] is a table of zeros and ones of length [p],
    and fails with an assertion error otherwise; the register returned has
    every amplitude multiplied by [(-1) ^ f[i]], and [o_f(f)] applied to it
    gives the first register back. *)
Theorem o_f_flips_marked_amplitudes (self : QuantumRegister.t) (f : list Z) :
  well_formed self ->
  ((exists reg, o_f self f = Ok reg) <-> binary f /\ length f = p self) /\
  (~ (binary f /\ length f = p self) -> o_f self f = Raise AssertionError) /\
  (forall reg, o_f self f = Ok reg ->
     n reg = n self /\ well_formed reg /\
     (forall i, (i < p self)%nat ->
        Re (nth i (state reg) C0) = (- 1) ^ Z.to_nat (nth i f 0%Z) * Re (nth i (state self) C0) /\
        Im (nth i (state reg) C0) = (- 1) ^ Z.to_nat (nth i f 0%Z) * Im (nth i (state self) C0)) /\
     o_f reg f = Ok self).
Proof.
  intros Hself. split; [|split].
  - split.
    + intros [reg H]. exact (o_f_Ok_inv _ _ H).
    + intros [Hf Hlen]. eexists. apply o_f_ok; assumption.
  - intros Hnot. destruct (o_f self f) as [reg|e] eqn:E.
    + exfalso. apply Hnot. exact (o_f_Ok_inv _ _ E).
    + f_equal. exact (o_f_error _ Hself E).
  - intros reg H. destruct (o_f_Ok_inv _ _ H) as [Hf Hlen].
    rewrite (o_f_ok Hself Hf Hlen) in H. injection H as <-.
    assert (Hst : length (state self) = length f)
      by (rewrite Hlen; exact Hself).
    assert (Hwf : well_formed {| _n := n self;
                                 _state := matvec (oracle_matrix f) (state self) |}).
    { unfold well_formed, state, p; cbn [_state _n]. rewrite matvec_length.
      rewrite (proj1 (oracle_matrix_shape f)). exact Hlen. }
    split; [reflexivity|]. split; [exact Hwf|]. split.
    + intros i Hi. unfold state at 1 4; cbn [_state]. split.
      * rewrite <- !nth_Re, Re_matvec.
        rewrite rmatvec_oracle by (rewrite length_map; exact Hst).
        rewrite nth_map_seq by lia. reflexivity.
      * rewrite <- !nth_Im, Im_matvec.
        rewrite rmatvec_oracle by (rewrite length_map; exact Hst).
        rewrite nth_map_seq by lia. reflexivity.
    + rewrite (@o_f_ok _ f Hwf Hf Hlen). unfold n, state; cbn [_n _state].
      rewrite (@matvec_involutive (oracle_matrix f) (length f));
        [f_equal; apply register_eta | | exact Hst].
      intros w Hw. apply oracle_involutive; assumption.
Qed.

Lemma o_f_flips_marked_amplitudes_witness :
  o_f {| _n := 1; _state := [C1; C0] |} [0; 1; 0]%Z = Raise AssertionError.
Proof.
  apply (proj1 (proj2 (@o_f_flips_marked_amplitudes
                         {| _n := 1; _state := [C1; C0] |} [0; 1; 0]%Z eq_refl))).
  intros [_ H]. discriminate H.
Defined.
End OracleMethod.

Section QubitFacts.
Local Open Scope R_scope.

Lemma one_array : Qubit.array Qubit.one = [C0; C1].
Proof.
  unfold Qubit.array, Qubit.one, Qubit.init, Qubit.alpha, Qubit.beta.
  assert (E1 : Cabs C1 = 1).
  { unfold Cabs, C1, RtoC; simpl. replace (1 * 1 + 0 * 0) with 1 by ring. apply sqrt_1. }
  assert (E0 : Cabs C0 = 0).
  { unfold Cabs, C0, RtoC; simpl. replace (0 * 0 + 0 * 0) with 0 by ring. apply sqrt_0. }
  rewrite E1, E0.
  replace (0 ^ 2 + 1 ^ 2) with 1 by ring.
  destruct (Rlt_dec 0 1) as [_|H]; [|lra].
  rewrite sqrt_1. simpl.
  f_equal; [|f_equal]; apply C_eq; simpl; field.
Qed.
End QubitFacts.

Section ConstructorFacts.
Import QuantumRegister.
Local Open Scope R_scope.

(** The state built from qubits: the first qubit is the outermost factor. *)
Lemma init_qubits_state (qs : list Qubit.t) :
  qs <> [] ->
  init (map QQubit qs) =
  Ok {| _n := length qs;
        _state := fold_right (fun q st => kronv (Qubit.array q) st) [C1] qs |}.
Proof.
  intros Hne. unfold init. rewrite length_map.
  destruct qs as [|q qs]; [congruence|].
  change (0 <? length (q :: qs))%nat with true. cbn [assert rbind].
  rewrite is_Qubit_map, the_Qubits_map. cbn [rbind].
  rewrite fold_kronv_length, length_rev. cbn [length]. rewrite Nat.mul_1_r, Nat.eqb_refl.
  cbn [assert rbind]. do 2 f_equal.
  rewrite <- (fold_left_rev_right (fun q st => kronv (Qubit.array q) st)).
  rewrite rev_involutive. reflexivity.
Qed.

Lemma kronv_one_real (v : vector R) :
  kronv (Qubit.array Qubit.one) (map RtoC v) =
  map RtoC (repeat 0 (length v) ++ v).
Proof.
  rewrite one_array. unfold kronv. simpl. rewrite app_nil_r, map_app.
  apply f_equal2.
  - induction v as [|x v IH]; simpl; [reflexivity|].
    apply f_equal2; [apply C_eq; simpl; ring | exact IH].
  - rewrite map_map. apply map_ext. intros x. apply C_eq; simpl; ring.
Qed.

Lemma fold_basis_qubits (bits : list Z) :
  binary bits ->
  fold_right (fun q st => kronv (Qubit.array q) st) [C1] (map basis_qubit bits) =
  map RtoC (onehot (2 ^ length bits) (Z.to_nat (bits_value bits))).
Proof.
  induction 1 as [|b bits Hb Hbits IH]; cbn [map fold_right length].
  - unfold onehot; simpl. reflexivity.
  - rewrite IH. pose proof (bits_value_bound Hbits) as Hv.
    rewrite bits_value_cons.
    assert (Hlt : (Z.to_nat (bits_value bits) < 2 ^ length bits)%nat).
    { apply Nat2Z.inj_lt. rewrite Z2Nat.id, pow2_nat_Z by lia. lia. }
    replace (2 ^ S (length bits))%nat with (2 ^ length bits + 2 ^ length bits)%nat
      by (rewrite Nat.pow_succ_r'; lia).
    destruct Hb as [-> | ->]; unfold basis_qubit; cbn [Z.eqb].
    + rewrite kronv_zero_real, onehot_length.
      rewrite Z.mul_0_l, Z.add_0_l, <- onehot_double_low by exact Hlt. reflexivity.
    + rewrite kronv_one_real, onehot_length.
      rewrite Z.mul_1_l, Z2Nat.inj_add by lia.
      rewrite <- pow2_nat_Z, Nat2Z.id, <- onehot_double_high. reflexivity.
Qed.

(** X9. Both ways of naming a basis state build the same register: the
    qubits [zero] and [one], the integers 0 and 1 and the strings "0" and
    "1" give, for the same non-empty sequence of bits, the register whose
    single amplitude 1 is at the index the bits spell in binary, first bit
    most significant. *)
Theorem init_modes_agree (bits : list Z) :
  binary bits -> bits <> [] ->
  init (map (fun b => QQubit (basis_qubit b)) bits) = init (map QInt bits) /\
  init (map (fun b => QStr (str b)) bits) = init (map QInt bits) /\
  init (map QInt bits) =
  Ok {| _n := length bits;
        _state := map RtoC (onehot (2 ^ length bits) (Z.to_nat (bits_value bits))) |}.
Proof.
  intros Hb Hne. rewrite (init_ints Hb Hne), (init_strs Hb Hne).
  split; [|split; reflexivity].
  replace (map (fun b => QQubit (basis_qubit b)) bits) with (map QQubit (map basis_qubit bits))
    by (rewrite map_map; reflexivity).
  rewrite init_qubits_state by (destruct bits; [congruence|discriminate]).
  rewrite length_map, (fold_basis_qubits Hb). reflexivity.
Qed.

Lemma init_modes_agree_witness :
  init (map (fun b => QQubit (basis_qubit b)) [1; 0; 1]%Z) = init (map QInt [1; 0; 1]%Z).
Proof.
  apply (@init_modes_agree [1; 0; 1]%Z).
  - unfold binary. repeat (constructor; [lia|]). constructor.
  - discriminate.
Defined.
End ConstructorFacts.

Section DriverDomain.
Import Utils QuantumRegister Algorithms.
Local Open Scope R_scope.

Lemma argmax_from_bound (a : vector R) (best_i i : nat) (best : R) :
  (best_i < i)%nat -> (argmax_from best_i best i a < i + length a)%nat.
Proof.
  revert best_i best i. induction a as [|x a IH]; intros best_i best i Hi;
    cbn [argmax_from length].
  - lia.
  - destruct (Rlt_dec best x).
    + specialize (IH i x (S i)). lia.
    + specialize (IH best_i best (S i)). lia.
Qed.

Lemma argmax_lt (a : vector R) :
  a <> [] -> exists i, argmax a = Ok i /\ (i < length a)%nat.
Proof.
  destruct a as [|x a]; [congruence|]. intros _. eexists. split; [reflexivity|].
  cbn [length]. pose proof (@argmax_from_bound a 0 1 x). lia.
Qed.

(** Reading an index below [2 ^ n] as [n] bits. *)
Lemma index_bits (n i : nat) :
  (1 <= n)%nat -> (i < 2 ^ n)%nat ->
  map_int (format_0nb (Z.of_nat n) (N.of_nat i)) = Ok (padded n (N.of_nat i)) /\
  length (padded n (N.of_nat i)) = n /\ binary (padded n (N.of_nat i)) /\
  bits_value (padded n (N.of_nat i)) = Z.of_nat i.
Proof.
  intros Hn Hi. split; [apply map_int_format_0nb|].
  assert (H : (Z.of_N (N.of_nat i) < 2 ^ Z.of_nat n)%Z).
  { rewrite nat_N_Z, <- pow2_nat_Z. apply Nat2Z.inj_lt. exact Hi. }
  destruct (@padded_spec n (N.of_nat i) Hn H) as [H1 [H2 H3]].
  rewrite nat_N_Z in H3. auto.
Qed.

Lemma grover_operator_length (f : list Z) (v : vector R) :
  length (grover_operator f v) = length f.
Proof.
  unfold grover_operator. rewrite rmatvec_length. apply (proj1 (r_gate_shape _)).
Qed.

(** The loop of [grover_algorithm] on any table of the right length. *)
Lemma grover_loop_operator (n : nat) (f : list Z) (verbose : Z)
    (range : list nat) (v : vector R) :
  length f = (2 ^ n)%nat -> length v = (2 ^ n)%nat ->
  returned (grover_loop verbose (oracle_matrix f) range
              {| _n := n; _state := map RtoC v |}) =
  Ok {| _n := n; _state := map RtoC (Nat.iter (length range) (grover_operator f) v) |}.
Proof.
  intros Hlen. revert v. induction range as [|i range IH]; intros v Hv.
  - reflexivity.
  - cbn [grover_loop]. autorewrite with io.
    rewrite apply_real;
      [|rewrite <- Hlen; apply oracle_matrix_shape | exact Hv].
    cbn [rbind].
    rewrite r_real
      by (rewrite rmatvec_length, <- Hlen; apply (proj1 (oracle_matrix_shape f))).
    autorewrite with io. rewrite <- Hlen. fold (grover_operator f v).
    rewrite IH by (rewrite grover_operator_length; exact Hlen).
    cbn [length]. rewrite Nat.iter_succ_r. reflexivity.
Qed.

Lemma grover_circuit_operator (n : nat) (f : list Z) (verbose : Z) :
  (1 <= n)%nat -> length f = (2 ^ n)%nat -> binary f ->
  returned (grover_circuit f verbose) =
  Ok (Z.of_nat n,
      {| _n := n;
         _state := map RtoC (Nat.iter (Z.to_nat (grover_iterations (Z.of_nat n)))
                                      (grover_operator f)
                                      (repeat (SQRT1_2 ^ n) (2 ^ n))) |}).
Proof.
  intros Hn Hlen Hf. unfold grover_circuit.
  autorewrite with io.
  rewrite (length_pow2_Z f n Hlen), log2_pow2.
  autorewrite with io.
  rewrite (phase_oracle_binary Hf).
  autorewrite with io.
  rewrite Nat2Z.id, init_zero_qubits by lia.
  autorewrite with io.
  rewrite h_real by apply onehot_length. rewrite rmatvec_had_onehot_0.
  autorewrite with io.
  rewrite (@grover_loop_operator n f verbose _ _ Hlen) by apply repeat_length.
  rewrite length_seq.
  autorewrite with io. reflexivity.
Qed.

Lemma iter_grover_operator_length (f : list Z) (k : nat) (v : vector R) :
  length v = length f -> length (Nat.iter k (grover_operator f) v) = length f.
Proof.
  intros Hv. destruct k; [exact Hv|]. rewrite Nat.iter_succ. apply grover_operator_length.
Qed.

Lemma log2_error_pos (p : Z) (e : exn) :
  (0 < p)%Z -> log2 p = Raise e -> e = AssertionError.
Proof.
  intros Hp. unfold log2. destruct (Z.leb_spec p 0); [lia|].
  destruct (2 ^ Z.log2 p =? p)%Z; cbn; [discriminate|]. intros [= <-]. reflexivity.
Qed.

Lemma valid_table_of_log2 (f : list Z) (n : Z) :
  log2 (Z.of_nat (length f)) = Ok n -> binary f -> (0 < n)%Z -> valid_table f.
Proof.
  intros H Hf Hn. apply log2_Ok in H. destruct H as [_ H].
  split; [exact Hf|]. exists (Z.to_nat n). split; [lia|].
  apply Nat2Z.inj. rewrite H, pow2_nat_Z, Z2Nat.id by lia. reflexivity.
Qed.

Ltac circuit_error f Hne Hnot :=
  let n := fresh "n" in
  let e := fresh "e" in
  let E := fresh "E" in
  let Eb := fresh "Eb" in
  let Hpos := fresh "Hpos" in
  autorewrite with io;
  destruct (log2 (Z.of_nat (length f))) as [n|e] eqn:E;
  [ autorewrite with io;
    destruct (forallb (fun v => (v =? 0)%Z || (v =? 1)%Z) f) eqn:Eb;
    [ apply binary_forallb in Eb; rewrite (phase_oracle_binary Eb);
      autorewrite with io;
      destruct (Z.ltb_spec 0 n) as [Hpos|Hpos];
      [ exfalso; apply Hnot; exact (valid_table_of_log2 E Eb Hpos)
      | replace (Z.to_nat n) with 0%nat by lia; reflexivity ]
    | unfold phase_oracle; rewrite Eb; reflexivity ]
  | apply log2_error_pos in E;
    [ subst e; reflexivity
    | destruct f; [congruence | cbn [length]; lia] ] ].

Lemma hadamard_oracle_hadamard_rejects (f : list Z) (verbose : Z) :
  f <> [] -> ~ valid_table f ->
  returned (hadamard_oracle_hadamard f verbose) = Raise AssertionError.
Proof.
  intros Hne Hnot. unfold hadamard_oracle_hadamard. circuit_error f Hne Hnot.
Qed.

Lemma grover_circuit_rejects (f : list Z) (verbose : Z) :
  f <> [] -> ~ valid_table f ->
  returned (grover_circuit f verbose) = Raise AssertionError.
Proof.
  intros Hne Hnot. unfold grover_circuit. circuit_error f Hne Hnot.
Qed.

Lemma hadamard_oracle_hadamard_empty (verbose : Z) :
  returned (hadamard_oracle_hadamard [] verbose) = Raise ValueError.
Proof. unfold hadamard_oracle_hadamard. autorewrite with io. reflexivity. Qed.

Lemma grover_circuit_empty (verbose : Z) :
  returned (grover_circuit [] verbose) = Raise ValueError.
Proof. unfold grover_circuit. autorewrite with io. reflexivity. Qed.

Lemma hoh_state_length (n : nat) (f : list Z) : length (hoh_state n f) = (2 ^ n)%nat.
Proof. unfold hoh_state. rewrite rmatvec_length. apply (proj1 (had_shape n)). Qed.

Lemma bernstein_vazirani_bits (n : nat) (f : list Z) (verbose : Z) :
  (1 <= n)%nat -> length f = (2 ^ n)%nat -> binary f ->
  exists i, argmax (hoh_state n f) = Ok i /\ (i < 2 ^ n)%nat /\
            returned (bernstein_vazirani_algorithm f verbose) = Ok (padded n (N.of_nat i)).
Proof.
  intros Hn Hlen Hf.
  destruct (@argmax_lt (hoh_state n f)) as [i [Hi Hlt]].
  { intros E. pose proof (hoh_state_length n f) as H. rewrite E in H. cbn in H.
    pose proof (Nat.pow_nonzero 2 n). lia. }
  rewrite hoh_state_length in Hlt. exists i. split; [exact Hi|]. split; [exact Hlt|].
  rewrite bernstein_vazirani_split, returned_bind.
  rewrite (hadamard_oracle_hadamard_returned verbose Hn Hlen Hf).
  unfold bernstein_vazirani_readout. autorewrite with io.
  cbn [fst snd]. unfold real, state; cbn [_state].
  rewrite map_Re_RtoC, Hi. cbn [rbind].
  rewrite map_int_format_0nb. autorewrite with io. reflexivity.
Qed.

Lemma grover_bits (n : nat) (f : list Z) (verbose : Z) :
  (1 <= n)%nat -> length f = (2 ^ n)%nat -> binary f ->
  exists i,
    argmax (square (Nat.iter (Z.to_nat (grover_iterations (Z.of_nat n)))
                             (grover_operator f) (repeat (SQRT1_2 ^ n) (2 ^ n)))) = Ok i /\
    (i < 2 ^ n)%nat /\
    returned (grover_algorithm f verbose) = Ok (padded n (N.of_nat i)).
Proof.
  intros Hn Hlen Hf.
  set (v := Nat.iter (Z.to_nat (grover_iterations (Z.of_nat n)))
                     (grover_operator f) (repeat (SQRT1_2 ^ n) (2 ^ n))).
  assert (Hv : length (square v) = (2 ^ n)%nat).
  { unfold square. rewrite length_map. unfold v.
    rewrite iter_grover_operator_length by (rewrite repeat_length; auto). exact Hlen. }
  destruct (@argmax_lt (square v)) as [i [Hi Hlt]].
  { intros E. rewrite E in Hv. cbn in Hv. pose proof (Nat.pow_nonzero 2 n). lia. }
  rewrite Hv in Hlt. exists i. split; [exact Hi|]. split; [exact Hlt|].
  rewrite grover_split, returned_bind.
  rewrite (grover_circuit_operator verbose Hn Hlen Hf). fold v.
  unfold grover_readout. autorewrite with io.
  cbn [fst snd]. unfold real, state; cbn [_state].
  rewrite map_Re_RtoC, Hi. cbn [rbind].
  rewrite map_int_format_0nb. autorewrite with io. reflexivity.
Qed.
End DriverDomain.

Section DriverAcceptance.
Import Utils QuantumRegister Algorithms.
Local Open Scope R_scope.

Lemma returned_error {A B} (m : io A) (k : A -> io B) (e : exn) :
  returned m = Raise e -> returned (bind m k) = Raise e.
Proof. intros H. rewrite returned_bind, H. reflexivity. Qed.

(** X10. The three drivers return a value exactly on the truth tables of
    zeros and ones of length [2 ^ n] with [n >= 1]: Deutsch-Jozsa one of its
    four answers, Grover and Bernstein-Vazirani a list of [n] bits.  On the
    empty table they raise [ValueError]; on any other table (a length that
    is 1 or not a power of two, or an entry that is not 0 or 1) an
    assertion fails. *)
Theorem drivers_accept_exactly_valid_tables (f : list Z) (verbose : Z) :
  (valid_table f ->
   (exists found_type,
      returned (deutsch_jozsa_algorithm f verbose) = Ok found_type /\
      In found_type ["constant 0"; "constant 1"; "balanced"; "other"]%string) /\
   (exists found_index,
      returned (grover_algorithm f verbose) = Ok found_index /\
      binary found_index /\ length f = (2 ^ length found_index)%nat) /\
   (exists found_key,
      returned (bernstein_vazirani_algorithm f verbose) = Ok found_key /\
      binary found_key /\ length f = (2 ^ length found_key)%nat)) /\
  (f = [] ->
   returned (deutsch_jozsa_algorithm f verbose) = Raise ValueError /\
   returned (grover_algorithm f verbose) = Raise ValueError /\
   returned (bernstein_vazirani_algorithm f verbose) = Raise ValueError) /\
  (f <> [] -> ~ valid_table f ->
   returned (deutsch_jozsa_algorithm f verbose) = Raise AssertionError /\
   returned (grover_algorithm f verbose) = Raise AssertionError /\
   returned (bernstein_vazirani_algorithm f verbose) = Raise AssertionError).
Proof.
  split; [|split].
  - intros [Hf [n [Hn Hlen]]]. split; [|split].
    + eexists. split; [apply (deutsch_jozsa_returned verbose Hn Hlen Hf)|].
      cbv zeta. cbn [In].
      destruct (allclose _ 1); [auto|].
      destruct (allclose _ (-1)); [auto|].
      destruct (allclose _ 0); auto.
    + destruct (grover_bits verbose Hn Hlen Hf) as [i [_ [Hi Hret]]].
      destruct (index_bits Hn Hi) as [_ [Hl [Hb _]]].
      eexists. split; [exact Hret|]. split; [exact Hb|]. rewrite Hl. exact Hlen.
    + destruct (bernstein_vazirani_bits verbose Hn Hlen Hf) as [i [_ [Hi Hret]]].
      destruct (index_bits Hn Hi) as [_ [Hl [Hb _]]].
      eexists. split; [exact Hret|]. split; [exact Hb|]. rewrite Hl. exact Hlen.
  - intros ->.
    rewrite deutsch_jozsa_split, grover_split, bernstein_vazirani_split.
    repeat split; apply returned_error;
      [apply hadamard_oracle_hadamard_empty | apply grover_circuit_empty
      | apply hadamard_oracle_hadamard_empty].
  - intros Hne Hnot.
    rewrite deutsch_jozsa_split, grover_split, bernstein_vazirani_split.
    repeat split; apply returned_error;
      [apply hadamard_oracle_hadamard_rejects | apply grover_circuit_rejects
      | apply hadamard_oracle_hadamard_rejects]; assumption.
Qed.

Lemma drivers_accept_exactly_valid_tables_witness :
  returned (deutsch_jozsa_algorithm [0; 1; 1]%Z 2) = Raise AssertionError /\
  returned (grover_algorithm [0; 1; 1]%Z 2) = Raise AssertionError /\
  returned (bernstein_vazirani_algorithm [0; 1; 1]%Z 2) = Raise AssertionError.
Proof.
  apply (proj2 (proj2 (drivers_accept_exactly_valid_tables [0; 1; 1]%Z 2))).
  - discriminate.
  - intros [_ [n [Hn H]]]. cbn [length] in H.
    destruct n as [|[|n]]; [lia | discriminate H |].
    rewrite !Nat.pow_succ_r' in H. pose proof (Nat.pow_nonzero 2 n). lia.
Defined.
End DriverAcceptance.

Section DeutschJozsaExact.
Import Utils QuantumRegister Algorithms.
Local Open Scope R_scope.

Lemma allclose_true (x y : R) :
  allclose x y = true <-> Rabs (x - y) <= atol + rtol * Rabs y.
Proof.
  unfold allclose. destruct (Rle_dec _ _) as [H|H]; split; auto; discriminate.
Qed.

(** Closeness of a quotient, without the division. *)
Lemma close_quotient (s P y t : R) :
  0 < P -> (Rabs (s / P - y) <= t <-> - (t * P) <= s - y * P <= t * P).
Proof.
  intros HP.
  assert (E : s - y * P = (s / P - y) * P) by (field; lra).
  rewrite E. generalize (s / P - y). intros d. split.
  - unfold Rabs. destruct (Rcase_abs d); intros H; split; nra.
  - intros [H1 H2]. unfold Rabs. destruct (Rcase_abs d); nra.
Qed.

Lemma INR_lt_1 (k : nat) : INR k < 1 -> k = 0%nat.
Proof.
  intros H. destruct k; [reflexivity|]. rewrite S_INR in H. pose proof (pos_INR k). lra.
Qed.

Lemma constant_count (f : list Z) (v w : Z) :
  binary f -> (v = 0%Z /\ w = 1%Z) \/ (v = 1%Z /\ w = 0%Z) ->
  (count_of w f = 0%nat <-> Forall (fun x => x = v) f).
Proof.
  intros Hf Hvw. unfold count_of. rewrite <- count_occ_not_In, Forall_forall. split.
  - intros Hnot x Hx. unfold binary in Hf. rewrite Forall_forall in Hf.
    destruct (Hf x Hx) as [-> | ->]; destruct Hvw as [[-> ->] | [-> ->]];
      try reflexivity; contradiction.
  - intros Hall Hin. specialize (Hall _ Hin).
    destruct Hvw as [[-> ->] | [-> ->]]; discriminate.
Qed.

Lemma pow2_le_17 (n : nat) : (n <= 17)%nat -> 2 ^ n <= 131072.
Proof.
  intros Hn. replace 131072 with (2 ^ 17) by (simpl; lra).
  apply Rle_pow; [lra | exact Hn].
Qed.

(** The three tests of [deutsch_jozsa_algorithm], decided by the counts. *)
Lemma deutsch_jozsa_tests (n : nat) (f : list Z) :
  (1 <= n <= 17)%nat -> length f = (2 ^ n)%nat -> binary f ->
  (allclose (signsum f / 2 ^ n) 1 = true <-> count_of 1 f = 0%nat) /\
  (allclose (signsum f / 2 ^ n) (-1) = true <-> count_of 0 f = 0%nat) /\
  (allclose (signsum f / 2 ^ n) 0 = true <-> count_of 0 f = count_of 1 f).
Proof.
  intros [Hn Hn'] Hlen Hf.
  destruct (signsum_counts Hf) as [Hsum Hcount].
  assert (Hp : INR (count_of 0 f) + INR (count_of 1 f) = 2 ^ n).
  { rewrite <- plus_INR, Hcount, Hlen, pow_INR. reflexivity. }
  assert (Hpos : 0 < 2 ^ n) by (apply pow_lt; lra).
  pose proof (pow2_le_17 Hn') as Hle.
  pose proof (pos_INR (count_of 0 f)) as H0.
  pose proof (pos_INR (count_of 1 f)) as H1.
  rewrite !allclose_true, Hsum.
  rewrite !(@close_quotient _ (2 ^ n)) by exact Hpos.
  assert (Em : Rabs (-1) = 1) by (unfold Rabs; destruct (Rcase_abs (-1)); lra).
  rewrite Rabs_R1, Em, Rabs_R0. clear Em. unfold atol, rtol.
  rewrite <- Hp in Hpos, Hle |- *. clear Hp Hsum Hcount Hlen Hf.
  set (a := count_of 0 f) in *. set (b := count_of 1 f) in *. clearbody a b.
  split; [|split]; split.
  - intros [H _]. apply INR_lt_1. lra.
  - intros ->. simpl. lra.
  - intros [_ H]. apply INR_lt_1. lra.
  - intros ->. simpl. lra.
  - intros [H H']. destruct (Nat.lt_trichotomy a b) as [L | [E | L]]; [|exact E|]; exfalso.
    + assert (1 <= INR b - INR a)
        by (rewrite <- minus_INR by lia; change 1 with (INR 1); apply le_INR; lia).
      lra.
    + assert (1 <= INR a - INR b)
        by (rewrite <- minus_INR by lia; change 1 with (INR 1); apply le_INR; lia).
      lra.
  - intros ->. lra.
Qed.

(** X11. Up to 17 qubits the answer of the Deutsch-Jozsa driver is exact:
    on a table of zeros and ones of length [2 ^ n], [1 <= n <= 17], it
    returns ["constant 0"] exactly when the table is all zeros,
    ["constant 1"] exactly when it is all ones, ["balanced"] exactly when it
    has as many zeros as ones, and ["other"] exactly in the remaining
    cases: the tolerances of [np.allclose] cannot confuse two cases. *)
Theorem deutsch_jozsa_exact (n : nat) (f : list Z) (verbose : Z) :
  (1 <= n <= 17)%nat -> length f = (2 ^ n)%nat -> binary f ->
  let found := returned (deutsch_jozsa_algorithm f verbose) in
  (found = Ok "constant 0"%string <-> Forall (fun v => v = 0%Z) f) /\
  (found = Ok "constant 1"%string <-> Forall (fun v => v = 1%Z) f) /\
  (found = Ok "balanced"%string <-> count_of 0 f = count_of 1 f) /\
  (found = Ok "other"%string <->
   ~ Forall (fun v => v = 0%Z) f /\ ~ Forall (fun v => v = 1%Z) f /\
   count_of 0 f <> count_of 1 f).
Proof.
  intros Hn Hlen Hf found.
  assert (Hfound := deutsch_jozsa_returned verbose (proj1 Hn) Hlen Hf).
  fold found in Hfound. clearbody found. cbv zeta in Hfound.
  destruct (deutsch_jozsa_tests Hn Hlen Hf) as [T1 [T2 T3]].
  rewrite (@constant_count f 0%Z 1%Z Hf) in T1 by auto.
  rewrite (@constant_count f 1%Z 0%Z Hf) in T2 by auto.
  destruct (signsum_counts Hf) as [_ Hcount].
  assert (Hpow : (2 <= 2 ^ n)%nat).
  { destruct n as [|n]; [lia|]. rewrite Nat.pow_succ_r'.
    pose proof (Nat.pow_nonzero 2 n). lia. }
  assert (X12 : Forall (fun v => v = 0%Z) f -> Forall (fun v => v = 1%Z) f -> False).
  { intros A B. destruct f as [|x f]; [cbn in Hlen; lia|].
    inversion A; inversion B; subst. discriminate. }
  assert (X13 : Forall (fun v => v = 0%Z) f -> count_of 0 f = count_of 1 f -> False).
  { intros A B. apply (constant_count (v := 0%Z) (w := 1%Z) Hf) in A; [|auto]. lia. }
  assert (X23 : Forall (fun v => v = 1%Z) f -> count_of 0 f = count_of 1 f -> False).
  { intros A B. apply (constant_count (v := 1%Z) (w := 0%Z) Hf) in A; [|auto]. lia. }
  subst found.
  destruct (allclose (signsum f / 2 ^ n) 1) eqn:A1;
    [pose proof (proj1 T1 eq_refl) as P1
    | assert (P1 : ~ Forall (fun v => v = 0%Z) f)
        by (intros H; apply T1 in H; discriminate)];
  (destruct (allclose (signsum f / 2 ^ n) (-1)) eqn:A2;
    [pose proof (proj1 T2 eq_refl) as P2
    | assert (P2 : ~ Forall (fun v => v = 1%Z) f)
        by (intros H; apply T2 in H; discriminate)]);
  (destruct (allclose (signsum f / 2 ^ n) 0) eqn:A3;
    [pose proof (proj1 T3 eq_refl) as P3
    | assert (P3 : count_of 0 f <> count_of 1 f)
        by (intros H; apply T3 in H; discriminate)]);
  repeat split; try discriminate; try tauto; try (intros; exfalso; tauto).
Qed.

Lemma deutsch_jozsa_exact_witness :
  returned (deutsch_jozsa_algorithm [0; 1; 1; 1]%Z 0) = Ok "other"%string.
Proof.
  assert (Hn : (1 <= 2 <= 17)%nat) by lia.
  assert (Hlen : length [0; 1; 1; 1]%Z = (2 ^ 2)%nat) by reflexivity.
  assert (Hf : binary [0; 1; 1; 1]%Z) by (unfold binary; repeat (constructor; [lia|]); constructor).
  apply (proj2 (proj2 (proj2 (deutsch_jozsa_exact 0 Hn Hlen Hf)))).
  split; [|split].
  - intros H. inversion H as [|? ? _ H']. inversion H'. discriminate.
  - intros H. inversion H. discriminate.
  - vm_compute. discriminate.
Defined.
End DeutschJozsaExact.

Section DeutschJozsaSymmetry.
Import Utils QuantumRegister Algorithms.
Local Open Scope R_scope.

Lemma log2_valid_table (f : list Z) :
  valid_table f -> exists n, (0 < n)%Z /\ log2 (Z.of_nat (length f)) = Ok n.
Proof.
  intros [_ [n [Hn Hlen]]]. exists (Z.of_nat n). split; [lia|].
  rewrite (length_pow2_Z f n Hlen). apply log2_pow2.
Qed.

Lemma valid_table_dec (f : list Z) : valid_table f \/ ~ valid_table f.
Proof.
  destruct (forallb (fun v => (v =? 0)%Z || (v =? 1)%Z) f) eqn:Eb.
  - apply binary_forallb in Eb.
    destruct (log2 (Z.of_nat (length f))) as [n|e] eqn:E.
    + destruct (Z.ltb_spec 0 n) as [Hn|Hn].
      * left. exact (valid_table_of_log2 E Eb Hn).
      * right. intros H. destruct (log2_valid_table H) as [m [Hm E']].
        rewrite E in E'. injection E' as ->. lia.
    + right. intros H. destruct (log2_valid_table H) as [m [_ E']].
      rewrite E in E'. discriminate.
  - right. intros [H _]. apply binary_forallb in H. rewrite H in Eb. discriminate.
Qed.

Lemma signsum_Permutation (f g : list Z) : Permutation f g -> signsum f = signsum g.
Proof.
  unfold signsum. induction 1; cbn [map fold_right]; lra.
Qed.

Lemma valid_table_Permutation (f g : list Z) :
  Permutation f g -> valid_table f -> valid_table g.
Proof.
  intros Hp [Hf [n [Hn Hlen]]]. split.
  - unfold binary. apply (Permutation_Forall Hp). exact Hf.
  - exists n. split; [exact Hn|]. rewrite <- (Permutation_length Hp). exact Hlen.
Qed.

(** X12. The Deutsch-Jozsa driver cannot tell two tables with the same
    entries in another order apart: on a permutation of a table it returns
    the same answer, or fails with the same exception, whatever the
    verbosity of either run. *)
Theorem deutsch_jozsa_permutation_invariant (f g : list Z) (verbose verbose' : Z) :
  Permutation f g ->
  returned (deutsch_jozsa_algorithm f verbose) =
  returned (deutsch_jozsa_algorithm g verbose').
Proof.
  intros Hp. destruct (valid_table_dec f) as [Hv | Hv].
  - pose proof (valid_table_Permutation Hp Hv) as Hv'.
    destruct Hv as [Hf [n [Hn Hlen]]]. destruct Hv' as [Hg _].
    assert (Hlen' : length g = (2 ^ n)%nat) by (rewrite <- (Permutation_length Hp); exact Hlen).
    rewrite (deutsch_jozsa_returned verbose Hn Hlen Hf).
    rewrite (deutsch_jozsa_returned verbose' Hn Hlen' Hg).
    rewrite (signsum_Permutation Hp). reflexivity.
  - assert (Hv' : ~ valid_table g)
      by (intros H; apply Hv; exact (valid_table_Permutation (Permutation_sym Hp) H)).
    rewrite !deutsch_jozsa_split.
    destruct f as [|x f].
    + apply Permutation_nil in Hp. subst g.
      rewrite !(returned_error _ _ (hadamard_oracle_hadamard_empty _)). reflexivity.
    + assert (Hg : g <> [])
        by (intros ->; apply Permutation_sym, Permutation_nil in Hp; discriminate).
      assert (Hf : x :: f <> []) by discriminate.
      rewrite (returned_error _ _ (@hadamard_oracle_hadamard_rejects (x :: f) verbose Hf Hv)).
      rewrite (returned_error _ _ (@hadamard_oracle_hadamard_rejects g verbose' Hg Hv')).
      reflexivity.
Qed.

Lemma deutsch_jozsa_permutation_invariant_witness :
  returned (deutsch_jozsa_algorithm [0; 1; 1; 0]%Z 0) =
  returned (deutsch_jozsa_algorithm [1; 0; 1; 0]%Z 2).
Proof.
  apply deutsch_jozsa_permutation_invariant.
  apply perm_trans with [1; 0; 1; 0]%Z; [apply perm_swap | apply Permutation_refl].
Defined.
End DeutschJozsaSymmetry.

Section EncodeDotProduct.
Local Open Scope Z_scope.

Lemma nth_dot_table (key xs : list Z) :
  binary key -> binary xs -> length xs = length key ->
  nth (Z.to_nat (bits_value xs)) (dot_table key) 0 = bits_dot key xs mod 2.
Proof.
  intros Hkey. revert xs. induction Hkey as [|b key Hb Hkey IH]; intros xs Hxs Hlen.
  - destruct xs; [reflexivity|discriminate].
  - destruct xs as [|x xs]; [discriminate|]. injection Hlen as Hlen.
    inversion Hxs as [|? ? Hx Hxs']; subst.
    pose proof (bits_value_bound Hxs') as Hv. rewrite Hlen in Hv.
    cbn [dot_table bits_dot]. rewrite bits_value_cons, Hlen.
    assert (Hlt : (Z.to_nat (bits_value xs) < length (dot_table key))%nat).
    { rewrite dot_table_length. apply Nat2Z.inj_lt.
      rewrite Z2Nat.id, pow2_nat_Z by lia. lia. }
    destruct Hx as [-> | ->].
    + rewrite Z.mul_0_l, Z.add_0_l, Z.mul_0_r, Z.add_0_l.
      rewrite app_nth1 by exact Hlt. apply IH; assumption.
    + rewrite Z.mul_1_l, Z.mul_1_r, Z2Nat.inj_add by lia.
      rewrite <- pow2_nat_Z, Nat2Z.id, <- dot_table_length.
      rewrite app_nth2_plus.
      rewrite (nth_indep _ 0 ((0 + b) mod 2)) by (rewrite length_map; exact Hlt).
      rewrite (map_nth (fun t => (t + b) mod 2)).
      rewrite IH by assumption.
      rewrite Zplus_mod_idemp_l. f_equal. ring.
Qed.

(** X13. [encode(key)] is the function of its docstring: for a non-empty
    key of zeros and ones it returns a table of zeros and ones of length
    [2 ^ n] whose entry at the index spelled by the bits [x1 ... xn] (first
    bit most significant) is [(s1 * x1 + ... + sn * xn) mod 2]; on the
    empty key it raises [ValueError]. *)
Theorem encode_is_dot_product (key : list Z) :
  (key = [] -> encode key = Raise ValueError) /\
  (binary key -> key <> [] ->
   exists f, encode key = Ok f /\ valid_table f /\ length f = (2 ^ length key)%nat /\
             forall xs, binary xs -> length xs = length key ->
                        nth (Z.to_nat (bits_value xs)) f 0 = bits_dot key xs mod 2).
Proof.
  split.
  - intros ->. reflexivity.
  - intros Hkey Hne. exists (dot_table key).
    split; [apply encode_dot_table; assumption|].
    split; [|split].
    + split; [apply dot_table_binary|]. exists (length key).
      split; [destruct key; [congruence | cbn [length]; lia] | apply dot_table_length].
    + apply dot_table_length.
    + intros xs Hxs Hlen. apply nth_dot_table; assumption.
Qed.

Lemma encode_is_dot_product_witness :
  exists f, encode [1; 1]%Z = Ok f /\ valid_table f /\ length f = (2 ^ 2)%nat /\
            forall xs, binary xs -> length xs = 2%nat ->
                       nth (Z.to_nat (bits_value xs)) f 0 = bits_dot [1; 1] xs mod 2.
Proof.
  apply (proj2 (encode_is_dot_product [1; 1]%Z)).
  - unfold binary. repeat (constructor; [lia|]). constructor.
  - discriminate.
Defined.
End EncodeDotProduct.

Section GroverSingleQubit.
Import Utils QuantumRegister Algorithms.
Local Open Scope R_scope.

Lemma grover_iterations_1 : grover_iterations 1 = 1%Z.
Proof.
  pose proof PI_bounds as HPI. unfold grover_iterations. apply Int_part_bounds.
  change (2 ^ 1)%Z with 2%Z.
  assert (H : 1.41 < sqrt 2 < 1.42) by (apply sqrt_bounds; lra). nra.
Qed.

Lemma grover_operator_two (a b : Z) (c : R) :
  binary [a; b] -> square (grover_operator [a; b] [c; c]) = [c * c; c * c].
Proof.
  intros Hf. unfold grover_operator.
  change [c; c] with (repeat c (length [a; b])). rewrite oracle_on_uniform.
  cbn [map].
  change (length [a; b]) with (length [sign a * c; sign b * c]).
  rewrite diffusion_reflects. cbn [map fold_right length INR square].
  inversion Hf as [|? ? Ha Hf']; subst. inversion Hf' as [|? ? Hb _]; subst.
  pose proof (sign_sqr Ha) as Sa. pose proof (sign_sqr Hb) as Sb.
  f_equal; [|f_equal].
  - transitivity (sign b * sign b * (c * c)); [field | rewrite Sb; ring].
  - transitivity (sign a * sign a * (c * c)); [field | rewrite Sa; ring].
Qed.

(** X15. One qubit is too few for Grover's algorithm: on every table of
    zeros and ones of length 2 the single Grover operator leaves both
    squared amplitudes equal and the driver returns [0], also on the
    table [0, 1] whose marked index is 1. *)
Theorem grover_single_qubit_returns_zero (f : list Z) (verbose : Z) :
  binary f -> length f = 2%nat ->
  returned (grover_algorithm f verbose) = Ok [0%Z].
Proof.
  intros Hf Hlen.
  destruct (@grover_bits 1 f verbose (le_n 1) Hlen Hf) as [i [Hi [_ Hret]]].
  rewrite Hret. clear Hret.
  change (Z.of_nat 1) with 1%Z in Hi. rewrite grover_iterations_1 in Hi.
  destruct f as [|a [|b [|? ?]]]; try discriminate Hlen.
  change (Z.to_nat 1) with 1%nat in Hi.
  cbn [Nat.iter nat_rect Nat.pow Nat.mul Nat.add repeat] in Hi.
  rewrite (grover_operator_two _ Hf) in Hi.
  cbn [argmax argmax_from] in Hi.
  destruct (Rlt_dec _ _) as [H|_] in Hi; [lra|].
  injection Hi as <-. reflexivity.
Qed.

Lemma grover_single_qubit_returns_zero_witness :
  returned (grover_algorithm [0; 1]%Z 0) = Ok [0%Z].
Proof.
  apply grover_single_qubit_returns_zero.
  - unfold binary. repeat (constructor; [lia|]). constructor.
  - reflexivity.
Defined.
End GroverSingleQubit.

Section Superposition.
Import Utils QuantumRegister.
Local Open Scope R_scope.


End Superposition.

Section GroverScript.
Import Algorithms.

Lemma setitem_zeros (p m : nat) :
  (m < p)%nat ->
  setitem (repeat 0%Z p) m 1%Z = Ok (repeat 0%Z m ++ 1%Z :: repeat 0%Z (p - S m)).
Proof.
  revert m. induction p as [|p IH]; intros m Hm; [lia|].
  destruct m as [|m]; cbn [repeat setitem app].
  - replace (S p - 1)%nat with p by lia. reflexivity.
  - rewrite IH by lia. reflexivity.
Qed.

Lemma marks_single_one (p m : nat) :
  (m < p)%nat -> marks (repeat 0%Z m ++ 1%Z :: repeat 0%Z (p - S m)) m.
Proof.
  intros Hm.
  assert (Hlen : length (repeat 0%Z m ++ 1%Z :: repeat 0%Z (p - S m)) = p).
  { rewrite length_app. cbn [length]. rewrite !repeat_length. lia. }
  split; [rewrite Hlen; exact Hm|].
  intros j Hj. rewrite Hlen in Hj.
  destruct (Nat.eqb_spec j m) as [->|Hne].
  - rewrite app_nth2 by (rewrite repeat_length; lia).
    rewrite repeat_length, Nat.sub_diag. reflexivity.
  - destruct (Nat.lt_ge_cases j m) as [Hlt|Hge].
    + rewrite app_nth1 by (rewrite repeat_length; exact Hlt).
      apply nth_repeat.
    + rewrite app_nth2 by (rewrite repeat_length; exact Hge).
      rewrite repeat_length. destruct (j - m)%nat as [|d] eqn:E; [lia|].
      cbn [nth]. apply nth_repeat.
Qed.

(** X19. The check of the Grover script cannot fail: for every index of 2
    to 7 bits, the table that [main] builds (zeros, with a one at the
    position the bits spell in binary) is built without error, and the
    Grover driver run on it returns the bits of the index, in their
    order. *)
Theorem grover_script_finds_index (index : list Z) (verbose : Z) :
  binary index -> (2 <= length index <= 7)%nat ->
  exists f, marked_table index = Ok f /\
            length f = (2 ^ length index)%nat /\
            returned (grover_algorithm f verbose) = Ok index.
Proof.
  intros Hb Hn.
  assert (Hne : index <> []) by (destruct index; [cbn in Hn; lia | discriminate]).
  pose proof (bits_value_bound Hb) as Hv.
  assert (Hm : (Z.to_nat (bits_value index) < 2 ^ length index)%nat).
  { apply Nat2Z.inj_lt. rewrite Z2Nat.id, pow2_nat_Z by lia. lia. }
  pose proof (marks_single_one Hm) as Hmarks.
  eexists. split; [|split].
  - unfold marked_table. rewrite (int2_bits Hb Hne). cbn [rbind].
    apply setitem_zeros. exact Hm.
  - rewrite length_app. cbn [length]. rewrite !repeat_length. lia.
  - rewrite (@grover_returned (length index) _ (Z.to_nat (bits_value index)) verbose);
      [| lia | rewrite length_app; cbn [length]; rewrite !repeat_length; lia
       | exact Hmarks | apply grover_dominates_2_7; exact Hn].
    rewrite Z_nat_N, (padded_bits_value Hb Hne). reflexivity.
Qed.

Lemma grover_script_finds_index_witness :
  exists f, marked_table [1; 0]%Z = Ok f /\
            length f = (2 ^ 2)%nat /\
            returned (grover_algorithm f 2) = Ok [1; 0]%Z.
Proof.
  apply (@grover_script_finds_index [1; 0]%Z 2).
  - unfold binary. repeat (constructor; [lia|]). constructor.
  - cbn [length]. lia.
Defined.
End GroverScript.
